(** * Condition variables of musl's pthread library (Magenta port)

    A verification development for
    [third_party/ulib/musl/pthread/pthread_cond_timedwait.c]:
    the waiter list of a process-local condition variable, the three-state
    wake protocol of a waiter node, [pthread_cond_timedwait] and
    [__private_cond_signal].

    The two functions are embedded as small-step programs over a shared
    memory: every access to shared memory that another thread can observe
    is one step, the blocks that run under the lock of the condition
    variable are one step each.  Threads interleave arbitrarily. *)

From Stdlib Require Import ZArith List Lia Bool.
From stdpp Require Import base decidable option list functions numbers relations.

Set Default Proof Using "Type".
Open Scope Z_scope.

(** ** Machine integers *)

Definition INT_MAX : Z := 2147483647.
Definition INT_MIN : Z := -2147483648.

(** Two's complement wrap-around of a 32-bit [int]. *)
Definition int_wrap (z : Z) : Z := (z + 2 ^ 31) mod 2 ^ 32 - 2 ^ 31.

Definition in_int (z : Z) : bool := (INT_MIN <=? z) && (z <=? INT_MAX).

(** Plain C arithmetic on a signed [int] ([ref++], [n--]): overflow is
    undefined behaviour, which the embedding renders as [None]. *)
Definition int_add (a b : Z) : option Z :=
  if in_int (a + b) then Some (a + b) else None.

(** Conversion of a [long] to [unsigned long] (LP64), as the comparison
    [ts->tv_nsec >= 1000000000UL] performs it. *)
Definition to_ulong (z : Z) : Z := z mod 2 ^ 64.

(** ** Constants of headers that are not part of the sources at hand *)

(** Modelled from the spec: [errno.h] is missing; the spec calls these
    the ownership-violation error, the validation error and the
    cancellation outcome.  The numbers are the generic errno values. *)
Definition EPERM : Z := 1.
Definition EINVAL : Z := 22.
Definition ETIMEDOUT : Z := 110.
Definition ECANCELED : Z := 125.

(** Modelled from the spec: [pthread.h] is missing; the cancellation
    interface has the states ENABLED, DISABLED and MASKED. *)
Definition PTHREAD_CANCEL_ENABLE : Z := 0.
Definition PTHREAD_CANCEL_DISABLE : Z := 1.
Definition PTHREAD_CANCEL_MASKED : Z := 2.

(** ** Atomic primitives *)

(** Modelled from the spec: [a_cas], [a_swap], [a_store], [a_fetch_add],
    [a_inc] and [a_dec] of musl's [atomic.h] are missing.  Each takes the
    content of the cell and returns the value the C function returns
    together with the new content of the cell.  [a_cas] is the
    compare-and-exchange: it returns the old content and stores [s] only
    when the old content is [t]. *)
Definition a_cas {A} `{EqDecision A} (cell t s : A) : A * A :=
  (cell, if decide (cell = t) then s else cell).

Definition a_swap (cell v : Z) : Z * Z := (cell, v).

Definition a_store (cell v : Z) : Z := v.

Definition a_fetch_add (cell v : Z) : Z * Z := (cell, int_wrap (cell + v)).

Definition a_inc (cell : Z) : Z := int_wrap (cell + 1).

Definition a_dec (cell : Z) : Z := int_wrap (cell - 1).

(** ** Data model *)

(** Addresses of waiter nodes and of the [ref] counters of signalers.  A
    node has automatic storage in the call that waits, so a call of
    [pthread_cond_timedwait] and its node share one address; likewise a
    call of [__private_cond_signal] and its [ref]. *)
Definition addr := nat.

(** [enum { WAITING, SIGNALED, LEAVING }] *)
Inductive wstate := WAITING | SIGNALED | LEAVING.

Global Instance wstate_eq_dec : EqDecision wstate.
Proof. solve_decision. Defined.

(** [struct waiter] *)
Record waiter := Waiter {
  prev : option addr;
  next : option addr;
  state : wstate;
  barrier : Z;
  notify : option addr
}.

(** [struct waiter node = {};] *)
Definition waiter_zero : waiter :=
  {| prev := None; next := None; state := WAITING; barrier := 0; notify := None |}.

Record timespec := Timespec { tv_sec : Z; tv_nsec : Z }.

(** Addresses that the wait/wake primitive is called on. *)
Inductive loc :=
  | CLock                 (* &c->_c_lock *)
  | Barrier (a : addr)    (* &node.barrier of the node at a *)
  | Ref (s : addr)        (* &ref of the signaler at s *)
  | MLock.                (* &m->_m_lock *)

Global Instance loc_eq_dec : EqDecision loc.
Proof. solve_decision. Defined.

(** What a run leaves behind: the calls of the wait/wake primitive and of
    the mutex, and the operations on the waiter list and on the state
    of a node, newest first. *)
Inductive event :=
  | EvFutexWait (l : loc) (v : Z)                       (* __wait(l, 0, v) *)
  | EvFutexWake (l : loc) (cnt : Z)                     (* __wake(l, cnt) *)
  | EvFutexRequeue (l : loc) (wake v : Z) (r : loc) (cnt : Z)
  | EvTimedwait (l : loc) (v clk : Z) (ts : option timespec)
  | EvMutexUnlock (t : addr)
  | EvMutexLock (t : addr) (res : Z)
  | EvInsert (t : addr)                                 (* node of t pushed at head *)
  | EvUnlink (t : addr)                                 (* node of t spliced out by t *)
  | EvSplit (s : addr) (p : option addr)                (* list split before p *)
  | EvWaiterCas (t : addr) (old : wstate)               (* a_cas WAITING->LEAVING by t *)
  | EvSignalCas (s : addr) (p : addr) (old : wstate).   (* a_cas WAITING->SIGNALED on p by s *)

(** The memory that the threads share: the condition variable
    ([pthread_cond_t]), the mutex ([pthread_mutex_t]), the waiter nodes
    and the [ref] counters. *)
Record shared := Shared {
  _c_lock : Z;
  _c_head : option addr;
  _c_tail : option addr;
  _c_clock : Z;
  _m_type : Z;
  _m_lock : Z;
  _m_waiters : Z;
  nodes : addr -> waiter;
  refs : addr -> Z;
  trace : list event
}.

Definition set_c_lock (v : Z) (m : shared) : shared :=
  Shared v (_c_head m) (_c_tail m) (_c_clock m) (_m_type m) (_m_lock m)
         (_m_waiters m) (nodes m) (refs m) (trace m).
Definition set_c_head (v : option addr) (m : shared) : shared :=
  Shared (_c_lock m) v (_c_tail m) (_c_clock m) (_m_type m) (_m_lock m)
         (_m_waiters m) (nodes m) (refs m) (trace m).
Definition set_c_tail (v : option addr) (m : shared) : shared :=
  Shared (_c_lock m) (_c_head m) v (_c_clock m) (_m_type m) (_m_lock m)
         (_m_waiters m) (nodes m) (refs m) (trace m).
Definition set_m_lock (v : Z) (m : shared) : shared :=
  Shared (_c_lock m) (_c_head m) (_c_tail m) (_c_clock m) (_m_type m) v
         (_m_waiters m) (nodes m) (refs m) (trace m).
Definition set_m_waiters (v : Z) (m : shared) : shared :=
  Shared (_c_lock m) (_c_head m) (_c_tail m) (_c_clock m) (_m_type m) (_m_lock m)
         v (nodes m) (refs m) (trace m).
Definition set_nodes (v : addr -> waiter) (m : shared) : shared :=
  Shared (_c_lock m) (_c_head m) (_c_tail m) (_c_clock m) (_m_type m) (_m_lock m)
         (_m_waiters m) v (refs m) (trace m).
Definition set_refs (v : addr -> Z) (m : shared) : shared :=
  Shared (_c_lock m) (_c_head m) (_c_tail m) (_c_clock m) (_m_type m) (_m_lock m)
         (_m_waiters m) (nodes m) v (trace m).
Definition emit (evs : list event) (m : shared) : shared :=
  Shared (_c_lock m) (_c_head m) (_c_tail m) (_c_clock m) (_m_type m) (_m_lock m)
         (_m_waiters m) (nodes m) (refs m) (evs ++ trace m).

(** Field updates of one node. *)
Definition with_prev (v : option addr) (w : waiter) : waiter :=
  Waiter v (next w) (state w) (barrier w) (notify w).
Definition with_next (v : option addr) (w : waiter) : waiter :=
  Waiter (prev w) v (state w) (barrier w) (notify w).
Definition with_state (v : wstate) (w : waiter) : waiter :=
  Waiter (prev w) (next w) v (barrier w) (notify w).
Definition with_barrier (v : Z) (w : waiter) : waiter :=
  Waiter (prev w) (next w) (state w) v (notify w).
Definition with_notify (v : option addr) (w : waiter) : waiter :=
  Waiter (prev w) (next w) (state w) (barrier w) v.

(** [a->field = v] on the node at [a]. *)
Definition upd_node (a : addr) (f : waiter -> waiter) (m : shared) : shared :=
  set_nodes (<[a := f (nodes m a)]> (nodes m)) m.

(** ** The lock of the condition variable and of a barrier *)

(** Where a thread is inside [lock]: before the first [a_cas], before the
    second one, in [__wait], before the [a_cas] of the loop condition. *)
Inductive lock_phase := LCas1 | LCas2 | LWait | LCas3.

Global Instance lock_phase_eq_dec : EqDecision lock_phase.
Proof. solve_decision. Defined.

(** [static inline void lock(volatile int* l)]: one step of it on the
    content [cell] of [*l].  The result is the new content, the next
    phase ([None]: the lock is taken, [lock] returns) and the call of the
    wait primitive, if any.  [__wait] may return at any time. *)
Definition lock (l : loc) (ph : lock_phase) (cell : Z)
  : Z * option lock_phase * list event :=
  match ph with
  | LCas1 =>
      let '(old, cell') := a_cas cell 0 1 in
      (cell', if decide (old = 0) then None else Some LCas2, [])
  | LCas2 =>
      let '(_, cell') := a_cas cell 1 2 in (cell', Some LWait, [])
  | LWait => (cell, Some LCas3, [EvFutexWait l 2])
  | LCas3 =>
      let '(old, cell') := a_cas cell 0 2 in
      (cell', if decide (old = 0) then None else Some LWait, [])
  end.

(** [static inline void unlock(volatile int* l)] *)
Definition unlock (l : loc) (cell : Z) : Z * list event :=
  let '(old, cell') := a_swap cell 0 in
  (cell', if decide (old = 2) then [EvFutexWake l 1] else []).

(** [static inline void unlock_requeue(volatile int* l, volatile int* r)] *)
Definition unlock_requeue (l r : loc) (cell : Z) : Z * list event :=
  (a_store cell 0, [EvFutexRequeue l 0 0 r 1]).

(** ** [pthread_cond_timedwait] *)

(** Program points of [pthread_cond_timedwait], by source line. *)
Inductive wpc :=
  | WEntry                      (* 65-75 *)
  | WLock1 (ph : lock_phase)    (* 77 *)
  | WInsert                     (* 79-89 *)
  | WUnlock1                    (* 91 *)
  | WMutexUnlock                (* 93 *)
  | WSetCancel                  (* 95-97 *)
  | WWait                       (* 107-109 *)
  | WCas                        (* 111-113 *)
  | WLock2 (ph : lock_phase)    (* 127 *)
  | WUnlink                     (* 130-137 *)
  | WUnlock2                    (* 139 *)
  | WNotify                     (* 150-153 *)
  | WLockB (ph : lock_phase)    (* 162 *)
  | WMutexLock                  (* 168-172 *)
  | WInc                        (* 186-187 *)
  | WRelease                    (* 191-194 *)
  | WSuppress                   (* 197-198 *)
  | WDone                       (* 201-206 *)
  | WRet (r : Z)                (* 70, 73, 208: returned r *)
  | WUnwound.                   (* __pthread_testcancel did not return *)

Global Instance wpc_eq_dec : EqDecision wpc.
Proof. solve_decision. Defined.

(** The arguments and local variables of one call.  [w_tid] is what
    [__thread_get_tid()] returns, [w_cancel] the cancel state of the
    calling thread, which [__pthread_setcancelstate] reads and sets. *)
Record wlocal := WLocal {
  w_pc : wpc;
  w_ts : option timespec;
  w_tid : Z;
  w_cancel : Z;
  w_e : Z;
  w_seq : Z;
  w_clock : Z;
  w_cs : Z;
  w_oldstate : wstate;
  w_tmp : Z
}.

Definition goto (pc : wpc) (w : wlocal) : wlocal :=
  WLocal pc (w_ts w) (w_tid w) (w_cancel w) (w_e w) (w_seq w) (w_clock w)
         (w_cs w) (w_oldstate w) (w_tmp w).
Definition set_cancel (v : Z) (w : wlocal) : wlocal :=
  WLocal (w_pc w) (w_ts w) (w_tid w) v (w_e w) (w_seq w) (w_clock w)
         (w_cs w) (w_oldstate w) (w_tmp w).
Definition set_e (v : Z) (w : wlocal) : wlocal :=
  WLocal (w_pc w) (w_ts w) (w_tid w) (w_cancel w) v (w_seq w) (w_clock w)
         (w_cs w) (w_oldstate w) (w_tmp w).
Definition set_seq (v : Z) (w : wlocal) : wlocal :=
  WLocal (w_pc w) (w_ts w) (w_tid w) (w_cancel w) (w_e w) v (w_clock w)
         (w_cs w) (w_oldstate w) (w_tmp w).
Definition set_clock (v : Z) (w : wlocal) : wlocal :=
  WLocal (w_pc w) (w_ts w) (w_tid w) (w_cancel w) (w_e w) (w_seq w) v
         (w_cs w) (w_oldstate w) (w_tmp w).
Definition set_cs (v : Z) (w : wlocal) : wlocal :=
  WLocal (w_pc w) (w_ts w) (w_tid w) (w_cancel w) (w_e w) (w_seq w) (w_clock w)
         v (w_oldstate w) (w_tmp w).
Definition set_oldstate (v : wstate) (w : wlocal) : wlocal :=
  WLocal (w_pc w) (w_ts w) (w_tid w) (w_cancel w) (w_e w) (w_seq w) (w_clock w)
         (w_cs w) v (w_tmp w).
Definition set_tmp (v : Z) (w : wlocal) : wlocal :=
  WLocal (w_pc w) (w_ts w) (w_tid w) (w_cancel w) (w_e w) (w_seq w) (w_clock w)
         (w_cs w) (w_oldstate w) v.

(** What the environment decides in a step: the result of the external
    call made in it ([__timedwait_cp], [pthread_mutex_lock]), the lock
    word the mutex functions leave behind, and whether
    [__pthread_testcancel] acts on a pending cancellation. *)
Record ext := Ext { x_ret : Z; x_word : Z; x_unwind : bool }.

(** Line 69: [(m->_m_type & 15) && (m->_m_lock & INT_MAX) != __thread_get_tid()] *)
Definition not_owner (m : shared) (tid : Z) : bool :=
  negb (Z.land (_m_type m) 15 =? 0) && negb (Z.land (_m_lock m) INT_MAX =? tid).

(** Line 72: [ts && ts->tv_nsec >= 1000000000UL] *)
Definition bad_nsec (ts : option timespec) : bool :=
  match ts with
  | Some t => 1000000000 <=? to_ulong (tv_nsec t)
  | None => false
  end.

(** Lines 79-89, under the lock: the node of [t] is pushed at the head. *)
Definition enqueue (t : addr) (m : shared) : option shared :=
  let m1 := upd_node t (with_barrier 2) m in
  let m2 := upd_node t (with_state WAITING) m1 in
  let m3 := upd_node t (with_next (_c_head m2)) m2 in
  let m4 := set_c_head (Some t) m3 in
  match _c_tail m4 with
  | None => Some (set_c_tail (Some t) m4)
  | Some _ =>
      match next (nodes m4 t) with
      | Some b => Some (upd_node b (with_prev (Some t)) m4)
      | None => None
      end
  end.

(** Lines 130-137, under the lock: the node of [t] is spliced out. *)
Definition unlink (t : addr) (m : shared) : shared :=
  let m1 :=
    if decide (_c_head m = Some t) then set_c_head (next (nodes m t)) m
    else match prev (nodes m t) with
         | Some b => upd_node b (with_next (next (nodes m t))) m
         | None => m
         end in
  if decide (_c_tail m1 = Some t) then set_c_tail (prev (nodes m1 t)) m1
  else match next (nodes m1 t) with
       | Some b => upd_node b (with_prev (prev (nodes m1 t))) m1
       | None => m1
       end.

(** Lines 150-153: the signaler that waits for this node is told. *)
Definition notify_signaler (t : addr) (m : shared) : shared :=
  match notify (nodes m t) with
  | Some s =>
      let '(old, r) := a_fetch_add (refs m s) (-1) in
      emit (if decide (old = 1) then [EvFutexWake (Ref s) 1] else [])
           (set_refs (<[s := r]> (refs m)) m)
  | None => m
  end.

(** Lines 186-187 *)
Definition chain_begin (t : addr) (m : shared) : shared :=
  match next (nodes m t) with
  | None => set_m_waiters (a_inc (_m_waiters m)) m
  | Some _ => m
  end.

(** Lines 191-194 *)
Definition chain_next (t : addr) (m : shared) : shared :=
  match prev (nodes m t) with
  | Some b =>
      let '(cell, evs) := unlock_requeue (Barrier b) MLock (barrier (nodes m b)) in
      emit evs (upd_node b (with_barrier cell) m)
  | None => set_m_waiters (a_dec (_m_waiters m)) m
  end.

(** One step of the call whose node is at [t]. *)
Definition pthread_cond_timedwait (t : addr) (x : ext) (m : shared) (w : wlocal)
  : option (shared * wlocal) :=
  match w_pc w with
  | WEntry =>
      let m1 := upd_node t (fun _ => waiter_zero) m in
      let w1 := set_clock (_c_clock m) w in
      if not_owner m (w_tid w) then Some (m1, goto (WRet EPERM) w1)
      else if bad_nsec (w_ts w) then Some (m1, goto (WRet EINVAL) w1)
      else if x_unwind x then Some (m1, goto WUnwound w1)
      else Some (m1, goto (WLock1 LCas1) w1)
  | WLock1 ph =>
      let '(cell, nxt, evs) := lock CLock ph (_c_lock m) in
      Some (emit evs (set_c_lock cell m),
            goto (match nxt with None => WInsert | Some ph' => WLock1 ph' end) w)
  | WInsert =>
      m' ← enqueue t m;
      Some (emit [EvInsert t] m', goto WUnlock1 (set_seq 2 w))
  | WUnlock1 =>
      let '(cell, evs) := unlock CLock (_c_lock m) in
      Some (emit evs (set_c_lock cell m), goto WMutexUnlock w)
  | WMutexUnlock =>
      Some (emit [EvMutexUnlock t] (set_m_lock (x_word x) m), goto WSetCancel w)
  | WSetCancel =>
      let cs := w_cancel w in
      let w1 := set_cancel PTHREAD_CANCEL_MASKED (set_cs cs w) in
      let w2 := if decide (cs = PTHREAD_CANCEL_DISABLE) then set_cancel cs w1 else w1 in
      Some (m, goto WWait w2)
  | WWait =>
      let e := x_ret x in
      let m1 := emit [EvTimedwait (Barrier t) (w_seq w) (w_clock w) (w_ts w)] m in
      if decide (barrier (nodes m t) = w_seq w ∧ e = 0)
      then Some (m1, set_e e w)
      else Some (m1, goto WCas (set_e e w))
  | WCas =>
      let '(old, st) := a_cas (state (nodes m t)) WAITING LEAVING in
      Some (emit [EvWaiterCas t old] (upd_node t (with_state st) m),
            goto (if decide (old = WAITING) then WLock2 LCas1 else WLockB LCas1)
                 (set_oldstate old w))
  | WLock2 ph =>
      let '(cell, nxt, evs) := lock CLock ph (_c_lock m) in
      Some (emit evs (set_c_lock cell m),
            goto (match nxt with None => WUnlink | Some ph' => WLock2 ph' end) w)
  | WUnlink =>
      Some (emit [EvUnlink t] (unlink t m), goto WUnlock2 w)
  | WUnlock2 =>
      let '(cell, evs) := unlock CLock (_c_lock m) in
      Some (emit evs (set_c_lock cell m), goto WNotify w)
  | WNotify =>
      Some (notify_signaler t m, goto WMutexLock w)
  | WLockB ph =>
      let '(cell, nxt, evs) := lock (Barrier t) ph (barrier (nodes m t)) in
      Some (emit evs (upd_node t (with_barrier cell) m),
            goto (match nxt with None => WMutexLock | Some ph' => WLockB ph' end) w)
  | WMutexLock =>
      let tmp := x_ret x in
      let w1 := if decide (tmp = 0) then set_tmp tmp w else set_e tmp (set_tmp tmp w) in
      Some (emit [EvMutexLock t tmp] (set_m_lock (x_word x) m),
            goto (if decide (w_oldstate w = WAITING) then WDone else WInc) w1)
  | WInc =>
      Some (chain_begin t m, goto WRelease w)
  | WRelease =>
      Some (chain_next t m, goto WSuppress w)
  | WSuppress =>
      Some (m, goto WDone (if decide (w_e w = ECANCELED) then set_e 0 w else w))
  | WDone =>
      let w1 := set_cancel (w_cs w) w in
      if decide (w_e w = ECANCELED)
      then if x_unwind x then Some (m, goto WUnwound w1)
           else Some (m, goto (WRet (w_e w)) (set_cancel PTHREAD_CANCEL_DISABLE w1))
      else Some (m, goto (WRet (w_e w)) w1)
  | WRet _ | WUnwound => None
  end.

(** ** [__private_cond_signal] *)

(** Program points of [__private_cond_signal], by source line. *)
Inductive spc :=
  | SEntry                      (* 215-218 *)
  | SLock (ph : lock_phase)     (* 220 *)
  | SFor                        (* 221: p = c->_c_tail *)
  | SLoop                       (* 221-235: test, body, p = p->prev *)
  | SSplit                      (* 237-244 *)
  | SUnlock                     (* 245 *)
  | SWaitRef                    (* 250-251 *)
  | SRelease                    (* 254-255 *)
  | SRet.

Global Instance spc_eq_dec : EqDecision spc.
Proof. solve_decision. Defined.

(** The argument [n] and the local variables of one call; [ref] is in
    the shared memory, at the address of the call. *)
Record slocal := SLocal {
  s_pc : spc;
  s_n : Z;
  s_p : option addr;
  s_first : option addr;
  s_cur : Z
}.

Definition sgoto (pc : spc) (l : slocal) : slocal :=
  SLocal pc (s_n l) (s_p l) (s_first l) (s_cur l).

(** Lines 222-234, the body of the loop at the node [a], then
    [p = p->prev]. *)
Definition visit (s a : addr) (m : shared) (l : slocal) : option (shared * slocal) :=
  let '(old, st) := a_cas (state (nodes m a)) WAITING SIGNALED in
  let m1 := emit [EvSignalCas s a old] (upd_node a (with_state st) m) in
  if decide (old = WAITING)
  then
    n' ← int_add (s_n l) (-1);
    let first' := match s_first l with None => Some a | Some f => Some f end in
    Some (m1, SLocal (s_pc l) n' (prev (nodes m1 a)) first' (s_cur l))
  else
    r ← int_add (refs m1 s) 1;
    let m2 := upd_node a (with_notify (Some s)) (set_refs (<[s := r]> (refs m1)) m1) in
    Some (m2, SLocal (s_pc l) (s_n l) (prev (nodes m2 a)) (s_first l) (s_cur l)).

(** Lines 237-244: the list is split before [p]. *)
Definition split (p : option addr) (m : shared) : shared :=
  let m1 :=
    match p with
    | Some a =>
        let m0 := match next (nodes m a) with
                  | Some b => upd_node b (with_prev None) m
                  | None => m
                  end in
        upd_node a (with_next None) m0
    | None => set_c_head None m
    end in
  set_c_tail p m1.

(** One step of the call whose [ref] is at [s]. *)
Definition __private_cond_signal (s : addr) (m : shared) (l : slocal)
  : option (shared * slocal) :=
  match s_pc l with
  | SEntry =>
      Some (set_refs (<[s := 0]> (refs m)) m,
            SLocal (SLock LCas1) (s_n l) (s_p l) None (s_cur l))
  | SLock ph =>
      let '(cell, nxt, evs) := lock CLock ph (_c_lock m) in
      Some (emit evs (set_c_lock cell m),
            sgoto (match nxt with None => SFor | Some ph' => SLock ph' end) l)
  | SFor =>
      Some (m, SLocal SLoop (s_n l) (_c_tail m) (s_first l) (s_cur l))
  | SLoop =>
      match s_p l with
      | Some a => if decide (s_n l = 0) then Some (m, sgoto SSplit l) else visit s a m l
      | None => Some (m, sgoto SSplit l)
      end
  | SSplit =>
      Some (emit [EvSplit s (s_p l)] (split (s_p l) m), sgoto SUnlock l)
  | SUnlock =>
      let '(cell, evs) := unlock CLock (_c_lock m) in
      Some (emit evs (set_c_lock cell m), sgoto SWaitRef l)
  | SWaitRef =>
      let cur := refs m s in
      let l1 := SLocal (s_pc l) (s_n l) (s_p l) (s_first l) cur in
      if decide (cur = 0) then Some (m, sgoto SRelease l1)
      else Some (emit [EvFutexWait (Ref s) cur] m, l1)
  | SRelease =>
      match s_first l with
      | Some a =>
          let '(cell, evs) := unlock (Barrier a) (barrier (nodes m a)) in
          Some (emit evs (upd_node a (with_barrier cell) m), sgoto SRet l)
      | None => Some (m, sgoto SRet l)
      end
  | SRet => None
  end.

(** ** The system of threads *)

(** Every address carries one call of [pthread_cond_timedwait] and one
    call of [__private_cond_signal]; a call that never starts stays at
    its entry. *)
Record system := System {
  mem : shared;
  waiters : addr -> wlocal;
  signalers : addr -> slocal
}.

Inductive step : system -> system -> Prop :=
  | step_wait t x m wt st m' w' :
      pthread_cond_timedwait t x m (wt t) = Some (m', w') ->
      step (System m wt st) (System m' (<[t := w']> wt) st)
  | step_signal s m wt st m' l' :
      __private_cond_signal s m (st s) = Some (m', l') ->
      step (System m wt st) (System m' wt (<[s := l']> st)).

(** Initially the lock is free, the list is empty, nothing has happened
    and every call is at its entry. *)
Definition initial (σ : system) : Prop :=
  _c_lock (mem σ) = 0 ∧ _c_head (mem σ) = None ∧ _c_tail (mem σ) = None ∧
  trace (mem σ) = [] ∧
  (∀ t, w_pc (waiters σ t) = WEntry) ∧
  (∀ s, s_pc (signalers σ s) = SEntry).

Definition reachable (σ : system) : Prop :=
  ∃ σ0, initial σ0 ∧ rtc step σ0 σ.

(** ** Runs of one call *)

(** The steps of one call of [pthread_cond_timedwait] under
    interference: before each of its steps the other threads leave the
    memory in some state, which the list supplies together with what the
    environment decides in that step. *)
Fixpoint wrun_env (t : addr) (env : list (ext * shared)) (w : wlocal) : option wlocal :=
  match env with
  | [] => Some w
  | (x, m) :: env' =>
      match pthread_cond_timedwait t x m w with
      | Some (_, w') => wrun_env t env' w'
      | None => None
      end
  end.

(** The steps of one call that runs alone. *)
Fixpoint wrun (t : addr) (xs : list ext) (m : shared) (w : wlocal)
  : option (shared * wlocal) :=
  match xs with
  | [] => Some (m, w)
  | x :: xs' =>
      match pthread_cond_timedwait t x m w with
      | Some (m', w') => wrun t xs' m' w'
      | None => None
      end
  end.

Fixpoint srun (k : nat) (s : addr) (m : shared) (l : slocal)
  : option (shared * slocal) :=
  match k with
  | O => Some (m, l)
  | S k' =>
      match __private_cond_signal s m l with
      | Some (m', l') => srun k' s m' l'
      | None => None
      end
  end.

(** ** Validation (lines 69-73) *)


Definition example_ext : ext := Ext 0 0 false.

(** A memory with an unlocked mutex of the given type and an empty list. *)
Definition idle_mem (mtype : Z) : shared :=
  {| _c_lock := 0; _c_head := None; _c_tail := None; _c_clock := 0;
     _m_type := mtype; _m_lock := 0; _m_waiters := 0;
     nodes := fun _ => waiter_zero; refs := fun _ => 0; trace := [] |}.

Definition entry_call (tid : Z) (ts : option timespec) : wlocal :=
  {| w_pc := WEntry; w_ts := ts; w_tid := tid; w_cancel := PTHREAD_CANCEL_ENABLE;
     w_e := 0; w_seq := 0; w_clock := 0; w_cs := 0; w_oldstate := WAITING;
     w_tmp := 0 |}.

(** What a step leaves of the memory when it only gives the node of the
    call its initial value [{}] of line 65: every field of the condition
    variable ([_c_lock], [_c_head], [_c_tail], [_c_clock]) and of the
    mutex ([_m_type], [_m_lock], [_m_waiters]), every counter, the trace
    and every other node are as before. *)
Definition only_node_init (t : addr) (m m' : shared) : Prop :=
  _c_lock m' = _c_lock m ∧ _c_head m' = _c_head m ∧ _c_tail m' = _c_tail m ∧
  _c_clock m' = _c_clock m ∧
  _m_type m' = _m_type m ∧ _m_lock m' = _m_lock m ∧
  _m_waiters m' = _m_waiters m ∧ refs m' = refs m ∧ trace m' = trace m ∧
  nodes m' t = waiter_zero ∧ (∀ a, a ≠ t -> nodes m' a = nodes m a).

Lemma only_node_init_zero t m : only_node_init t m (upd_node t (fun _ => waiter_zero) m).
Proof.
  unfold only_node_init, upd_node; simpl.
  repeat split; try reflexivity.
  - apply fn_lookup_insert.
  - intros a Ha. apply fn_lookup_insert_ne. congruence.
Qed.

Lemma long_out_of_range (z : Z) :
  - 2 ^ 63 <= z < 2 ^ 63 ->
  (z < 0 ∨ 1000000000 <= z) ->
  1000000000 <= to_ulong z.
Proof.
  intros Hr Ho. unfold to_ulong.
  destruct (Z_lt_dec z 0) as [Hneg | Hpos].
  - replace (z mod 2 ^ 64) with (z + 2 ^ 64); [lia |].
    apply Z.mod_unique with (q := -1); lia.
  - rewrite Z.mod_small; lia.
Qed.


(** C8, as the code has it: when the mutex is of a type that records its
    owner (a nonzero low nibble of [_m_type]) and the owner field of the
    lock word is not the caller, the first step of the call returns EPERM;
    the condition variable, the mutex, the counters, the trace and every
    other node are left as they were, the node of the call has only
    received its initial value. *)
Theorem timedwait_not_owner_EPERM (t : addr) (x : ext) (m : shared) (w : wlocal) :
  w_pc w = WEntry ->
  Z.land (_m_type m) 15 ≠ 0 ->
  Z.land (_m_lock m) INT_MAX ≠ w_tid w ->
  ∃ m' w', pthread_cond_timedwait t x m w = Some (m', w') ∧
           w_pc w' = WRet EPERM ∧ only_node_init t m m'.
Proof.
  intros Hpc Hty Hown.
  unfold pthread_cond_timedwait. rewrite Hpc.
  assert (Hno : not_owner m (w_tid w) = true).
  { unfold not_owner. apply andb_true_iff. split; apply negb_true_iff; lia. }
  rewrite Hno.
  eexists _, _. split; [reflexivity |]. split; [reflexivity |].
  apply only_node_init_zero.
Qed.

Lemma timedwait_not_owner_EPERM_witness :
  ∃ m' w', pthread_cond_timedwait 0%nat example_ext (idle_mem 2) (entry_call 7 None)
           = Some (m', w') ∧
           w_pc w' = WRet EPERM ∧ only_node_init 0%nat (idle_mem 2) m'.
Proof.
  apply (timedwait_not_owner_EPERM 0%nat example_ext (idle_mem 2) (entry_call 7 None)).
  - reflexivity.
  - vm_compute. discriminate.
  - vm_compute. discriminate.
Defined.

(** C8 fails as stated: with a mutex of the normal type (low nibble 0)
    that nobody holds, a caller that is not the owner is not refused; the
    call goes on to take the lock of the condition variable. *)
Lemma timedwait_not_owner_counterexample :
  Z.land (_m_lock (idle_mem 0)) INT_MAX ≠ w_tid (entry_call 7 None) ∧
  (w_pc ∘ snd) <$> pthread_cond_timedwait 0%nat example_ext (idle_mem 0) (entry_call 7 None)
  = Some (WLock1 LCas1).
Proof. split; [vm_compute; discriminate | reflexivity]. Qed.

(** C9, as the code has it: when the nanoseconds of the deadline (a
    [long]) are negative or at least 10^9, the first step of the call
    returns, and leaves the memory as it was, up to the initial value of
    the node of the call: no field of the condition variable or of the
    mutex, no counter and no other node is written.  The value returned
    is EINVAL when the ownership test of line 69 passes; when it does
    not, the call returns EPERM, since that test comes first. *)
Theorem timedwait_bad_nsec_EINVAL (t : addr) (x : ext) (m : shared) (w : wlocal)
    (ts : timespec) :
  w_pc w = WEntry ->
  w_ts w = Some ts ->
  - 2 ^ 63 <= tv_nsec ts < 2 ^ 63 ->
  (tv_nsec ts < 0 ∨ 1000000000 <= tv_nsec ts) ->
  ∃ m' w', pthread_cond_timedwait t x m w = Some (m', w') ∧
           w_pc w' = WRet (if not_owner m (w_tid w) then EPERM else EINVAL) ∧
           only_node_init t m m'.
Proof.
  intros Hpc Hts Hr Ho.
  unfold pthread_cond_timedwait. rewrite Hpc.
  assert (Hbad : bad_nsec (w_ts w) = true).
  { rewrite Hts. simpl. apply Z.leb_le. by apply long_out_of_range. }
  rewrite Hbad.
  destruct (not_owner m (w_tid w));
    (eexists _, _; split; [reflexivity |]; split; [reflexivity |];
     apply only_node_init_zero).
Qed.

Lemma timedwait_bad_nsec_EINVAL_witness :
  ∃ m' w',
    pthread_cond_timedwait 0%nat example_ext (idle_mem 0)
      (entry_call 7 (Some (Timespec 5 (-1)))) = Some (m', w') ∧
    w_pc w' = WRet EINVAL ∧ only_node_init 0%nat (idle_mem 0) m'.
Proof.
  apply (timedwait_bad_nsec_EINVAL 0%nat example_ext (idle_mem 0)
           (entry_call 7 (Some (Timespec 5 (-1)))) (Timespec 5 (-1))).
  - reflexivity.
  - reflexivity.
  - simpl. lia.
  - left. simpl. lia.
Defined.

(** C9 fails as stated: the ownership test comes first, so a call with a
    malformed deadline on an owner-recording mutex held by nobody returns
    EPERM, not EINVAL. *)
Lemma timedwait_bad_nsec_counterexample :
  bad_nsec (Some (Timespec 0 2000000000)) = true ∧
  (w_pc ∘ snd) <$> pthread_cond_timedwait 0%nat example_ext (idle_mem 2)
                     (entry_call 7 (Some (Timespec 0 2000000000)))
  = Some (WRet EPERM).
Proof. split; reflexivity. Qed.

(** ** The value returned after the blocking step (lines 165-208) *)


(** Where a call is, and what its local variables hold, once it has lost
    the race for its node to a signaler while [e] was [ECANCELED]. *)
Definition signaled_cancel_path (w : wlocal) : Prop :=
  w_oldstate w ≠ WAITING ∧
  match w_pc w with
  | WLockB _ | WMutexLock => w_e w = ECANCELED
  | WInc | WRelease | WSuppress =>
      w_e w = if decide (w_tmp w = 0) then ECANCELED else w_tmp w
  | WDone => w_e w = if decide (w_tmp w = ECANCELED) then 0 else w_tmp w
  | WRet r => r = if decide (w_tmp w = ECANCELED) then 0 else w_tmp w
  | _ => False
  end.

Lemma signaled_cancel_path_step t x m w m' w' :
  signaled_cancel_path w ->
  pthread_cond_timedwait t x m w = Some (m', w') ->
  signaled_cancel_path w'.
Proof.
  unfold signaled_cancel_path, pthread_cond_timedwait.
  intros [Hold Hpc] Hstep.
  destruct (w_pc w) eqn:Epc; try contradiction; try discriminate.
  - (* WLockB *)
    destruct (lock (Barrier t) ph (barrier (nodes m t))) as [[cell nxt] evs].
    inversion Hstep; subst; clear Hstep. simpl. split; [done |].
    by destruct nxt.
  - (* WMutexLock *)
    inversion Hstep; subst; clear Hstep.
    destruct (decide (w_oldstate w = WAITING)); [done |].
    destruct (decide (x_ret x = 0)) as [E0 | E0]; simpl; split; try done.
    + rewrite E0. by rewrite Hpc.
    + rewrite decide_False by done. done.
  - (* WInc *) inversion Hstep; subst; clear Hstep. simpl. done.
  - (* WRelease *) inversion Hstep; subst; clear Hstep. simpl. done.
  - (* WSuppress *)
    inversion Hstep; subst; clear Hstep.
    destruct (decide (w_e w = ECANCELED)) as [Ee | Ee]; simpl; split; try done.
    + destruct (decide (w_tmp w = 0)) as [E0 | E0].
      * rewrite E0. reflexivity.
      * rewrite Hpc in Ee. rewrite Ee. by rewrite decide_True.
    + destruct (decide (w_tmp w = 0)) as [E0 | E0]; [by rewrite Hpc in Ee |].
      rewrite Hpc in Ee |- *. by rewrite decide_False.
  - (* WDone *)
    destruct (decide (w_e w = ECANCELED)) as [Ee | Ee].
    + exfalso. rewrite Hpc in Ee.
      destruct (decide (w_tmp w = ECANCELED)); [discriminate | done].
    + inversion Hstep; subst; clear Hstep. simpl. done.
Qed.

Lemma signaled_cancel_path_run t env w w' :
  signaled_cancel_path w ->
  wrun_env t env w = Some w' ->
  signaled_cancel_path w'.
Proof.
  revert w. induction env as [| [x m] env IH]; simpl; intros w Hw Hrun.
  - by inversion Hrun; subst.
  - destruct (pthread_cond_timedwait t x m w) as [[m1 w1] |] eqn:Hstep; [| done].
    eapply IH; [| exact Hrun]. by eapply signaled_cancel_path_step.
Qed.

(** From the reacquisition of the mutex, a call that was signaled
    returns after five steps of its own, whatever the other threads do. *)
Lemma signaled_tail_returns t env w :
  w_pc w = WMutexLock ->
  w_oldstate w ≠ WAITING ->
  length env = 5%nat ->
  ∃ w' r, wrun_env t env w = Some w' ∧ w_pc w' = WRet r ∧
          r = match env with
              | (x, _) :: _ =>
                  if decide (x_ret x = 0) then
                    (if decide (w_e w = ECANCELED) then 0 else w_e w)
                  else if decide (x_ret x = ECANCELED) then 0 else x_ret x
              | [] => 0
              end.
Proof.
  intros Hpc Hold Hlen.
  destruct env as [| [x1 m1] [| [x2 m2] [| [x3 m3] [| [x4 m4] [| [x5 m5] [| ? ?]]]]]];
    try discriminate.
  simpl. unfold pthread_cond_timedwait at 1. rewrite Hpc.
  rewrite (decide_False (P := w_oldstate w = WAITING)) by done.
  destruct (decide (x_ret x1 = 0)) as [E0 | E0]; simpl.
  - destruct (decide (w_e w = ECANCELED)) as [Ee | Ee]; simpl;
      unfold pthread_cond_timedwait; simpl;
      repeat (case_decide; try (exfalso; simpl in *; congruence); simpl);
      eexists _, _; (split; [reflexivity |]); split; reflexivity.
  - destruct (decide (x_ret x1 = ECANCELED)) as [Ee | Ee]; simpl;
      unfold pthread_cond_timedwait; simpl;
      repeat (case_decide; try (exfalso; simpl in *; congruence); simpl);
      eexists _, _; (split; [reflexivity |]); split; reflexivity.
Qed.

(** From the reacquisition of the mutex, a call that timed out is done
    after two steps of its own: it returns [e], unless [e] is
    [ECANCELED] and [__pthread_testcancel] unwinds the thread. *)
Lemma timeout_tail_returns t x1 m1 x2 m2 w :
  w_pc w = WMutexLock ->
  w_oldstate w = WAITING ->
  let e := if decide (x_ret x1 = 0) then w_e w else x_ret x1 in
  ∃ w', wrun_env t [(x1, m1); (x2, m2)] w = Some w' ∧
        w_pc w' = if decide (e = ECANCELED)
                  then (if x_unwind x2 then WUnwound else WRet e)
                  else WRet e.
Proof.
  intros Hpc Hold e. subst e. simpl.
  unfold pthread_cond_timedwait at 1. rewrite Hpc.
  rewrite (decide_True (P := w_oldstate w = WAITING)) by done.
  unfold pthread_cond_timedwait; simpl.
  destruct (decide (x_ret x1 = 0)) as [E0 | E0]; simpl;
    repeat (case_decide; try (exfalso; simpl in *; congruence); simpl);
    try destruct (x_unwind x2); eexists; split; reflexivity.
Qed.

(** A memory in which the node of every call has been signaled and
    its barrier released. *)
Definition released_mem : shared :=
  {| _c_lock := 0; _c_head := None; _c_tail := None; _c_clock := 0;
     _m_type := 0; _m_lock := 0; _m_waiters := 0;
     nodes := fun _ => Waiter None None SIGNALED 0 None;
     refs := fun _ => 0; trace := [] |}.

(** A call that leaves the blocking step with the value [e]. *)
Definition after_wait (e : Z) : wlocal :=
  {| w_pc := WCas; w_ts := None; w_tid := 7; w_cancel := PTHREAD_CANCEL_MASKED;
     w_e := e; w_seq := 2; w_clock := 0; w_cs := PTHREAD_CANCEL_ENABLE;
     w_oldstate := WAITING; w_tmp := 0 |}.

(** A call about to reacquire the mutex. *)
Definition before_reacquire (e : Z) (old : wstate) : wlocal :=
  {| w_pc := WMutexLock; w_ts := None; w_tid := 7;
     w_cancel := PTHREAD_CANCEL_MASKED;
     w_e := e; w_seq := 2; w_clock := 0; w_cs := PTHREAD_CANCEL_ENABLE;
     w_oldstate := old; w_tmp := 0 |}.


(** C6, as the code has it: when the blocking step ends with [e] equal
    to [ECANCELED] and the compare-and-exchange of line 111 finds the node
    no longer WAITING, then, whatever the other threads do, the call is
    never unwound, and a value it returns is the result [tmp] of
    [pthread_mutex_lock], with [ECANCELED] replaced by 0: it is 0 when the
    mutex was reacquired and never [ECANCELED].  Once the call is at the
    reacquisition of the mutex it returns within five steps of its own. *)
Theorem timedwait_signaled_cancel_suppressed (t : addr) (x0 : ext) (m0 : shared)
    (w : wlocal) :
  w_pc w = WCas ->
  w_e w = ECANCELED ->
  state (nodes m0 t) ≠ WAITING ->
  ∀ env w', wrun_env t ((x0, m0) :: env) w = Some w' ->
    w_pc w' ≠ WUnwound ∧
    (∀ r, w_pc w' = WRet r ->
          r ≠ ECANCELED ∧ (w_tmp w' = 0 -> r = 0) ∧
          r = if decide (w_tmp w' = ECANCELED) then 0 else w_tmp w') ∧
    (w_pc w' = WMutexLock ->
     ∀ env', length env' = 5%nat ->
       ∃ w'' r, wrun_env t env' w' = Some w'' ∧ w_pc w'' = WRet r).
Proof.
  intros Hpc He Hst env w' Hrun.
  simpl in Hrun. unfold pthread_cond_timedwait at 1 in Hrun.
  rewrite Hpc in Hrun. simpl in Hrun.
  rewrite (decide_False (P := state (nodes m0 t) = WAITING)) in Hrun by done.
  apply signaled_cancel_path_run in Hrun.
  2: { split; simpl; done. }
  destruct Hrun as [Hold Hrun].
  split; [| split].
  - intros E. by rewrite E in Hrun.
  - intros r E. rewrite E in Hrun. subst r.
    destruct (decide (w_tmp w' = ECANCELED)) as [Et | Et].
    + split; [done |]. split; [| done]. intros E0. by rewrite E0 in Et.
    + split; [done |]. split; done.
  - intros E env' Hlen.
    destruct (signaled_tail_returns t env' w' E Hold Hlen) as (w'' & r & H1 & H2 & _).
    by exists w'', r.
Qed.

(** A run of a signaled call with a pending cancellation, and where it ends. *)
Definition cancel_run : list (ext * shared) :=
  [(example_ext, released_mem); (example_ext, released_mem);
   (example_ext, released_mem); (example_ext, released_mem);
   (example_ext, released_mem); (example_ext, released_mem)].

Definition cancel_run_end : wlocal :=
  {| w_pc := WRet 0; w_ts := None; w_tid := 7; w_cancel := PTHREAD_CANCEL_ENABLE;
     w_e := 0; w_seq := 2; w_clock := 0; w_cs := PTHREAD_CANCEL_ENABLE;
     w_oldstate := SIGNALED; w_tmp := 0 |}.

Lemma timedwait_signaled_cancel_suppressed_witness :
  w_pc cancel_run_end ≠ WUnwound ∧
  (∀ r, w_pc cancel_run_end = WRet r ->
        r ≠ ECANCELED ∧ (w_tmp cancel_run_end = 0 -> r = 0) ∧
        r = if decide (w_tmp cancel_run_end = ECANCELED) then 0
            else w_tmp cancel_run_end) ∧
  (w_pc cancel_run_end = WMutexLock ->
   ∀ env', length env' = 5%nat ->
     ∃ w'' r, wrun_env 0%nat env' cancel_run_end = Some w'' ∧ w_pc w'' = WRet r).
Proof.
  apply (timedwait_signaled_cancel_suppressed 0%nat example_ext released_mem
           (after_wait ECANCELED)) with (env := cancel_run).
  - reflexivity.
  - reflexivity.
  - simpl. discriminate.
  - reflexivity.
Defined.

(** C6 fails as stated: the call below was signaled while a cancellation
    was pending, and reacquiring the mutex fails with 130; the call
    returns 130, not 0. *)
Lemma timedwait_signaled_cancel_counterexample :
  w_e (after_wait ECANCELED) = ECANCELED ∧
  state (nodes released_mem 0%nat) = SIGNALED ∧
  w_pc <$> wrun_env 0%nat
             [(example_ext, released_mem); (example_ext, released_mem);
              (Ext 130 0 false, released_mem); (example_ext, released_mem);
              (example_ext, released_mem); (example_ext, released_mem);
              (example_ext, released_mem)]
             (after_wait ECANCELED)
  = Some (WRet 130).
Proof. repeat split. Qed.

(** Modelled from the spec: [pthread_mutex_lock] is missing.  The spec
    keeps the error of reacquiring the mutex apart from the cancellation
    outcome, and taking a mutex is no cancellation point: a failure of
    [pthread_mutex_lock] is a nonzero value other than [ECANCELED], a
    value that enters [e] at line 108 only. *)
Definition mutex_error (r : Z) : Prop := r ≠ 0 ∧ r ≠ ECANCELED.

(** C7: when [pthread_mutex_lock] fails, the call returns the error of
    the mutex, whatever [e] held before (0, a timeout, [ECANCELED]),
    whatever the other threads do, and on either path: after one more
    step of its own when it timed out, after four more when it was
    signaled. *)
Theorem timedwait_mutex_error_returned (t : addr) (x : ext) (m : shared)
    (env : list (ext * shared)) (w : wlocal) :
  w_pc w = WMutexLock ->
  mutex_error (x_ret x) ->
  length env = (if decide (w_oldstate w = WAITING) then 1 else 4)%nat ->
  ∃ w', wrun_env t ((x, m) :: env) w = Some w' ∧ w_pc w' = WRet (x_ret x).
Proof.
  intros Hpc [H0 Hc] Hlen.
  destruct (decide (w_oldstate w = WAITING)) as [Hold | Hold].
  - destruct env as [| [x2 m2] [| ? ?]]; try discriminate.
    destruct (timeout_tail_returns t x m x2 m2 w Hpc Hold) as (w' & Hrun & Hret).
    exists w'. split; [exact Hrun |].
    rewrite Hret. rewrite (decide_False (P := x_ret x = 0)) by done.
    by rewrite decide_False.
  - destruct (signaled_tail_returns t ((x, m) :: env) w Hpc Hold) as (w' & r & Hrun & Hret & Hr).
    { simpl. by rewrite Hlen. }
    exists w'. split; [exact Hrun |].
    rewrite Hret, Hr. rewrite (decide_False (P := x_ret x = 0)) by done.
    by rewrite decide_False.
Qed.

Lemma timedwait_mutex_error_returned_witness :
  (∃ w', wrun_env 0%nat ((Ext 130 0 false, released_mem) :: [(example_ext, released_mem)])
           (before_reacquire ETIMEDOUT WAITING) = Some w' ∧
         w_pc w' = WRet 130) ∧
  (∃ w', wrun_env 0%nat
           ((Ext 130 0 false, released_mem) ::
            [(example_ext, released_mem); (example_ext, released_mem);
             (example_ext, released_mem); (example_ext, released_mem)])
           (before_reacquire ECANCELED SIGNALED) = Some w' ∧
         w_pc w' = WRet 130).
Proof.
  split.
  - apply (timedwait_mutex_error_returned 0%nat (Ext 130 0 false) released_mem
             [(example_ext, released_mem)] (before_reacquire ETIMEDOUT WAITING)).
    + reflexivity.
    + split; simpl; discriminate.
    + reflexivity.
  - apply (timedwait_mutex_error_returned 0%nat (Ext 130 0 false) released_mem
             [(example_ext, released_mem); (example_ext, released_mem);
              (example_ext, released_mem); (example_ext, released_mem)]
             (before_reacquire ECANCELED SIGNALED)).
    + reflexivity.
    + split; simpl; discriminate.
    + reflexivity.
Defined.

(** ** Effects of single steps *)

(** Case analysis of a step of [pthread_cond_timedwait] by program point. *)
Ltac wstep_cases H :=
  unfold pthread_cond_timedwait in H;
  repeat match type of H with
    | context [match w_pc ?w with _ => _ end] => destruct (w_pc w) eqn:?
    | context [lock ?l ?ph ?c] => destruct (lock l ph c) as [[? ?] ?] eqn:?
    | context [unlock ?l ?c] => destruct (unlock l c) as [? ?] eqn:?
    | context [enqueue ?t ?m] => destruct (enqueue t m) eqn:?
    | context [x_unwind ?x] => destruct (x_unwind x) eqn:?
    | context [not_owner ?m ?t] => destruct (not_owner m t) eqn:?
    | context [bad_nsec ?t] => destruct (bad_nsec t) eqn:?
    | context [decide ?P] => destruct (decide P)
    end;
  simpl in H; simplify_eq.

Lemma chain_begin_waiters t m :
  _m_waiters (chain_begin t m) =
    match next (nodes m t) with
    | None => a_inc (_m_waiters m)
    | Some _ => _m_waiters m
    end.
Proof. unfold chain_begin. by destruct (next (nodes m t)). Qed.

Lemma chain_begin_frame t m :
  nodes (chain_begin t m) = nodes m ∧ trace (chain_begin t m) = trace m ∧
  refs (chain_begin t m) = refs m ∧ _c_lock (chain_begin t m) = _c_lock m ∧
  _c_head (chain_begin t m) = _c_head m ∧ _c_tail (chain_begin t m) = _c_tail m.
Proof. unfold chain_begin. by destruct (next (nodes m t)). Qed.

Lemma lock_events l ph cell cell' nxt evs :
  lock l ph cell = (cell', nxt, evs) -> evs = [] ∨ evs = [EvFutexWait l 2].
Proof.
  unfold lock, a_cas. destruct ph; intros H; simplify_eq; auto.
Qed.

Lemma unlock_events l cell cell' evs :
  unlock l cell = (cell', evs) -> cell' = 0 ∧ (evs = [] ∨ evs = [EvFutexWake l 1]).
Proof.
  unfold unlock, a_swap. intros H. case_decide; simplify_eq; auto.
Qed.

Lemma unlink_frame t m :
  _c_lock (unlink t m) = _c_lock m ∧ _m_type (unlink t m) = _m_type m ∧
  _m_lock (unlink t m) = _m_lock m ∧ _m_waiters (unlink t m) = _m_waiters m ∧
  refs (unlink t m) = refs m ∧ trace (unlink t m) = trace m ∧
  (∀ a, state (nodes (unlink t m) a) = state (nodes m a) ∧
        barrier (nodes (unlink t m) a) = barrier (nodes m a) ∧
        notify (nodes (unlink t m) a) = notify (nodes m a)).
Proof.
  unfold unlink.
  repeat match goal with
         | |- context [decide ?P] => destruct (decide P)
         | |- context [match ?o with Some _ => _ | None => _ end] => destruct o eqn:?
         end; simpl; repeat split; try reflexivity;
    repeat match goal with
      | |- context [(<[?a := _]> _) ?b] =>
          destruct (decide (a = b)) as [-> |];
          [rewrite fn_lookup_insert | rewrite fn_lookup_insert_ne by done]; simpl
      end; reflexivity.
Qed.

(** C5: every step of [pthread_cond_timedwait] but those of lines 186-187
    and 191-194 leaves [_m_waiters] as it is, and those two steps are taken
    once each, one after the other, by a call that lost the race for its
    node (the SIGNALED path) and by no other.  The first increments the
    counter iff the node has no [next]; the second decrements it iff the
    node has no [prev], and otherwise stores 0 in the barrier of the
    [prev] node and requeues one thread from that barrier to the lock word
    of the mutex, waking none. *)
Theorem timedwait_signaled_chain (t : addr) (x : ext) (m m' : shared) (w w' : wlocal) :
  pthread_cond_timedwait t x m w = Some (m', w') ->
  (w_pc w ≠ WInc -> w_pc w ≠ WRelease -> _m_waiters m' = _m_waiters m) ∧
  (w_pc w = WMutexLock ->
   w_pc w' = if decide (w_oldstate w = WAITING) then WDone else WInc) ∧
  (w_pc w' = WInc -> w_pc w = WMutexLock ∧ w_oldstate w ≠ WAITING) ∧
  (w_pc w' = WRelease -> w_pc w = WInc) ∧
  (w_pc w = WInc ->
   w_pc w' = WRelease ∧ nodes m' = nodes m ∧ trace m' = trace m ∧
   _m_waiters m' = match next (nodes m t) with
                   | None => a_inc (_m_waiters m)
                   | Some _ => _m_waiters m
                   end) ∧
  (w_pc w = WRelease ->
   w_pc w' = WSuppress ∧
   match prev (nodes m t) with
   | Some b =>
       _m_waiters m' = _m_waiters m ∧
       trace m' = EvFutexRequeue (Barrier b) 0 0 MLock 1 :: trace m ∧
       barrier (nodes m' b) = 0 ∧
       (∀ a, a ≠ b -> nodes m' a = nodes m a)
   | None =>
       _m_waiters m' = a_dec (_m_waiters m) ∧
       trace m' = trace m ∧ nodes m' = nodes m
   end).
Proof.
  intros Hstep.
  split; [| split; [| split; [| split; [| split]]]].
  - intros H1 H2. wstep_cases Hstep; try done.
    + unfold enqueue in *.
      repeat match goal with
             | H : context [match ?o with Some _ => _ | None => _ end] |- _ =>
                 destruct o eqn:?; simpl in H; simplify_eq
             end; reflexivity.
    + apply unlink_frame.
    + unfold notify_signaler. destruct (notify (nodes m t)); [| done].
      unfold a_fetch_add. by case_decide.
  - intros Hpc. unfold pthread_cond_timedwait in Hstep. rewrite Hpc in Hstep.
    simplify_eq. simpl. reflexivity.
  - intros Hpc. wstep_cases Hstep; simpl in Hpc; try discriminate; try done;
      try congruence; try (repeat case_decide; discriminate);
      repeat match goal with
             | H : context [match ?o with Some _ => _ | None => _ end] |- _ =>
                 destruct o eqn:?; simpl in H; simplify_eq
             end.
  - intros Hpc. wstep_cases Hstep; simpl in Hpc; try discriminate; try done;
      try congruence; try (repeat case_decide; discriminate);
      repeat match goal with
             | H : context [match ?o with Some _ => _ | None => _ end] |- _ =>
                 destruct o eqn:?; simpl in H; simplify_eq
             end.
  - intros Hpc. unfold pthread_cond_timedwait in Hstep. rewrite Hpc in Hstep.
    simplify_eq. simpl. split; [done |].
    destruct (chain_begin_frame t m) as (-> & -> & _).
    split; [done |]. split; [done |]. apply chain_begin_waiters.
  - intros Hpc. unfold pthread_cond_timedwait in Hstep. rewrite Hpc in Hstep.
    simplify_eq. simpl. split; [done |].
    unfold chain_next, unlock_requeue, a_store.
    destruct (prev (nodes m t)) as [b |]; simpl.
    + split; [done |]. split; [done |]. split.
      * by rewrite fn_lookup_insert.
      * intros a Ha. by rewrite fn_lookup_insert_ne.
    + done.
Qed.

(** A detached chain of two signaled nodes: 1 is next to be released
    after 0. *)
Definition chain_mem : shared :=
  {| _c_lock := 0; _c_head := None; _c_tail := None; _c_clock := 0;
     _m_type := 0; _m_lock := 0; _m_waiters := 1;
     nodes := fun a => if decide (a = 0%nat)
                       then Waiter (Some 1%nat) None SIGNALED 0 None
                       else Waiter None (Some 0%nat) SIGNALED 2 None;
     refs := fun _ => 0; trace := [] |}.

Definition at_release : wlocal :=
  {| w_pc := WRelease; w_ts := None; w_tid := 7; w_cancel := PTHREAD_CANCEL_MASKED;
     w_e := 0; w_seq := 2; w_clock := 0; w_cs := PTHREAD_CANCEL_ENABLE;
     w_oldstate := SIGNALED; w_tmp := 0 |}.

Lemma timedwait_signaled_chain_witness :
  let m := chain_mem in
  let w := at_release in
  let m' := chain_next 0%nat chain_mem in
  let w' := goto WSuppress at_release in
  (w_pc w ≠ WInc -> w_pc w ≠ WRelease -> _m_waiters m' = _m_waiters m) ∧
  (w_pc w = WMutexLock ->
   w_pc w' = if decide (w_oldstate w = WAITING) then WDone else WInc) ∧
  (w_pc w' = WInc -> w_pc w = WMutexLock ∧ w_oldstate w ≠ WAITING) ∧
  (w_pc w' = WRelease -> w_pc w = WInc) ∧
  (w_pc w = WInc ->
   w_pc w' = WRelease ∧ nodes m' = nodes m ∧ trace m' = trace m ∧
   _m_waiters m' = match next (nodes m 0%nat) with
                   | None => a_inc (_m_waiters m)
                   | Some _ => _m_waiters m
                   end) ∧
  (w_pc w = WRelease ->
   w_pc w' = WSuppress ∧
   match prev (nodes m 0%nat) with
   | Some b =>
       _m_waiters m' = _m_waiters m ∧
       trace m' = EvFutexRequeue (Barrier b) 0 0 MLock 1 :: trace m ∧
       barrier (nodes m' b) = 0 ∧
       (∀ a, a ≠ b -> nodes m' a = nodes m a)
   | None =>
       _m_waiters m' = a_dec (_m_waiters m) ∧
       trace m' = trace m ∧ nodes m' = nodes m
   end).
Proof.
  apply (timedwait_signaled_chain 0%nat example_ext chain_mem
           (chain_next 0%nat chain_mem) at_release (goto WSuppress at_release)).
  reflexivity.
Defined.

(** ** The timeout path *)

(** Where a call is once it has won the race for its own node. *)
Definition timeout_path (w : wlocal) : Prop :=
  w_oldstate w = WAITING ∧
  match w_pc w with
  | WLock2 _ | WUnlink | WUnlock2 | WNotify | WMutexLock | WDone
  | WRet _ | WUnwound => True
  | _ => False
  end.

(** Events that release no waiter: no requeue, and no wake but that of
    the lock of the condition variable or of the counter [s]. *)
Definition releases_nobody (s : option addr) (ev : event) : Prop :=
  match ev with
  | EvFutexRequeue _ _ _ _ _ => False
  | EvFutexWake (Barrier _) _ => False
  | EvFutexWake MLock _ => False
  | EvFutexWake (Ref r) _ => s = Some r
  | _ => True
  end.

Lemma notify_signaler_frame t m :
  _c_lock (notify_signaler t m) = _c_lock m ∧
  _c_head (notify_signaler t m) = _c_head m ∧
  _c_tail (notify_signaler t m) = _c_tail m ∧
  _m_lock (notify_signaler t m) = _m_lock m ∧
  _m_waiters (notify_signaler t m) = _m_waiters m ∧
  nodes (notify_signaler t m) = nodes m ∧
  (∀ s, refs (notify_signaler t m) s =
          if decide (notify (nodes m t) = Some s)
          then int_wrap (refs m s - 1) else refs m s) ∧
  ∃ evs, trace (notify_signaler t m) = evs ++ trace m ∧
         Forall (releases_nobody (notify (nodes m t))) evs ∧
         (∀ s, EvFutexWake (Ref s) 1 ∈ evs ↔
               notify (nodes m t) = Some s ∧ refs m s = 1).
Proof.
  unfold notify_signaler, a_fetch_add.
  destruct (notify (nodes m t)) as [s |]; simpl.
  - repeat split; try reflexivity.
    + intros s'. destruct (decide (Some s = Some s')) as [E | E].
      * simplify_eq. by rewrite fn_lookup_insert.
      * rewrite fn_lookup_insert_ne; [done | congruence].
    + destruct (decide (refs m s = 1)) as [E | E].
      * exists [EvFutexWake (Ref s) 1]. split; [done |]. split.
        { repeat constructor. }
        intros s'. rewrite list_elem_of_singleton. split.
        { intros ?; simplify_eq. done. }
        { intros [? ?]; simplify_eq. done. }
      * exists []. split; [done |]. split; [constructor |].
        intros s'. split.
        { intros H. by apply elem_of_nil in H. }
        { intros [? ?]; simplify_eq. }
  - repeat split; try reflexivity.
    exists []. split; [done |]. split; [constructor |].
    intros s'. split.
    { intros H. by apply elem_of_nil in H. }
    { intros [? ?]; simplify_eq. }
Qed.



Definition timeout_mem : shared :=
  {| _c_lock := 0; _c_head := None; _c_tail := None; _c_clock := 0;
     _m_type := 0; _m_lock := 0; _m_waiters := 0;
     nodes := fun _ => Waiter None None LEAVING 2 (Some 1%nat);
     refs := fun _ => 1; trace := [] |}.

Definition at_notify : wlocal :=
  {| w_pc := WNotify; w_ts := None; w_tid := 7; w_cancel := PTHREAD_CANCEL_MASKED;
     w_e := ETIMEDOUT; w_seq := 2; w_clock := 0; w_cs := PTHREAD_CANCEL_ENABLE;
     w_oldstate := WAITING; w_tmp := 0 |}.

(** ** The waiter list *)

(** [chain nd pv l nx]: the nodes of [l] are linked into a doubly linked
    segment, [l] listing it from the head end ([next] leads to the right,
    [prev] to the left); [pv] is the [prev] of the first node and [nx]
    the [next] of the last one. *)
Fixpoint chain (nd : addr -> waiter) (pv : option addr) (l : list addr)
    (nx : option addr) : Prop :=
  match l with
  | [] => True
  | a :: l' =>
      prev (nd a) = pv ∧
      next (nd a) = match l' with [] => nx | b :: _ => Some b end ∧
      chain nd (Some a) l' nx
  end.

(** The list of a condition variable is well formed when it is the
    segment [l] without repetition, from [_c_head] to [_c_tail]. *)
Definition wf_list (m : shared) (l : list addr) : Prop :=
  NoDup l ∧ chain (nodes m) None l None ∧
  _c_head m = head l ∧ _c_tail m = last l.

(** Walking from [p] along [next], at most [fuel] nodes. *)
Fixpoint walk (fuel : nat) (nd : addr -> waiter) (p : option addr)
  : option (list addr) :=
  match p with
  | None => Some []
  | Some a =>
      match fuel with
      | O => None
      | S fuel' => cons a <$> walk fuel' nd (next (nd a))
      end
  end.

(** The list as the operations on it define it, from the trace (newest
    event first): an insertion pushes at the head, a removal takes the node
    out, a split before [p] keeps the part from the head to [p]. *)
Fixpoint keep_through (p : addr) (l : list addr) : list addr :=
  match l with
  | [] => []
  | b :: l' => if decide (b = p) then [b] else b :: keep_through p l'
  end.

Fixpoint drop_through (p : addr) (l : list addr) : list addr :=
  match l with
  | [] => []
  | b :: l' => if decide (b = p) then l' else drop_through p l'
  end.

Fixpoint attached (tr : list event) : list addr :=
  match tr with
  | [] => []
  | EvInsert t :: tr' => t :: attached tr'
  | EvUnlink t :: tr' => filter (fun a => a ≠ t) (attached tr')
  | EvSplit _ (Some p) :: tr' => keep_through p (attached tr')
  | EvSplit _ None :: tr' => []
  | _ :: tr' => attached tr'
  end.

(** The nodes a signaler has visited, and those among them it found
    not WAITING, newest first. *)
Fixpoint visited (s : addr) (tr : list event) : list addr :=
  match tr with
  | [] => []
  | EvSignalCas s' p _ :: tr' =>
      if decide (s' = s) then p :: visited s tr' else visited s tr'
  | _ :: tr' => visited s tr'
  end.

Fixpoint leaving (s : addr) (tr : list event) : list addr :=
  match tr with
  | [] => []
  | EvSignalCas s' p old :: tr' =>
      if decide (s' = s ∧ old ≠ WAITING) then p :: leaving s tr' else leaving s tr'
  | _ :: tr' => leaving s tr'
  end.


Lemma chain_ext nd nd' pv l nx :
  (∀ a, a ∈ l -> prev (nd' a) = prev (nd a) ∧ next (nd' a) = next (nd a)) ->
  chain nd pv l nx -> chain nd' pv l nx.
Proof.
  revert pv. induction l as [| a l IH]; simpl; intros pv Hag Hc; [done |].
  destruct Hc as (Hp & Hn & Hc).
  destruct (Hag a) as [-> ->]; [left |].
  split; [done |]. split; [done |].
  apply IH; [| done]. intros b Hb. apply Hag. by right.
Qed.

Lemma chain_app nd pv l1 l2 nx :
  chain nd pv (l1 ++ l2) nx ↔
  chain nd pv l1 (match l2 with [] => nx | b :: _ => Some b end) ∧
  chain nd (match last l1 with Some a => Some a | None => pv end) l2 nx.
Proof.
  revert pv. induction l1 as [| a l1 IH]; simpl; intros pv.
  - tauto.
  - rewrite IH. clear IH.
    assert (Hlast : match last (a :: l1) with Some a0 => Some a0 | None => pv end
                    = match last l1 with Some a0 => Some a0 | None => Some a end).
    { destruct l1 as [| b l1]; [done |]. rewrite last_cons_cons.
      destruct (last (b :: l1)) eqn:E; [done |].
      by apply last_None in E. }
    rewrite Hlast.
    destruct l1 as [| b l1]; simpl; tauto.
Qed.

Lemma chain_prev_first nd pv a l nx pv' :
  a ∉ l ->
  chain nd pv (a :: l) nx ->
  chain (<[a := with_prev pv' (nd a)]> nd) pv' (a :: l) nx.
Proof.
  simpl. intros Hni (Hp & Hn & Hc).
  rewrite fn_lookup_insert. simpl. split; [done |]. split; [done |].
  eapply chain_ext; [| exact Hc].
  intros b Hb. rewrite fn_lookup_insert_ne; [done |]. intros ->. done.
Qed.

Lemma chain_next_last nd pv l a nx nx' :
  a ∉ l ->
  chain nd pv (l ++ [a]) nx ->
  chain (<[a := with_next nx' (nd a)]> nd) pv (l ++ [a]) nx'.
Proof.
  intros Hni. rewrite !chain_app. simpl. intros (H1 & H2 & H3 & _).
  split.
  - eapply chain_ext; [| exact H1].
    intros b Hb. rewrite fn_lookup_insert_ne; [done |]. intros ->. done.
  - rewrite fn_lookup_insert. simpl. done.
Qed.

Lemma walk_chain nd l pv :
  chain nd pv l None ->
  ∀ fuel, (length l <= fuel)%nat -> walk fuel nd (head l) = Some l.
Proof.
  revert pv. induction l as [| a l IH]; simpl; intros pv Hc fuel Hf.
  { by destruct fuel. }
  destruct Hc as (_ & Hn & Hc).
  destruct fuel as [| fuel]; [lia |]. simpl. rewrite Hn.
  replace (match l with [] => None | b :: _ => Some b end) with (head l)
    by (by destruct l).
  rewrite (IH (Some a)); [done | done | lia].
Qed.

Lemma chain_mid nd pv l1 a l2 nx :
  chain nd pv (l1 ++ a :: l2) nx ->
  prev (nd a) = match last l1 with Some b => Some b | None => pv end ∧
  next (nd a) = match l2 with [] => nx | b :: _ => Some b end.
Proof. rewrite chain_app. simpl. tauto. Qed.

Lemma head_app_cons {A} (l1 : list A) a l2 :
  head (l1 ++ a :: l2) = Some (match l1 with [] => a | b :: _ => b end).
Proof. by destruct l1. Qed.

Lemma last_app_cons {A} (l1 : list A) a l2 :
  last (l1 ++ a :: l2) = Some (match last l2 with Some b => b | None => a end).
Proof.
  rewrite last_app. destruct l2 as [| b l2]; [done |].
  rewrite last_cons_cons. destruct (last (b :: l2)) eqn:E; [done |].
  by apply last_None in E.
Qed.

Lemma head_is_first {A} (l1 : list A) a l2 :
  NoDup (l1 ++ a :: l2) -> head (l1 ++ a :: l2) = Some a -> l1 = [].
Proof.
  destruct l1 as [| b l1]; [done |]. simpl. intros Hnd ?; simplify_eq.
  apply NoDup_cons in Hnd as [Hni _]. exfalso. apply Hni.
  apply elem_of_app. right. left.
Qed.

Lemma last_is_last {A} (l1 : list A) a l2 :
  NoDup (l1 ++ a :: l2) -> last (l1 ++ a :: l2) = Some a -> l2 = [].
Proof.
  intros Hnd. rewrite last_app_cons.
  destruct l2 as [| b l2] using rev_ind; [done |].
  rewrite last_snoc. intros ?; simplify_eq.
  apply NoDup_app in Hnd as (_ & _ & Hnd).
  apply NoDup_cons in Hnd as [Hni _]. exfalso. apply Hni.
  apply elem_of_app. right. left.
Qed.

(** The links of a node as a record update leaves them. *)
Lemma with_next_same w : with_next (next w) w = w.
Proof. by destruct w. Qed.

Lemma with_prev_same w : with_prev (prev w) w = w.
Proof. by destruct w. Qed.

(** Case analysis on every lookup in an updated node map. *)
Ltac fn_cases :=
  repeat match goal with
    | |- context [(<[?x := _]> _) ?y] =>
        destruct (decide (x = y)) as [-> | ?];
        [rewrite !fn_lookup_insert | rewrite !fn_lookup_insert_ne by done];
        simpl in *
    end.

Ltac opt_cases :=
  repeat (match goal with
          | |- context [decide ?P] => destruct (decide P)
          | |- context [match ?o with Some _ => _ | None => _ end] =>
              destruct o eqn:?
          end; simpl in *).

(** The splice reads the links of its own node twice; the second reading
    finds what the first one found. *)
Lemma unlink_reads t m :
  unlink t m =
    let pv := prev (nodes m t) in
    let nx := next (nodes m t) in
    let m1 :=
      if decide (_c_head m = Some t) then set_c_head nx m
      else match pv with
           | Some b => upd_node b (with_next nx) m
           | None => m
           end in
    if decide (_c_tail m1 = Some t) then set_c_tail pv m1
    else match nx with
         | Some b => upd_node b (with_prev pv) m1
         | None => m1
         end.
Proof.
  unfold unlink. simpl.
  destruct (decide (_c_head m = Some t)); simpl; [done |].
  destruct (prev (nodes m t)) as [b |] eqn:Ep; simpl; [| by rewrite Ep].
  destruct (decide (b = t)) as [-> | Hb].
  - rewrite fn_lookup_insert. simpl. by rewrite Ep.
  - rewrite fn_lookup_insert_ne by done. by rewrite Ep.
Qed.

(** Only the neighbours of the node of [t] are written by the splice. *)
Lemma unlink_other t m a :
  prev (nodes m t) ≠ Some a -> next (nodes m t) ≠ Some a ->
  nodes (unlink t m) a = nodes m a.
Proof.
  intros Hp Hn. rewrite unlink_reads. simpl.
  opt_cases; fn_cases; congruence.
Qed.

(** Every link the splice leaves is an old link of the same node or an
    old link of the node taken out. *)
Lemma unlink_links t m a b :
  prev (nodes (unlink t m) a) = Some b ∨ next (nodes (unlink t m) a) = Some b ->
  (prev (nodes m a) = Some b ∨ next (nodes m a) = Some b) ∨
  (prev (nodes m t) = Some b ∨ next (nodes m t) = Some b).
Proof.
  rewrite unlink_reads. simpl.
  opt_cases; fn_cases; intuition congruence.
Qed.

Definition or_else (o d : option addr) : option addr :=
  match o with Some a => Some a | None => d end.

Lemma chain_app' nd pv l1 l2 nx :
  chain nd pv (l1 ++ l2) nx ↔
  chain nd pv l1 (or_else (head l2) nx) ∧ chain nd (or_else (last l1) pv) l2 nx.
Proof.
  rewrite chain_app. unfold or_else. by destruct l2.
Qed.

Lemma chain_cons nd pv a l nx :
  chain nd pv (a :: l) nx ↔
  prev (nd a) = pv ∧ next (nd a) = or_else (head l) nx ∧ chain nd (Some a) l nx.
Proof. simpl. unfold or_else. by destruct l. Qed.

Lemma chain_snoc nd pv l a nx :
  chain nd pv (l ++ [a]) nx ↔
  chain nd pv l (Some a) ∧ prev (nd a) = or_else (last l) pv ∧ next (nd a) = nx.
Proof. rewrite chain_app'. simpl. tauto. Qed.

Lemma head_elem {A} (l : list A) a : head l = Some a -> a ∈ l.
Proof. destruct l; simpl; intros ?; simplify_eq. left. Qed.

Lemma last_elem {A} (l : list A) a : last l = Some a -> a ∈ l.
Proof.
  destruct l as [| b l _] using rev_ind; [done |].
  rewrite last_snoc. intros ?; simplify_eq. apply elem_of_app. right. left.
Qed.

(** Taking a node out of a segment, in terms of the links alone. *)
Lemma chain_remove nd nd' pv l1 t l2 nx :
  NoDup (l1 ++ t :: l2) ->
  chain nd pv (l1 ++ t :: l2) nx ->
  (∀ a, a ∈ l1 ++ l2 ->
        prev (nd' a) = (if decide (head l2 = Some a) then or_else (last l1) pv
                        else prev (nd a)) ∧
        next (nd' a) = (if decide (last l1 = Some a) then or_else (head l2) nx
                        else next (nd a))) ->
  chain nd' pv (l1 ++ l2) nx.
Proof.
  intros Hnd Hc Hpt.
  apply NoDup_app in Hnd as (Hnd1 & Hdisj & Hnd2).
  apply NoDup_cons in Hnd2 as [Ht2 Hnd2].
  assert (Ht1 : t ∉ l1). { intros Hin. apply (Hdisj t Hin). left. }
  assert (Hd : ∀ a, a ∈ l1 -> a ∉ l2).
  { intros a Ha Ha2. apply (Hdisj a Ha). by right. }
  apply chain_app' in Hc as [Hc1 Hc2]. simpl in Hc1.
  apply chain_cons in Hc2 as (Hpt' & Hnt & Hc2).
  apply chain_app'. split.
  - (* the left part, whose last node gets a new [next] *)
    destruct l1 as [| b l1 _] using rev_ind; [done |].
    apply chain_snoc in Hc1 as (Hc1 & Hpb & Hnb).
    apply NoDup_app in Hnd1 as (Hnd1 & Hdb & _).
    assert (Hb : b ∈ l1 ++ [b]) by (apply elem_of_app; right; left).
    apply chain_snoc. split; [| split].
    + eapply chain_ext; [| exact Hc1].
      intros a Ha. destruct (Hpt a) as [Hp Hn].
      { apply elem_of_app. left. apply elem_of_app. by left. }
      rewrite Hp, Hn. rewrite last_snoc.
      rewrite decide_False.
      2: { intros Hh. apply head_elem in Hh. apply (Hd a); [| done].
           apply elem_of_app. by left. }
      rewrite decide_False; [done |].
      intros ?; simplify_eq. apply (Hdb a Ha). left.
    + destruct (Hpt b) as [Hp _]; [apply elem_of_app; by left |].
      rewrite Hp. rewrite decide_False; [done |].
      intros Hh. apply head_elem in Hh. by apply (Hd b).
    + destruct (Hpt b) as [_ Hn]; [apply elem_of_app; by left |].
      rewrite Hn. rewrite last_snoc. by rewrite decide_True.
  - (* the right part, whose first node gets a new [prev] *)
    destruct l2 as [| c l2]; [done |].
    apply chain_cons in Hc2 as (Hpc & Hnc & Hc2).
    apply NoDup_cons in Hnd2 as [Hc2' Hnd2].
    assert (Hcin : c ∈ c :: l2) by left.
    apply chain_cons. split; [| split].
    + destruct (Hpt c) as [Hp _]; [apply elem_of_app; by right |].
      rewrite Hp. simpl. by rewrite decide_True.
    + destruct (Hpt c) as [_ Hn]; [apply elem_of_app; by right |].
      rewrite Hn. rewrite decide_False; [done |].
      intros Hl. apply last_elem in Hl. by apply (Hd c).
    + eapply chain_ext; [| exact Hc2].
      intros a Ha. destruct (Hpt a) as [Hp Hn].
      { apply elem_of_app. right. by right. }
      rewrite Hp, Hn. simpl.
      rewrite decide_False by (intros ?; simplify_eq; done).
      rewrite decide_False; [done |].
      intros Hl. apply last_elem in Hl. apply (Hd a); [done | by right].
Qed.

Lemma or_else_None o : or_else o None = o.
Proof. by destruct o. Qed.

Lemma chain_mid' nd pv l1 a l2 nx :
  chain nd pv (l1 ++ a :: l2) nx ->
  prev (nd a) = or_else (last l1) pv ∧ next (nd a) = or_else (head l2) nx.
Proof. rewrite chain_app'. rewrite chain_cons. tauto. Qed.

(** Lines 130-137 on a node of the list. *)
Lemma unlink_attached m t l1 l2 :
  wf_list m (l1 ++ t :: l2) -> wf_list (unlink t m) (l1 ++ l2).
Proof.
  intros (Hnd & Hc & Hh & Ht).
  destruct (chain_mid' _ _ _ _ _ _ Hc) as [Hp Hn].
  rewrite or_else_None in Hp, Hn.
  assert (Hh1 : _c_head m = Some t ↔ l1 = []).
  { rewrite Hh. split; [by apply head_is_first | by intros ->]. }
  assert (Ht1 : _c_tail m = Some t ↔ l2 = []).
  { rewrite Ht. split; [by apply last_is_last |].
    intros ->. by rewrite last_snoc. }
  assert (Hnd' : NoDup (l1 ++ l2)).
  { apply NoDup_app in Hnd as (H1 & H2 & H3).
    apply NoDup_cons in H3 as [_ H3].
    apply NoDup_app. split; [done |]. split; [| done].
    intros a Ha Ha2. apply (H2 a Ha). by right. }
  assert (Htl1 : last l1 ≠ Some t).
  { intros Hl. apply last_elem in Hl.
    apply NoDup_app in Hnd as (_ & H2 & _). apply (H2 t Hl). left. }
  assert (Htl2 : head l2 ≠ Some t).
  { intros Hl. apply head_elem in Hl.
    apply NoDup_app in Hnd as (_ & _ & H3).
    by apply NoDup_cons in H3 as [H3 _]. }
  split; [done |]. split; [| split].
  - eapply chain_remove; [exact Hnd | exact Hc |].
    intros a Ha. rewrite !or_else_None.
    rewrite unlink_reads. simpl. rewrite Hp, Hn.
    destruct (decide (_c_head m = Some t)) as [E1 | E1]; simpl.
    + apply Hh1 in E1. subst l1. simpl in *.
      destruct (decide (_c_tail m = Some t)) as [E2 | E2]; simpl.
      * apply Ht1 in E2. subst l2. by apply elem_of_nil in Ha.
      * destruct l2 as [| c l2]; [by apply elem_of_nil in Ha |].
        simpl. fn_cases.
        { rewrite decide_True by done. done. }
        { rewrite decide_False by congruence. done. }
    + destruct (last l1) as [b |] eqn:El1.
      2: { apply last_None in El1. subst l1. by destruct E1; apply Hh1. }
      simpl.
      destruct (decide (_c_tail m = Some t)) as [E2 | E2]; simpl.
      * apply Ht1 in E2. subst l2. simpl. fn_cases.
        { rewrite decide_True by done. done. }
        { rewrite decide_False by congruence. done. }
      * destruct l2 as [| c l2]; [by destruct E2; apply Ht1 |].
        simpl.
        assert (Hbc : b ≠ c).
        { intros ->. apply last_elem in El1.
          apply NoDup_app in Hnd' as (_ & H2 & _). apply (H2 c El1). left. }
        fn_cases; try congruence;
          repeat (first [rewrite decide_True by congruence
                        | rewrite decide_False by congruence]); done.
  - rewrite unlink_reads. simpl. rewrite Hp, Hn.
    destruct (decide (_c_head m = Some t)) as [E1 | E1]; simpl.
    + apply Hh1 in E1. subst l1. simpl.
      destruct (decide (_c_tail m = Some t)) as [E2 | E2]; simpl; [done |].
      by destruct (head l2).
    + assert (Hne : l1 ≠ []) by (intros E; apply E1; by apply Hh1).
      assert (Hhd : head (l1 ++ l2) = head (l1 ++ t :: l2)).
      { destruct l1; [done | done]. }
      destruct (last l1); simpl;
        destruct (decide (_c_tail m = Some t)); simpl;
        try (destruct (head l2); simpl); congruence.
  - rewrite unlink_reads. simpl. rewrite Hp, Hn.
    assert (Hcase : (l2 = [] ∧ last (l1 ++ l2) = last l1) ∨
                    (l2 ≠ [] ∧ last (l1 ++ l2) = last (l1 ++ t :: l2))).
    { destruct l2 as [| c l2]; [left | right].
      - by rewrite app_nil_r.
      - split; [done |]. rewrite !last_app. simpl.
        by destruct (last (c :: l2)) eqn:E; [| apply last_None in E]. }
    destruct Hcase as [[E2 Hl] | [E2 Hl]]; rewrite Hl.
    + rewrite (decide_True (P := _c_tail _ = Some t)).
      2: { opt_cases; simpl; by apply Ht1. }
      done.
    + rewrite (decide_False (P := _c_tail _ = Some t)).
      2: { intros E. apply E2. apply Ht1. revert E. by opt_cases. }
      rewrite <- Ht. by opt_cases.
Qed.

Ltac fn_norm :=
  repeat first [rewrite fn_lookup_insert | rewrite fn_lookup_insert_ne by done];
  simpl.

Global Arguments chain : simpl never.

(** Lines 79-89 on a node that is not in the list and has no [prev]. *)
Lemma enqueue_attached m t l :
  wf_list m l -> t ∉ l -> prev (nodes m t) = None ->
  ∃ m', enqueue t m = Some m' ∧ wf_list m' (t :: l) ∧
        _c_lock m' = _c_lock m ∧ refs m' = refs m ∧ trace m' = trace m ∧
        _m_waiters m' = _m_waiters m ∧
        state (nodes m' t) = WAITING ∧ barrier (nodes m' t) = 2 ∧
        notify (nodes m' t) = notify (nodes m t) ∧
        (∀ a, a ≠ t -> state (nodes m' a) = state (nodes m a) ∧
                       barrier (nodes m' a) = barrier (nodes m a) ∧
                       notify (nodes m' a) = notify (nodes m a)) ∧
        (∀ a, a ∉ t :: l -> nodes m' a = nodes m a).
Proof.
  intros (Hnd & Hc & Hh & Ht) Hni Hp.
  unfold enqueue. simpl. fn_norm.
  destruct l as [| b l].
  - simpl in *. rewrite Ht. eexists. split; [reflexivity |].
    unfold wf_list, upd_node. simpl. rewrite ?Hh. fn_norm.
    split.
    { split; [apply NoDup_singleton |]. split; [| done].
      apply chain_cons. fn_norm. by rewrite Hp. }
    repeat split; try done.
    all: try (intros; fn_cases; fn_norm; done).
    intros a Ha.
    assert (t ≠ a) by (intros ->; apply Ha; left).
    by fn_norm.
  - assert (Hbt : b ≠ t). { intros ->. apply Hni. left. }
    assert (Htl : _c_tail m ≠ None).
    { rewrite Ht. intros E. by apply last_None in E. }
    destruct (_c_tail m) as [tl |] eqn:Etl; [| done].
    simpl in Hh. rewrite Hh. eexists. split; [reflexivity |].
    unfold wf_list, upd_node. simpl. fn_norm.
    split.
    { split; [by apply NoDup_cons |]. split; [| split].
      - apply chain_cons. fn_norm. rewrite Hp.
        split; [done |]. split; [done |].
        apply NoDup_cons in Hnd as [Hb Hnd].
        pose proof (chain_prev_first _ _ _ _ _ (Some t) Hb Hc) as Hc'.
        eapply chain_ext; [| exact Hc'].
        intros a Ha.
        assert (a ≠ t) by (intros ->; done).
        fn_cases; fn_norm; done.
      - done.
      - congruence. }
    repeat split; try done.
    all: try (intros; fn_cases; fn_norm; done).
    intros a Ha.
    assert (t ≠ a) by (intros ->; apply Ha; left).
    assert (b ≠ a) by (intros ->; apply Ha; right; left).
    by fn_norm.
Qed.

Lemma keep_through_last (a : addr) l1 l2 :
  NoDup (l1 ++ l2) -> last l1 = Some a -> keep_through a (l1 ++ l2) = l1.
Proof.
  induction l1 as [| b l1 IH]; simpl; intros Hnd Hl; [done |].
  apply NoDup_cons in Hnd as [Hb Hnd].
  destruct l1 as [| c l1].
  - simpl in *. simplify_eq. by rewrite decide_True.
  - rewrite last_cons_cons in Hl.
    rewrite decide_False.
    2: { intros ->. apply Hb. apply elem_of_app. left. by apply last_elem. }
    f_equal. by apply IH.
Qed.

(** Lines 237-244 on a list that is split before [p]: the part from the
    head to [p] stays, the part behind [p] is a segment of its own. *)
Lemma split_attached m l1 l2 :
  wf_list m (l1 ++ l2) ->
  wf_list (split (last l1) m) l1 ∧
  chain (nodes (split (last l1) m)) None l2 None ∧
  (∀ a, state (nodes (split (last l1) m) a) = state (nodes m a) ∧
        barrier (nodes (split (last l1) m) a) = barrier (nodes m a) ∧
        notify (nodes (split (last l1) m) a) = notify (nodes m a)) ∧
  (∀ a, a ∉ l1 ++ l2 -> nodes (split (last l1) m) a = nodes m a).
Proof.
  intros (Hnd & Hc & Hh & Ht).
  destruct l1 as [| a l1 _] using rev_ind.
  - simpl in *. unfold split, wf_list. simpl.
    repeat split; try done. apply NoDup_nil_2.
  - rewrite last_snoc. unfold split. simpl.
    apply chain_app' in Hc as [Hc1 Hc2].
    apply chain_snoc in Hc1 as (Hc1 & Hpa & Hna).
    rewrite last_snoc in Hc2. simpl in Hc2.
    pose proof Hnd as Hnd0.
    apply NoDup_app in Hnd as (Hnd1 & Hdisj & Hnd2).
    apply NoDup_app in Hnd1 as (Hnd1 & Hda & _).
    assert (Hal1 : a ∉ l1). { intros Hin. apply (Hda a Hin). left. }
    assert (Hal2 : a ∉ l2).
    { apply Hdisj. apply elem_of_app. right. left. }
    rewrite Hna. unfold wf_list, upd_node.
    destruct l2 as [| b l2]; simpl.
    + split.
      { split; [by rewrite app_nil_r in Hnd0 |]. split; [| split].
        - apply chain_snoc. rewrite fn_lookup_insert. simpl.
          split; [| done].
          eapply chain_ext; [| exact Hc1].
          intros c Hcin. rewrite fn_lookup_insert_ne; [done |].
          intros ->. done.
        - rewrite Hh. by rewrite app_nil_r.
        - by rewrite last_snoc. }
      split; [done |]. split.
      * intros c. fn_cases; done.
      * intros c Hcin. rewrite fn_lookup_insert_ne; [done |].
        intros ->. apply Hcin. rewrite app_nil_r. apply elem_of_app. right. left.
    + assert (Hab : a ≠ b). { intros ->. apply Hal2. left. }
      apply chain_cons in Hc2 as (Hpb & Hnb & Hc2).
      apply NoDup_cons in Hnd2 as [Hbl2 Hnd2].
      split.
      { split.
        { apply NoDup_app. split; [done |]. split; [done | apply NoDup_singleton]. }
        split; [| split].
        - apply chain_snoc. rewrite fn_lookup_insert. simpl.
          rewrite fn_lookup_insert_ne by done.
          split; [| done].
          eapply chain_ext; [| exact Hc1].
          intros c Hcin. rewrite !fn_lookup_insert_ne; [done | |].
          + intros E. apply (Hdisj c); [apply elem_of_app; by left |].
            subst. left.
          + intros E. subst. done.
        - rewrite Hh. by destruct l1.
        - by rewrite last_snoc. }
      split.
      { apply chain_cons. rewrite fn_lookup_insert_ne by done.
        rewrite fn_lookup_insert. simpl. split; [done |]. split; [done |].
        eapply chain_ext; [| exact Hc2].
        intros c Hcin. rewrite !fn_lookup_insert_ne; [done | |].
        - intros E. subst. done.
        - intros E. subst. apply Hal2. by right. }
      split.
      * intros c. fn_cases; done.
      * intros c Hcin. rewrite !fn_lookup_insert_ne; [done | |].
        { intros E. subst. apply Hcin. apply elem_of_app. right. left. }
        { intros E. subst. apply Hcin. apply elem_of_app. left.
          apply elem_of_app. right. left. }
Qed.

(** ** The walk of [__private_cond_signal], alone *)

(** The nodes the loop of lines 221-235 visits, as the specification words
    it: along the list from the tail, every visited node that is WAITING
    counts towards [n], and the walk ends once [n] nodes have counted or
    the list is exhausted.  [T] lists the nodes from the tail. *)
Fixpoint budget (n : Z) (st : addr -> wstate) (T : list addr) : list addr :=
  match T with
  | [] => []
  | a :: T' =>
      if decide (n = 0) then []
      else a :: budget (if decide (st a = WAITING) then n - 1 else n) st T'
  end.

Definition is_waiting (nd : addr -> waiter) (a : addr) : Prop :=
  state (nd a) = WAITING.

Global Instance is_waiting_dec nd a : Decision (is_waiting nd a).
Proof. unfold is_waiting. apply _. Defined.

(** The [prev] links along a list given from the tail. *)
Fixpoint prev_path (nd : addr -> waiter) (T : list addr) (pv : option addr) : Prop :=
  match T with
  | [] => True
  | a :: T' => prev (nd a) = or_else (head T') pv ∧ prev_path nd T' pv
  end.

Lemma prev_path_app nd T1 T2 pv :
  prev_path nd (T1 ++ T2) pv ↔
  prev_path nd T1 (or_else (head T2) pv) ∧ prev_path nd T2 pv.
Proof.
  induction T1 as [| a T1 IH]; simpl; [tauto |].
  rewrite IH. destruct T1; simpl; tauto.
Qed.

Lemma chain_prev_path nd pv l nx :
  chain nd pv l nx -> prev_path nd (reverse l) pv.
Proof.
  revert pv. induction l as [| a l IH]; intros pv Hc; [done |].
  apply chain_cons in Hc as (Hp & _ & Hc).
  rewrite reverse_cons. apply prev_path_app. simpl. split; [by apply IH | done].
Qed.

Lemma budget_ext n st st' T :
  (∀ a, a ∈ T -> st a = st' a) -> budget n st T = budget n st' T.
Proof.
  revert n. induction T as [| a T IH]; simpl; intros n Hag; [done |].
  rewrite (Hag a) by left. destruct (decide (n = 0)); [done |].
  f_equal. apply IH. intros b Hb. apply Hag. by right.
Qed.

Lemma budget_prefix n st T : ∃ R, T = budget n st T ++ R.
Proof.
  revert n. induction T as [| a T IH]; simpl; intros n; [by exists [] |].
  destruct (decide (n = 0)); [by eexists |].
  destruct (IH (if decide (st a = WAITING) then n - 1 else n)) as [R HR].
  exists R. simpl. by rewrite <- HR.
Qed.

Lemma filter_ext_in {A} (P Q : A -> Prop) `{∀ x, Decision (P x)} `{∀ x, Decision (Q x)}
    (l : list A) :
  (∀ x, x ∈ l -> P x ↔ Q x) -> filter P l = filter Q l.
Proof.
  induction l as [| a l IH]; intros Hag; [done |].
  rewrite !filter_cons.
  assert (Ha : P a ↔ Q a) by (apply Hag; left).
  rewrite IH by (intros x Hx; apply Hag; by right).
  destruct (decide (P a)), (decide (Q a)); tauto.
Qed.

Lemma budget_subset n st T a : a ∈ budget n st T -> a ∈ T.
Proof.
  destruct (budget_prefix n st T) as [R HR]. intros Ha.
  rewrite HR. apply elem_of_app. by left.
Qed.

(** What the loop has done when it leaves for the split: [V] are the
    nodes it visited, oldest first. *)
Definition walk_post (s : addr) (m : shared) (l : slocal) (V : list addr)
    (m' : shared) (l' : slocal) : Prop :=
  s_pc l' = SSplit ∧
  s_n l' = s_n l - Z.of_nat (length (filter (is_waiting (nodes m)) V)) ∧
  s_first l' = or_else (s_first l) (head (filter (is_waiting (nodes m)) V)) ∧
  refs m' s =
    refs m s + Z.of_nat (length (filter (fun a => ¬ is_waiting (nodes m) a) V)) ∧
  (∀ r, r ≠ s -> refs m' r = refs m r) ∧
  (∀ a, nodes m' a =
        if decide (a ∈ V)
        then (if decide (is_waiting (nodes m) a)
              then with_state SIGNALED (nodes m a)
              else with_notify (Some s) (nodes m a))
        else nodes m a) ∧
  trace m' = map (fun a => EvSignalCas s a (state (nodes m a))) (reverse V) ++ trace m ∧
  _c_head m' = _c_head m ∧ _c_tail m' = _c_tail m ∧ _c_lock m' = _c_lock m ∧
  _m_waiters m' = _m_waiters m.

Lemma with_state_same w : with_state (state w) w = w.
Proof. by destruct w. Qed.

Lemma prev_path_ext nd nd' T pv :
  (∀ b, b ∈ T -> prev (nd' b) = prev (nd b)) ->
  prev_path nd T pv -> prev_path nd' T pv.
Proof.
  induction T as [| a T IH]; simpl; intros Hag Hpp; [done |].
  destruct Hpp as [Hp Hpp]. rewrite (Hag a) by left.
  split; [done |]. apply IH; [| done]. intros b Hb. apply Hag. by right.
Qed.

(** One visit in front of a finished walk. *)
Lemma walk_post_cons s m l a V' m1 l1 m' l' :
  a ∉ V' ->
  (∀ b, b ≠ a -> nodes m1 b = nodes m b) ->
  nodes m1 a = (if decide (is_waiting (nodes m) a)
                then with_state SIGNALED (nodes m a)
                else with_notify (Some s) (nodes m a)) ->
  refs m1 s = (if decide (is_waiting (nodes m) a) then refs m s else refs m s + 1) ->
  (∀ r, r ≠ s -> refs m1 r = refs m r) ->
  trace m1 = EvSignalCas s a (state (nodes m a)) :: trace m ->
  s_n l1 = (if decide (is_waiting (nodes m) a) then s_n l - 1 else s_n l) ->
  s_first l1 = (if decide (is_waiting (nodes m) a)
                then or_else (s_first l) (Some a) else s_first l) ->
  _c_head m1 = _c_head m -> _c_tail m1 = _c_tail m -> _c_lock m1 = _c_lock m ->
  _m_waiters m1 = _m_waiters m ->
  walk_post s m1 l1 V' m' l' -> walk_post s m l (a :: V') m' l'.
Proof.
  intros Ha Hnd Hnda Hr Hro Htr Hn Hf Hh Ht Hl Hw.
  unfold walk_post.
  intros (P1 & P2 & P3 & P4 & P5 & P6 & P7 & P8 & P9 & P10 & P11).
  assert (Hw1 : filter (is_waiting (nodes m1)) V' = filter (is_waiting (nodes m)) V').
  { apply filter_ext_in. intros b Hb. unfold is_waiting.
    rewrite Hnd; [done |]. intros ->. done. }
  assert (Hw2 : filter (fun b => ¬ is_waiting (nodes m1) b) V'
                = filter (fun b => ¬ is_waiting (nodes m) b) V').
  { apply filter_ext_in. intros b Hb. unfold is_waiting.
    rewrite Hnd; [done |]. intros ->. done. }
  rewrite Hw1 in P2, P3. rewrite Hw2 in P4.
  rewrite !filter_cons.
  destruct (decide (is_waiting (nodes m) a)) as [Ew | Ew].
  - rewrite (decide_False (P := ¬ is_waiting (nodes m) a)) by tauto.
    split; [done |]. split.
    { rewrite P2, Hn. simpl length. lia. }
    split.
    { rewrite P3, Hf. simpl. by destruct (s_first l). }
    split.
    { rewrite P4, Hr. done. }
    split.
    { intros r Hrs. rewrite P5 by done. by apply Hro. }
    split.
    { intros b. rewrite P6.
      destruct (decide (b = a)) as [-> | Hba].
      - rewrite (decide_False (P := a ∈ V')) by done.
        rewrite (decide_True (P := a ∈ a :: V')) by left.
        rewrite Hnda. by rewrite decide_True.
      - rewrite Hnd by done.
        assert (His : is_waiting (nodes m1) b ↔ is_waiting (nodes m) b).
        { unfold is_waiting. by rewrite Hnd. }
        destruct (decide (b ∈ V')) as [Hb | Hb].
        + rewrite (decide_True (P := b ∈ a :: V')) by (by right).
          destruct (decide (is_waiting (nodes m1) b)),
            (decide (is_waiting (nodes m) b)); tauto.
        + rewrite (decide_False (P := b ∈ a :: V')); [done |].
          intros [? | ?]%elem_of_cons; done. }
    split.
    { rewrite P7, Htr. rewrite reverse_cons, map_app. simpl.
      rewrite <- app_assoc. simpl. f_equal.
      apply map_ext_in. intros b Hb. rewrite Hnd; [done |].
      intros ->. apply Ha. apply elem_of_reverse. by apply list_elem_of_In. }
    repeat split; congruence.
  - rewrite (decide_True (P := ¬ is_waiting (nodes m) a)) by tauto.
    split; [done |]. split.
    { rewrite P2, Hn. done. }
    split.
    { rewrite P3, Hf. done. }
    split.
    { rewrite P4, Hr. simpl length. lia. }
    split.
    { intros r Hrs. rewrite P5 by done. by apply Hro. }
    split.
    { intros b. rewrite P6.
      destruct (decide (b = a)) as [-> | Hba].
      - rewrite (decide_False (P := a ∈ V')) by done.
        rewrite (decide_True (P := a ∈ a :: V')) by left.
        rewrite Hnda. by rewrite decide_False.
      - rewrite Hnd by done.
        assert (His : is_waiting (nodes m1) b ↔ is_waiting (nodes m) b).
        { unfold is_waiting. by rewrite Hnd. }
        destruct (decide (b ∈ V')) as [Hb | Hb].
        + rewrite (decide_True (P := b ∈ a :: V')) by (by right).
          destruct (decide (is_waiting (nodes m1) b)),
            (decide (is_waiting (nodes m) b)); tauto.
        + rewrite (decide_False (P := b ∈ a :: V')); [done |].
          intros [? | ?]%elem_of_cons; done. }
    split.
    { rewrite P7, Htr. rewrite reverse_cons, map_app. simpl.
      rewrite <- app_assoc. simpl. f_equal.
      apply map_ext_in. intros b Hb. rewrite Hnd; [done |].
      intros ->. apply Ha. apply elem_of_reverse. by apply list_elem_of_In. }
    repeat split; congruence.
Qed.

Lemma signal_loop (s : addr) (T : list addr) :
  ∀ m l,
    NoDup T -> prev_path (nodes m) T None ->
    s_pc l = SLoop -> s_p l = head T ->
    INT_MIN + Z.of_nat (length T) <= s_n l <= INT_MAX ->
    INT_MIN <= refs m s -> refs m s + Z.of_nat (length T) <= INT_MAX ->
    let V := budget (s_n l) (fun a => state (nodes m a)) T in
    ∃ m' l', srun (S (length V)) s m l = Some (m', l') ∧
             walk_post s m l V m' l' ∧
             s_p l' = head (drop (length V) T).
Proof.
  induction T as [| a T IH]; intros m l Hnd Hpp Hpc Hp Hn Hr1 Hr2; simpl.
  - (* the list is exhausted *)
    unfold __private_cond_signal. rewrite Hpc, Hp. simpl.
    eexists _, _. split; [reflexivity |].
    split; [| done].
    unfold walk_post. simpl. rewrite Z.sub_0_r, Z.add_0_r.
    repeat split; try done. by destruct (s_first l).
  - destruct (decide (s_n l = 0)) as [E0 | E0].
    + (* n nodes have been signaled *)
      simpl. unfold __private_cond_signal. rewrite Hpc, Hp. simpl.
      rewrite (decide_True (P := s_n l = 0)) by done.
      eexists _, _. split; [reflexivity |].
      split; [| done].
      unfold walk_post. simpl. rewrite Z.sub_0_r, Z.add_0_r.
      repeat split; try done. by destruct (s_first l).
    + (* one more node is visited *)
      apply NoDup_cons in Hnd as [Ha Hnd].
      destruct Hpp as [Hpa Hpp]. rewrite or_else_None in Hpa.
      simpl in Hn, Hr2.
      set (n' := if decide (state (nodes m a) = WAITING) then s_n l - 1 else s_n l).
      set (V' := budget n' (fun a => state (nodes m a)) T).
      cbn [length srun].
      destruct (__private_cond_signal s m l) as [[m1 l1] |] eqn:Hstep.
      2: { exfalso. unfold __private_cond_signal in Hstep.
           rewrite Hpc, Hp in Hstep. simpl in Hstep.
           rewrite (decide_False (P := s_n l = 0)) in Hstep by done.
           unfold visit, a_cas, int_add, in_int in Hstep.
           destruct (decide (state (nodes m a) = WAITING)); simpl in Hstep.
           - assert (Hin : (INT_MIN <=? s_n l + -1) && (s_n l + -1 <=? INT_MAX) = true).
             { apply andb_true_iff. split; apply Z.leb_le; lia. }
             rewrite Hin in Hstep. done.
           - assert (Hin : (INT_MIN <=? refs m s + 1) && (refs m s + 1 <=? INT_MAX) = true).
             { apply andb_true_iff. split; apply Z.leb_le; lia. }
             rewrite Hin in Hstep. done. }
      unfold __private_cond_signal in Hstep.
      rewrite Hpc, Hp in Hstep. simpl in Hstep.
      rewrite (decide_False (P := s_n l = 0)) in Hstep by done.
      unfold visit, a_cas, int_add in Hstep.
      assert (Hfacts :
        s_pc l1 = SLoop ∧ s_p l1 = head T ∧
        (∀ b, b ≠ a -> nodes m1 b = nodes m b) ∧
        (∀ b, prev (nodes m1 b) = prev (nodes m b)) ∧
        nodes m1 a = (if decide (is_waiting (nodes m) a)
                      then with_state SIGNALED (nodes m a)
                      else with_notify (Some s) (nodes m a)) ∧
        refs m1 s = (if decide (is_waiting (nodes m) a)
                     then refs m s else refs m s + 1) ∧
        (∀ r, r ≠ s -> refs m1 r = refs m r) ∧
        trace m1 = EvSignalCas s a (state (nodes m a)) :: trace m ∧
        s_n l1 = n' ∧
        s_first l1 = (if decide (is_waiting (nodes m) a)
                      then or_else (s_first l) (Some a) else s_first l) ∧
        _c_head m1 = _c_head m ∧ _c_tail m1 = _c_tail m ∧
        _c_lock m1 = _c_lock m ∧ _m_waiters m1 = _m_waiters m).
      { unfold is_waiting, n'.
        destruct (decide (state (nodes m a) = WAITING)) as [Ew | Ew];
          simpl in Hstep.
        - destruct (in_int (s_n l + -1)); simpl in Hstep; [| done].
          simplify_eq. simpl. fn_norm.
          repeat split; try done; try lia;
            try (intros; fn_cases; done); try (by destruct (s_first l)).
        - destruct (in_int (refs m s + 1)); simpl in Hstep; [| done].
          simplify_eq. simpl. fn_norm.
          repeat split; try done; try lia;
            try (intros; fn_cases; done); try (by destruct (nodes m a)). }
      destruct Hfacts as (F1 & F2 & F3 & F4 & F5 & F6 & F7 & F8 & F9 & F10
                          & F11 & F12 & F13 & F14).
      clear Hstep.
      destruct (IH m1 l1) as (m' & l' & Hrun & Hpost & Hp'); try done.
      { eapply prev_path_ext; [| exact Hpp]. intros b _. apply F4. }
      { rewrite F9. unfold n'. destruct (decide (state (nodes m a) = WAITING)); lia. }
      { rewrite F6. destruct (decide (is_waiting (nodes m) a)); lia. }
      { rewrite F6. destruct (decide (is_waiting (nodes m) a)); lia. }
      assert (HV : budget (s_n l1) (fun a => state (nodes m1 a)) T = V').
      { rewrite F9. apply budget_ext.
        intros b Hb. rewrite F3; [done |]. intros ->. done. }
      rewrite HV in Hrun, Hpost, Hp'.
      exists m', l'. split; [exact Hrun |]. split; [| exact Hp'].
      eapply (walk_post_cons s m l a V' m1 l1 m' l'); try done.
      intros Hin. apply Ha. by apply budget_subset in Hin.
Qed.

Lemma srun_plus k1 k2 s m l m1 l1 :
  srun k1 s m l = Some (m1, l1) ->
  srun (k1 + k2) s m l = srun k2 s m1 l1.
Proof.
  revert m l. induction k1 as [| k1 IH]; simpl; intros m l Hrun.
  - by simplify_eq.
  - destruct (__private_cond_signal s m l) as [[m0 l0] |]; [| done].
    by apply IH.
Qed.

(** The walk ends at the end of the list or with the budget used up, and
    not before. *)
Lemma budget_stop n nd T :
  budget n (fun a => state (nd a)) T = T ∨
  n - Z.of_nat (length (filter (is_waiting nd)
                          (budget n (fun a => state (nd a)) T))) = 0.
Proof.
  revert n. induction T as [| a T IH]; simpl; intros n; [by left |].
  destruct (decide (n = 0)) as [-> | Hn]; [by right |].
  rewrite filter_cons. unfold is_waiting at 1.
  destruct (decide (state (nd a) = WAITING)) as [E | E].
  - destruct (IH (n - 1)) as [-> | H]; [by left |].
    right. simpl length. lia.
  - destruct (IH n) as [-> | H]; [by left | by right].
Qed.

Lemma budget_not_before n nd T V1 V2 :
  budget n (fun a => state (nd a)) T = V1 ++ V2 -> V2 ≠ [] ->
  n - Z.of_nat (length (filter (is_waiting nd) V1)) ≠ 0.
Proof.
  revert n T. induction V1 as [| a V1 IH]; simpl; intros n T Hb Hne.
  - rewrite Z.sub_0_r. intros ->.
    destruct T; simpl in Hb; by destruct V2.
  - destruct T as [| b T]; simpl in Hb; [done |].
    destruct (decide (n = 0)); [done |]. simplify_eq.
    rewrite filter_cons. unfold is_waiting at 1.
    specialize (IH _ _ H0 Hne).
    destruct (decide (state (nd a) = WAITING)); simpl length in *; lia.
Qed.

(** The first node that counted is the first WAITING node of the whole
    list: the oldest waiter that has not timed out. *)
Lemma budget_first n nd T :
  n ≠ 0 ->
  head (filter (is_waiting nd) (budget n (fun a => state (nd a)) T))
  = head (filter (is_waiting nd) T).
Proof.
  revert n. induction T as [| a T IH]; simpl; intros n Hn; [done |].
  rewrite decide_False by done.
  rewrite !filter_cons.
  destruct (decide (state (nd a) = WAITING)) as [E | E];
    destruct (decide (is_waiting nd a)) as [E' | E']; try done.
  by apply IH.
Qed.

(** The call up to the loop, when the lock is free: lines 215-221. *)
Lemma signal_prologue s m l :
  s_pc l = SEntry -> _c_lock m = 0 ->
  ∃ m3 l3, srun 3 s m l = Some (m3, l3) ∧
           nodes m3 = nodes m ∧ refs m3 s = 0 ∧
           (∀ r, r ≠ s -> refs m3 r = refs m r) ∧
           trace m3 = trace m ∧ _c_head m3 = _c_head m ∧ _c_tail m3 = _c_tail m ∧
           _c_lock m3 ≠ 0 ∧
           s_pc l3 = SLoop ∧ s_p l3 = _c_tail m ∧ s_n l3 = s_n l ∧
           s_first l3 = None.
Proof.
  intros Hpc Hl. simpl.
  unfold __private_cond_signal at 1. rewrite Hpc. simpl.
  unfold lock, a_cas. rewrite Hl. simpl.
  eexists _, _. split; [reflexivity |]. simpl. fn_norm.
  repeat split; try done. intros r Hr. by fn_norm.
Qed.

(** The steps between the loop and the release leave [first] alone, and
    the release stores 0 in the barrier of [first], with a wake when the
    waiter had parked on it. *)
Lemma signal_release s m l :
  (s_pc l = SSplit ∨ s_pc l = SUnlock ∨ s_pc l = SWaitRef ->
   ∃ m' l', __private_cond_signal s m l = Some (m', l') ∧
            s_first l' = s_first l ∧
            (s_pc l' = SUnlock ∨ s_pc l' = SWaitRef ∨ s_pc l' = SRelease) ∧
            (s_pc l' = SRelease -> refs m s = 0)) ∧
  (s_pc l = SRelease ->
   ∃ m', __private_cond_signal s m l = Some (m', sgoto SRet l) ∧
         match s_first l with
         | Some f =>
             barrier (nodes m' f) = 0 ∧
             (∀ a, a ≠ f -> nodes m' a = nodes m a) ∧
             trace m' = (if decide (barrier (nodes m f) = 2)
                         then [EvFutexWake (Barrier f) 1] else []) ++ trace m
         | None => m' = m
         end).
Proof.
  split.
  - intros Hpc. unfold __private_cond_signal.
    destruct Hpc as [-> | [-> | ->]]; simpl.
    + eexists _, _. split; [reflexivity |]. simpl. split; [done |]. split; [auto | done].
    + unfold unlock, a_swap. eexists _, _. split; [reflexivity |]. simpl.
      split; [done |]. split; [auto | done].
    + destruct (decide (refs m s = 0)) as [E | E];
        eexists _, _; (split; [reflexivity |]); simpl.
      * split; [done |]. split; [auto | done].
      * split; [done |]. split; [auto | done].
  - intros Hpc. unfold __private_cond_signal. rewrite Hpc.
    destruct (s_first l) as [f |]; simpl.
    + unfold unlock, a_swap. eexists. split; [reflexivity |]. simpl.
      fn_norm. split; [done |]. split; [| done].
      intros a Ha. by fn_norm.
    + by eexists.
Qed.

(** X5 (lines 214-255): a call of [__private_cond_signal] that finds the lock free and a
    well-formed list [L], and runs alone up to the split.  With [V] the
    nodes that the specification has it visit (from the tail, WAITING
    nodes counting towards [n], until [n] have counted or the list is
    exhausted), the call reaches the split after [4 + length V] steps,
    with [p] at the first node not visited; every visited node that was
    WAITING is SIGNALED, every other visited node has [notify] at the
    counter of the call, which holds their number; [n] has gone down by the
    number of nodes signaled; [first] is the first node signaled, which for
    [n ≠ 0] is the oldest WAITING node of the list; the steps up to the
    release keep [first], and the release opens its barrier. *)
Theorem signal_walk_alone (s : addr) (m : shared) (l : slocal) (L : list addr) :
  wf_list m L ->
  s_pc l = SEntry ->
  _c_lock m = 0 ->
  INT_MIN + Z.of_nat (length L) <= s_n l <= INT_MAX ->
  Z.of_nat (length L) <= INT_MAX ->
  let V := budget (s_n l) (fun a => state (nodes m a)) (reverse L) in
  ∃ m' l',
    srun (4 + length V) s m l = Some (m', l') ∧
    s_pc l' = SSplit ∧
    (∃ R, reverse L = V ++ R ∧ s_p l' = head R) ∧
    (∀ a, nodes m' a =
          if decide (a ∈ V)
          then (if decide (is_waiting (nodes m) a)
                then with_state SIGNALED (nodes m a)
                else with_notify (Some s) (nodes m a))
          else nodes m a) ∧
    trace m' = map (fun a => EvSignalCas s a (state (nodes m a))) (reverse V) ++ trace m ∧
    s_n l' = s_n l - Z.of_nat (length (filter (is_waiting (nodes m)) V)) ∧
    refs m' s = Z.of_nat (length (filter (fun a => ¬ is_waiting (nodes m) a) V)) ∧
    (V = reverse L ∨ s_n l' = 0) ∧
    (∀ V1 V2, V = V1 ++ V2 -> V2 ≠ [] ->
              s_n l - Z.of_nat (length (filter (is_waiting (nodes m)) V1)) ≠ 0) ∧
    s_first l' = head (filter (is_waiting (nodes m)) V) ∧
    (s_n l ≠ 0 -> s_first l' = head (filter (is_waiting (nodes m)) (reverse L))) ∧
    (∀ m2 l2, s_pc l2 = SSplit ∨ s_pc l2 = SUnlock ∨ s_pc l2 = SWaitRef ->
       ∃ m3 l3, __private_cond_signal s m2 l2 = Some (m3, l3) ∧
                s_first l3 = s_first l2 ∧
                (s_pc l3 = SUnlock ∨ s_pc l3 = SWaitRef ∨ s_pc l3 = SRelease)) ∧
    (∀ m2 l2 f, s_pc l2 = SRelease -> s_first l2 = Some f ->
       ∃ m3, __private_cond_signal s m2 l2 = Some (m3, sgoto SRet l2) ∧
             barrier (nodes m3 f) = 0 ∧
             trace m3 = (if decide (barrier (nodes m2 f) = 2)
                         then [EvFutexWake (Barrier f) 1] else []) ++ trace m2).
Proof.
  intros Hwf Hpc Hlock Hn Hlen V.
  destruct Hwf as (Hnd & Hc & Hh & Ht).
  destruct (signal_prologue s m l Hpc Hlock)
    as (m3 & l3 & Hrun3 & E1 & E2 & E3 & E4 & E5 & E6 & E7 & E8 & E9 & E10 & E11).
  destruct (signal_loop s (reverse L) m3 l3)
    as (m' & l' & Hrun & Hpost & Hp).
  { by rewrite reverse_Permutation. }
  { rewrite E1. by eapply chain_prev_path. }
  { done. }
  { rewrite E9, Ht. by rewrite head_reverse. }
  { rewrite length_reverse, E10. done. }
  { rewrite E2. unfold INT_MIN. lia. }
  { rewrite E2, length_reverse. lia. }
  rewrite E1, E10 in Hrun, Hpost, Hp. fold V in Hrun, Hpost, Hp.
  destruct Hpost as (P1 & P2 & P3 & P4 & P5 & P6 & P7 & P8 & P9 & P10 & P11).
  rewrite E1, ?E10, ?E11, ?E2, ?E4 in *.
  exists m', l'.
  split.
  { replace (4 + length V)%nat with (3 + S (length V))%nat by lia.
    by rewrite (srun_plus _ _ _ _ _ _ _ Hrun3). }
  split; [done |].
  split.
  { destruct (budget_prefix (s_n l) (fun a => state (nodes m a)) (reverse L))
      as [R HR]. fold V in HR.
    exists R. split; [done |]. rewrite Hp. rewrite HR.
    by rewrite drop_app_length. }
  split; [done |]. split; [done |]. split; [done |].
  split; [by rewrite P4 |].
  split.
  { rewrite P2. apply budget_stop. }
  split.
  { intros V1 V2 HV Hne. eapply budget_not_before; [exact HV | done]. }
  split; [done |].
  split.
  { intros Hn0. rewrite P3. simpl. by apply budget_first. }
  split.
  - intros m2 l2 Hpc2.
    destruct (proj1 (signal_release s m2 l2) Hpc2) as (m4 & l4 & H1 & H2 & H3 & _).
    by exists m4, l4.
  - intros m2 l2 f Hpc2 Hf.
    destruct (proj2 (signal_release s m2 l2) Hpc2) as (m4 & H1 & H2).
    rewrite Hf in H2. destruct H2 as (H2 & _ & H3).
    by exists m4.
Qed.

(** A list of three waiters, 0 the oldest; 0 has timed out but is still
    linked in, 1 and 2 are waiting. *)
Definition walk_mem : shared :=
  {| _c_lock := 0; _c_head := Some 2%nat; _c_tail := Some 0%nat; _c_clock := 0;
     _m_type := 0; _m_lock := 0; _m_waiters := 0;
     nodes := fun a =>
       match a with
       | 0%nat => Waiter (Some 1%nat) None LEAVING 2 None
       | 1%nat => Waiter (Some 2%nat) (Some 0%nat) WAITING 2 None
       | _ => Waiter None (Some 1%nat) WAITING 2 None
       end;
     refs := fun _ => 0; trace := [] |}.

Definition signal_call (n : Z) : slocal :=
  {| s_pc := SEntry; s_n := n; s_p := None; s_first := None; s_cur := 0 |}.

Lemma walk_mem_wf : wf_list walk_mem [2%nat; 1%nat; 0%nat].
Proof.
  split; [| split; [| split]]; try reflexivity.
  - compute_done.
  - cbv [chain]. simpl. tauto.
Qed.

Lemma signal_walk_alone_witness :
  ∃ m' l', srun 6 7%nat walk_mem (signal_call 1) = Some (m', l') ∧
           s_pc l' = SSplit ∧ s_first l' = Some 1%nat ∧ s_n l' = 0 ∧
           refs m' 7%nat = 1.
Proof.
  destruct (signal_walk_alone 7%nat walk_mem (signal_call 1)
              [2%nat; 1%nat; 0%nat] walk_mem_wf eq_refl eq_refl)
    as (m' & l' & Hrun & Hpc & _ & _ & _ & Hn & Hr & _ & _ & _ & Hf & _).
  - simpl. unfold INT_MIN, INT_MAX. lia.
  - simpl. unfold INT_MAX. lia.
  - exists m', l'. split; [exact Hrun |]. split; [exact Hpc |].
    split; [by apply Hf |]. split; [exact Hn | exact Hr].
Defined.

(** ** The lock of the condition variable excludes *)

(** The program points at which a call holds the lock of the condition
    variable. *)
Definition wcs (pc : wpc) : Prop :=
  match pc with
  | WInsert | WUnlock1 | WUnlink | WUnlock2 => True
  | _ => False
  end.

Definition scs (pc : spc) : Prop :=
  match pc with
  | SFor | SLoop | SSplit | SUnlock => True
  | _ => False
  end.

Global Instance wcs_dec pc : Decision (wcs pc).
Proof. destruct pc; simpl; apply _. Defined.

Global Instance scs_dec pc : Decision (scs pc).
Proof. destruct pc; simpl; apply _. Defined.

(** Whoever holds the lock finds the lock word nonzero, and at most one
    call holds it. *)
Definition lock_inv (σ : system) : Prop :=
  (∀ t, wcs (w_pc (waiters σ t)) -> _c_lock (mem σ) ≠ 0) ∧
  (∀ s, scs (s_pc (signalers σ s)) -> _c_lock (mem σ) ≠ 0) ∧
  (∀ t t', wcs (w_pc (waiters σ t)) -> wcs (w_pc (waiters σ t')) -> t = t') ∧
  (∀ s s', scs (s_pc (signalers σ s)) -> scs (s_pc (signalers σ s')) -> s = s') ∧
  (∀ t s, wcs (w_pc (waiters σ t)) -> scs (s_pc (signalers σ s)) -> False).

Lemma lock_word l ph cell cell' nxt evs :
  lock l ph cell = (cell', nxt, evs) ->
  (nxt = None -> cell = 0 ∧ cell' ≠ 0) ∧ (cell ≠ 0 -> cell' ≠ 0).
Proof.
  unfold lock, a_cas. intros H.
  destruct ph; repeat case_decide; simplify_eq; split; intros; try done; lia.
Qed.

(** What a step of a waiter does to the lock word, by whether the call
    is in its critical sections before and after. *)
Lemma wstep_lock t x m w m' w' :
  pthread_cond_timedwait t x m w = Some (m', w') ->
  (wcs (w_pc w') -> ¬ wcs (w_pc w) -> _c_lock m = 0 ∧ _c_lock m' ≠ 0) ∧
  (wcs (w_pc w') -> wcs (w_pc w) -> _c_lock m' = _c_lock m) ∧
  (¬ wcs (w_pc w') -> ¬ wcs (w_pc w) -> _c_lock m ≠ 0 -> _c_lock m' ≠ 0).
Proof.
  intros Hstep.
  unfold pthread_cond_timedwait in Hstep.
  destruct (w_pc w) eqn:Epc; simpl.
  - (* WEntry *)
    repeat case_match; simplify_eq; simpl; repeat split; tauto.
  - (* WLock1 *)
    destruct (lock CLock ph (_c_lock m)) as [[cell nxt] evs] eqn:El.
    destruct (lock_word _ _ _ _ _ _ El) as [H1 H2].
    simplify_eq. simpl. destruct nxt; simpl; repeat split; try tauto.
    all: try (intros _ _; by apply H1).
  - (* WInsert *)
    destruct (enqueue t m) as [m1 |] eqn:Eq; simpl in Hstep; [| done].
    simplify_eq. simpl. repeat split; try tauto.
    intros _ _. unfold enqueue in Eq.
    repeat case_match; simplify_eq; reflexivity.
  - (* WUnlock1 *)
    destruct (unlock CLock (_c_lock m)) as [cell evs].
    simplify_eq. simpl. repeat split; tauto.
  - simplify_eq. simpl. repeat split; tauto.
  - simplify_eq. simpl. repeat split; tauto.
  - (* WWait *)
    case_decide; simplify_eq; simpl; rewrite ?Epc; simpl; repeat split; tauto.
  - (* WCas *)
    unfold a_cas in Hstep. simplify_eq. simpl.
    case_decide; simpl; repeat split; tauto.
  - (* WLock2 *)
    destruct (lock CLock ph (_c_lock m)) as [[cell nxt] evs] eqn:El.
    destruct (lock_word _ _ _ _ _ _ El) as [H1 H2].
    simplify_eq. simpl. destruct nxt; simpl; repeat split; try tauto.
    all: try (intros _ _; by apply H1).
  - (* WUnlink *)
    simplify_eq. simpl. repeat split; try tauto.
    intros _ _. apply unlink_frame.
  - (* WUnlock2 *)
    destruct (unlock CLock (_c_lock m)) as [cell evs].
    simplify_eq. simpl. repeat split; tauto.
  - (* WNotify *)
    simplify_eq. simpl. repeat split; try tauto.
    intros _ _. by destruct (notify_signaler_frame t m) as (-> & _).
  - (* WLockB *)
    destruct (lock (Barrier t) ph (barrier (nodes m t))) as [[cell nxt] evs].
    simplify_eq. simpl. destruct nxt; simpl; repeat split; tauto.
  - (* WMutexLock *)
    simplify_eq. simpl. case_decide; simpl; repeat split; tauto.
  - (* WInc *)
    simplify_eq. simpl. repeat split; try tauto.
    intros _ _. by destruct (chain_begin_frame t m) as (_ & _ & _ & -> & _).
  - (* WRelease *)
    simplify_eq. simpl. repeat split; try tauto.
    intros _ _. unfold chain_next. by destruct (prev (nodes m t)).
  - simplify_eq. simpl. repeat split; tauto.
  - (* WDone *)
    repeat case_match; simplify_eq; simpl; repeat split; tauto.
  - done.
  - done.
Qed.

Lemma visit_frame s a m l m' l' :
  visit s a m l = Some (m', l') ->
  _c_lock m' = _c_lock m ∧ _c_head m' = _c_head m ∧ _c_tail m' = _c_tail m ∧
  _m_waiters m' = _m_waiters m ∧ s_pc l' = s_pc l ∧
  trace m' = EvSignalCas s a (state (nodes m a)) :: trace m ∧
  (∀ b, prev (nodes m' b) = prev (nodes m b) ∧ next (nodes m' b) = next (nodes m b) ∧
        barrier (nodes m' b) = barrier (nodes m b)) ∧
  (∀ b, b ≠ a -> nodes m' b = nodes m b) ∧
  (∀ r, r ≠ s -> refs m' r = refs m r) ∧
  s_p l' = prev (nodes m a) ∧
  (state (nodes m a) = WAITING ->
   state (nodes m' a) = SIGNALED ∧ notify (nodes m' a) = notify (nodes m a) ∧
   refs m' s = refs m s ∧ s_n l' = s_n l - 1 ∧
   s_first l' = or_else (s_first l) (Some a)) ∧
  (state (nodes m a) ≠ WAITING ->
   state (nodes m' a) = state (nodes m a) ∧ notify (nodes m' a) = Some s ∧
   refs m' s = refs m s + 1 ∧ refs m s + 1 <= INT_MAX ∧
   s_n l' = s_n l ∧ s_first l' = s_first l).
Proof.
  unfold visit, a_cas, int_add, in_int. intros H.
  destruct (decide (state (nodes m a) = WAITING)) as [Ew | Ew]; simpl in H.
  - destruct ((INT_MIN <=? s_n l + -1) && (s_n l + -1 <=? INT_MAX)); simpl in H;
      [| done].
    simplify_eq. simpl. fn_norm.
    repeat split; try done; try lia;
      try (intros; fn_cases; done); try (by destruct (s_first l)).
    all: try (by rewrite Ew).
  - destruct ((INT_MIN <=? refs m s + 1) && (refs m s + 1 <=? INT_MAX)) eqn:Ein;
      simpl in H; [| done].
    apply andb_true_iff in Ein as [_ Ein%Z.leb_le].
    simplify_eq. simpl. fn_norm.
    repeat split; try done; try lia;
      try (intros; fn_cases; done); try (by destruct (nodes m a)).
    all: try (intros b Hb; fn_norm; by destruct (nodes m b)).
Qed.

Lemma sstep_lock s m l m' l' :
  __private_cond_signal s m l = Some (m', l') ->
  (scs (s_pc l') -> ¬ scs (s_pc l) -> _c_lock m = 0 ∧ _c_lock m' ≠ 0) ∧
  (scs (s_pc l') -> scs (s_pc l) -> _c_lock m' = _c_lock m) ∧
  (¬ scs (s_pc l') -> ¬ scs (s_pc l) -> _c_lock m ≠ 0 -> _c_lock m' ≠ 0).
Proof.
  intros Hstep.
  unfold __private_cond_signal in Hstep.
  destruct (s_pc l) eqn:Epc; simpl.
  - simplify_eq. simpl. repeat split; tauto.
  - destruct (lock CLock ph (_c_lock m)) as [[cell nxt] evs] eqn:El.
    destruct (lock_word _ _ _ _ _ _ El) as [H1 H2].
    simplify_eq. simpl. destruct nxt; simpl; repeat split; try tauto.
    all: try (intros _ _; by apply H1).
  - simplify_eq. simpl. repeat split; tauto.
  - destruct (s_p l) as [a |]; [destruct (decide (s_n l = 0)) |].
    + simplify_eq. simpl. repeat split; tauto.
    + destruct (visit_frame _ _ _ _ _ _ Hstep) as (H1 & _ & _ & _ & H2 & _).
      rewrite H2, Epc. simpl. repeat split; tauto.
    + simplify_eq. simpl. repeat split; tauto.
  - simplify_eq. simpl. repeat split; try tauto.
    intros _ _. unfold split. by repeat case_match.
  - destruct (unlock CLock (_c_lock m)) as [cell evs].
    simplify_eq. simpl. repeat split; tauto.
  - case_decide; simplify_eq; simpl; rewrite ?Epc; simpl; repeat split; tauto.
  - destruct (s_first l) as [a |].
    + destruct (unlock (Barrier a) (barrier (nodes m a))) as [cell evs].
      simplify_eq. simpl. repeat split; tauto.
    + simplify_eq. simpl. repeat split; tauto.
  - done.
Qed.

Lemma lock_inv_initial σ : initial σ -> lock_inv σ.
Proof.
  intros (_ & _ & _ & _ & Hw & Hs).
  repeat split; intros *; rewrite ?Hw, ?Hs; simpl; done.
Qed.

Lemma lock_inv_step σ σ' : lock_inv σ -> step σ σ' -> lock_inv σ'.
Proof.
  intros (I1 & I2 & I3 & I4 & I5) Hstep.
  inversion Hstep as [t x m wt st m' w' Hw | s m wt st m' l' Hs]; subst;
    simpl in *.
  - destruct (wstep_lock _ _ _ _ _ _ Hw) as (F1 & F2 & F3).
    assert (Hent : wcs (w_pc w') -> ¬ wcs (w_pc (wt t)) ->
                   (∀ t1, ¬ wcs (w_pc (wt t1))) ∧ (∀ s1, ¬ scs (s_pc (st s1)))).
    { intros H1 H2. destruct (F1 H1 H2) as [E0 _].
      split; intros a Ha; [by apply (I1 a) | by apply (I2 a)]. }
    assert (Hother : ∀ t1, t1 ≠ t -> wcs (w_pc (wt t1)) ->
                           ¬ wcs (w_pc w') ∧ ¬ wcs (w_pc (wt t))).
    { intros t1 Hne H1. split.
      - intros H2. destruct (decide (wcs (w_pc (wt t)))) as [H3 | H3].
        + apply Hne. by apply I3.
        + destruct (Hent H2 H3) as [H4 _]. by apply (H4 t1).
      - intros H3. apply Hne. by apply I3. }
    assert (Hsig : ∀ s1, scs (s_pc (st s1)) ->
                         ¬ wcs (w_pc w') ∧ ¬ wcs (w_pc (wt t))).
    { intros s1 H1. split.
      - intros H2. destruct (decide (wcs (w_pc (wt t)))) as [H3 | H3].
        + by apply (I5 t s1).
        + destruct (Hent H2 H3) as [_ H4]. by apply (H4 s1).
      - intros H3. by apply (I5 t s1). }
    repeat split; simpl.
    + intros t1. destruct (decide (t = t1)) as [<- | Hne]; fn_norm.
      * intros H1. destruct (decide (wcs (w_pc (wt t)))) as [H2 | H2].
        { rewrite F2 by done. by apply (I1 t). }
        { by apply F1. }
      * intros H1. destruct (Hother t1) as [H2 H3]; [done | done |].
        apply F3; [done | done |]. by apply (I1 t1).
    + intros s1 H1. destruct (Hsig s1 H1) as [H2 H3].
      apply F3; [done | done |]. by apply (I2 s1).
    + intros t1 t2.
      destruct (decide (t = t1)) as [<- | Hne1];
        destruct (decide (t = t2)) as [<- | Hne2]; fn_norm; try done.
      * intros H1 H2. destruct (Hother t2) as [H3 _]; done.
      * intros H1 H2. destruct (Hother t1) as [H3 _]; done.
      * apply I3.
    + apply I4.
    + intros t1 s1. destruct (decide (t = t1)) as [<- | Hne]; fn_norm.
      * intros H1 H2. by destruct (Hsig s1 H2) as [H3 _].
      * apply I5.
  - destruct (sstep_lock _ _ _ _ _ Hs) as (F1 & F2 & F3).
    assert (Hent : scs (s_pc l') -> ¬ scs (s_pc (st s)) ->
                   (∀ t1, ¬ wcs (w_pc (wt t1))) ∧ (∀ s1, ¬ scs (s_pc (st s1)))).
    { intros H1 H2. destruct (F1 H1 H2) as [E0 _].
      split; intros a Ha; [by apply (I1 a) | by apply (I2 a)]. }
    assert (Hother : ∀ s1, s1 ≠ s -> scs (s_pc (st s1)) ->
                           ¬ scs (s_pc l') ∧ ¬ scs (s_pc (st s))).
    { intros s1 Hne H1. split.
      - intros H2. destruct (decide (scs (s_pc (st s)))) as [H3 | H3].
        + apply Hne. by apply I4.
        + destruct (Hent H2 H3) as [_ H4]. by apply (H4 s1).
      - intros H3. apply Hne. by apply I4. }
    assert (Hwait : ∀ t1, wcs (w_pc (wt t1)) ->
                          ¬ scs (s_pc l') ∧ ¬ scs (s_pc (st s))).
    { intros t1 H1. split.
      - intros H2. destruct (decide (scs (s_pc (st s)))) as [H3 | H3].
        + by apply (I5 t1 s).
        + destruct (Hent H2 H3) as [H4 _]. by apply (H4 t1).
      - intros H3. by apply (I5 t1 s). }
    repeat split; simpl.
    + intros t1 H1. destruct (Hwait t1 H1) as [H2 H3].
      apply F3; [done | done |]. by apply (I1 t1).
    + intros s1. destruct (decide (s = s1)) as [<- | Hne]; fn_norm.
      * intros H1. destruct (decide (scs (s_pc (st s)))) as [H2 | H2].
        { rewrite F2 by done. by apply (I2 s). }
        { by apply F1. }
      * intros H1. destruct (Hother s1) as [H2 H3]; [done | done |].
        apply F3; [done | done |]. by apply (I2 s1).
    + apply I3.
    + intros s1 s2.
      destruct (decide (s = s1)) as [<- | Hne1];
        destruct (decide (s = s2)) as [<- | Hne2]; fn_norm; try done.
      * intros H1 H2. destruct (Hother s2) as [H3 _]; done.
      * intros H1 H2. destruct (Hother s1) as [H3 _]; done.
      * apply I4.
    + intros t1 s1. destruct (decide (s = s1)) as [<- | Hne]; fn_norm.
      * intros H1 H2. by destruct (Hwait t1 H1) as [H3 _].
      * apply I5.
Qed.

(** ** The list, the nodes and the calls *)

(** The program points before the node of a call is in the list. *)
Definition pre_insert (pc : wpc) : Prop :=
  match pc with
  | WEntry | WLock1 _ | WInsert => True
  | _ => False
  end.

Global Instance pre_insert_dec pc : Decision (pre_insert pc).
Proof. destruct pc; simpl; apply _. Defined.

(** A node that a split has detached and that has yet to take itself
    out: it is not in the list, and its links lead to nodes that are not
    in the list either and have been inserted before. *)
Definition detached_ok (σ : system) (t : addr) : Prop :=
  (t ∉ attached (trace (mem σ))) ∧
  ∀ b, (prev (nodes (mem σ) t) = Some b ∨ next (nodes (mem σ) t) = Some b) ->
       (b ∉ attached (trace (mem σ))) ∧ ¬ pre_insert (w_pc (waiters σ b)).

(** What holds of the node of a call at each of its program points; [old]
    is [oldstate], [inL] says that the node is in the list, [unv] that no
    signaler has visited it, [det] that it is detached as above. *)
Definition wclause (pc : wpc) (old : wstate) (n : waiter)
    (inL unv det : Prop) : Prop :=
  match pc with
  | WEntry => ¬ inL ∧ unv
  | WLock1 _ | WInsert =>
      ¬ inL ∧ unv ∧ prev n = None ∧ notify n = None ∧ state n = WAITING
  | WUnlock1 | WMutexUnlock | WSetCancel | WWait | WCas =>
      (state n = WAITING ∧ inL) ∨ state n = SIGNALED
  | WLock2 _ | WUnlink => old = WAITING ∧ state n = LEAVING ∧ (inL ∨ det)
  | WUnlock2 | WNotify => old = WAITING ∧ state n = LEAVING ∧ ¬ inL
  | WLockB _ | WInc | WRelease | WSuppress => old ≠ WAITING ∧ state n = SIGNALED
  | WMutexLock | WDone =>
      (old = WAITING ∧ state n = LEAVING ∧ ¬ inL) ∨
      (old ≠ WAITING ∧ state n = SIGNALED)
  | WRet _ | WUnwound => ¬ inL ∨ state n = SIGNALED
  end.

Definition wtable (σ : system) (t : addr) : Prop :=
  wclause (w_pc (waiters σ t)) (w_oldstate (waiters σ t)) (nodes (mem σ) t)
    (t ∈ attached (trace (mem σ)))
    (∀ s, t ∉ visited s (trace (mem σ)))
    (detached_ok σ t).

(** What holds of a call of [__private_cond_signal]: the nodes it has
    visited are the tail end of the list, in the order of the list, and
    [p] is the node before them, until the split; afterwards none of them
    is in the list. *)
Definition sclause (pc : spc) (p : option addr) (L vis : list addr) : Prop :=
  match pc with
  | SEntry | SLock _ | SFor => vis = []
  | SLoop | SSplit => ∃ L1, L = L1 ++ vis ∧ p = last L1
  | SUnlock | SWaitRef | SRelease | SRet => ∀ a, a ∈ vis -> a ∉ L
  end.

Definition stable (σ : system) (s : addr) : Prop :=
  sclause (s_pc (signalers σ s)) (s_p (signalers σ s))
    (attached (trace (mem σ))) (visited s (trace (mem σ))).

(** The marks on the nodes of the list: a node that no signaler has
    visited is not SIGNALED and has no [notify]; a visited one is
    SIGNALED, or LEAVING with [notify] at the counter of its visitor. *)
Definition marks (σ : system) : Prop :=
  ∀ a, a ∈ attached (trace (mem σ)) ->
       ((∀ s, a ∉ visited s (trace (mem σ))) ->
        state (nodes (mem σ) a) ≠ SIGNALED ∧ notify (nodes (mem σ) a) = None) ∧
       (∀ s, a ∈ visited s (trace (mem σ)) ->
             state (nodes (mem σ) a) = SIGNALED ∨
             (state (nodes (mem σ) a) = LEAVING ∧
              notify (nodes (mem σ) a) = Some s)).

Definition main_inv (σ : system) : Prop :=
  wf_list (mem σ) (attached (trace (mem σ))) ∧
  (∀ t, wtable σ t) ∧ (∀ s, stable σ s) ∧ marks σ.

Lemma wclause_mono pc old n n' inL inL' unv unv' det det' :
  state n' = state n -> notify n' = notify n ->
  (pre_insert pc -> prev n' = prev n) ->
  (inL ↔ inL') -> (unv -> unv') -> (det -> inL' ∨ det') ->
  wclause pc old n inL unv det -> wclause pc old n' inL' unv' det'.
Proof.
  intros Hs Hn Hp Hi Hu Hd.
  destruct pc; simpl; rewrite ?Hs, ?Hn; try tauto.
  - rewrite Hp by done. tauto.
  - rewrite Hp by done. tauto.
Qed.

(** Events of the wait/wake primitive and of the mutex: they are no
    operations on the list or on the state of a node. *)
Definition silent (ev : event) : Prop :=
  match ev with
  | EvFutexWait _ _ | EvFutexWake _ _ | EvFutexRequeue _ _ _ _ _
  | EvTimedwait _ _ _ _ | EvMutexUnlock _ | EvMutexLock _ _ => True
  | _ => False
  end.

Lemma silent_attached evs tr : Forall silent evs -> attached (evs ++ tr) = attached tr.
Proof.
  induction 1 as [| ev evs Hev _ IH]; [done |].
  simpl. by destruct ev.
Qed.

Lemma silent_visited s evs tr : Forall silent evs -> visited s (evs ++ tr) = visited s tr.
Proof.
  induction 1 as [| ev evs Hev _ IH]; [done |].
  simpl. by destruct ev.
Qed.

Lemma silent_leaving s evs tr : Forall silent evs -> leaving s (evs ++ tr) = leaving s tr.
Proof.
  induction 1 as [| ev evs Hev _ IH]; [done |].
  simpl. by destruct ev.
Qed.

(** Two memories that the invariants cannot tell apart. *)
Definition same_view (m m' : shared) : Prop :=
  _c_head m' = _c_head m ∧ _c_tail m' = _c_tail m ∧
  (∀ a, prev (nodes m' a) = prev (nodes m a) ∧ next (nodes m' a) = next (nodes m a) ∧
        state (nodes m' a) = state (nodes m a) ∧
        notify (nodes m' a) = notify (nodes m a)) ∧
  ∃ evs, trace m' = evs ++ trace m ∧ Forall silent evs.

Lemma same_view_attached m m' :
  same_view m m' -> attached (trace m') = attached (trace m).
Proof. intros (_ & _ & _ & evs & -> & Hs). by apply silent_attached. Qed.

Lemma same_view_visited m m' s :
  same_view m m' -> visited s (trace m') = visited s (trace m).
Proof. intros (_ & _ & _ & evs & -> & Hs). by apply silent_visited. Qed.

Lemma wf_list_view m m' L : same_view m m' -> wf_list m L -> wf_list m' L.
Proof.
  intros (Hh & Ht & Hn & _) (H1 & H2 & H3 & H4).
  split; [done |]. split; [| split; congruence].
  eapply chain_ext; [| exact H2]. intros a _.
  destruct (Hn a) as (-> & -> & _). done.
Qed.

(** Steps that leave the view alone keep the invariant, provided the
    clauses of the calls hold at their new program points. *)
Lemma main_inv_view σ σ' :
  main_inv σ ->
  same_view (mem σ) (mem σ') ->
  (∀ t, ¬ pre_insert (w_pc (waiters σ t)) -> ¬ pre_insert (w_pc (waiters σ' t))) ->
  (∀ t, wclause (w_pc (waiters σ' t)) (w_oldstate (waiters σ' t)) (nodes (mem σ) t)
          (t ∈ attached (trace (mem σ)))
          (∀ s, t ∉ visited s (trace (mem σ)))
          (detached_ok σ t)) ->
  (∀ s, sclause (s_pc (signalers σ' s)) (s_p (signalers σ' s))
          (attached (trace (mem σ))) (visited s (trace (mem σ)))) ->
  main_inv σ'.
Proof.
  intros (Hwf & Hw & Hs & Hm) Hv Hpre Hw' Hs'.
  pose proof (same_view_attached _ _ Hv) as Ha.
  assert (Hvis : ∀ s, visited s (trace (mem σ')) = visited s (trace (mem σ))).
  { intros s. by apply same_view_visited. }
  destruct Hv as (Hh & Ht & Hn & Htr).
  assert (Hv : same_view (mem σ) (mem σ')) by done.
  split; [| split; [| split]].
  - rewrite Ha. by eapply wf_list_view.
  - intros t. unfold wtable. rewrite Ha.
    destruct (Hn t) as (Hp & Hx & Hst & Hno).
    eapply wclause_mono; [exact Hst | exact Hno | by intros _ | done | | | apply Hw'].
    + intros Hu s. rewrite Hvis. apply Hu.
    + intros [Hd1 Hd2]. right. split; [by rewrite Ha |].
      intros b Hb. rewrite Hp, Hx in Hb. rewrite Ha.
      destruct (Hd2 b Hb) as [Hb1 Hb2]. split; [done |]. by apply Hpre.
  - intros s. unfold stable. rewrite Ha, Hvis. apply Hs'.
  - intros a. rewrite Ha. intros Hin.
    destruct (Hn a) as (_ & _ & -> & ->).
    destruct (Hm a Hin) as [M1 M2]. split.
    + intros Hu. apply M1. intros s. rewrite <- Hvis. apply Hu.
    + intros s. rewrite Hvis. apply M2.
Qed.

(** The steps of [pthread_cond_timedwait] that are no operation on the
    list or on the state of a node. *)
Definition quiet_pc (pc : wpc) : Prop :=
  match pc with
  | WEntry | WInsert | WCas | WUnlink => False
  | _ => True
  end.

Lemma same_view_refl m : same_view m m.
Proof. repeat split. exists []. split; [done | constructor]. Qed.

Lemma same_view_emit m evs m' :
  Forall silent evs ->
  _c_head m' = _c_head m -> _c_tail m' = _c_tail m ->
  (∀ a, prev (nodes m' a) = prev (nodes m a) ∧ next (nodes m' a) = next (nodes m a) ∧
        state (nodes m' a) = state (nodes m a) ∧
        notify (nodes m' a) = notify (nodes m a)) ->
  trace m' = evs ++ trace m ->
  same_view m m'.
Proof. intros. repeat split; try done; try apply H2. by exists evs. Qed.

Lemma lock_silent l ph cell cell' nxt evs :
  lock l ph cell = (cell', nxt, evs) -> Forall silent evs.
Proof. intros H. destruct (lock_events _ _ _ _ _ _ H) as [-> | ->]; by repeat constructor. Qed.

Lemma unlock_silent l cell cell' evs :
  unlock l cell = (cell', evs) -> Forall silent evs.
Proof.
  intros H. destruct (unlock_events _ _ _ _ H) as [_ [-> | ->]];
    by repeat constructor.
Qed.

Ltac clause_done :=
  simpl; repeat (case_decide; simpl); repeat (case_match; simpl);
  first [tauto | done].

Lemma notify_signaler_silent t m :
  ∃ evs, trace (notify_signaler t m) = evs ++ trace m ∧ Forall silent evs.
Proof.
  unfold notify_signaler, a_fetch_add.
  destruct (notify (nodes m t)) as [s |]; simpl.
  - case_decide; eexists; (split; [reflexivity |]); by repeat constructor.
  - exists []. split; [done | constructor].
Qed.

Lemma wstep_quiet t x m w m' w' :
  pthread_cond_timedwait t x m w = Some (m', w') ->
  quiet_pc (w_pc w) ->
  same_view m m' ∧
  (¬ pre_insert (w_pc w) -> ¬ pre_insert (w_pc w')) ∧
  (∀ n inL unv det,
     wclause (w_pc w) (w_oldstate w) n inL unv det ->
     wclause (w_pc w') (w_oldstate w') n inL unv det).
Proof.
  intros Hstep Hq.
  unfold pthread_cond_timedwait in Hstep.
  destruct (w_pc w) eqn:Epc; simpl in Hq; try done.
  - (* WLock1 *)
    destruct (lock CLock ph (_c_lock m)) as [[cell nxt] evs] eqn:El.
    simplify_eq. split; [| split].
    + eapply same_view_emit; [by eapply lock_silent | done | done | done | done].
    + clause_done.
    + intros n inL unv det. clause_done.
  - (* WUnlock1 *)
    destruct (unlock CLock (_c_lock m)) as [cell evs] eqn:El.
    simplify_eq. split; [| split].
    + eapply same_view_emit; [by eapply unlock_silent | done | done | done | done].
    + clause_done.
    + intros n inL unv det. clause_done.
  - (* WMutexUnlock *)
    simplify_eq. split; [| split].
    + eapply (same_view_emit _ [EvMutexUnlock t]); try done. by repeat constructor.
    + clause_done.
    + intros n inL unv det. clause_done.
  - (* WSetCancel *)
    simplify_eq. split; [| split].
    + apply same_view_refl.
    + clause_done.
    + intros n inL unv det. clause_done.
  - (* WWait *)
    assert (Hv : same_view m
                   (emit [EvTimedwait (Barrier t) (w_seq w) (w_clock w) (w_ts w)] m)).
    { eapply (same_view_emit _ [EvTimedwait _ _ _ _]); try done.
      by repeat constructor. }
    case_decide; simplify_eq; (split; [done |]); simpl; rewrite ?Epc; simpl;
      split; try tauto; intros n inL unv det; done.
  - (* WLock2 *)
    destruct (lock CLock ph (_c_lock m)) as [[cell nxt] evs] eqn:El.
    simplify_eq. split; [| split].
    + eapply same_view_emit; [by eapply lock_silent | done | done | done | done].
    + clause_done.
    + intros n inL unv det. clause_done.
  - (* WUnlock2 *)
    destruct (unlock CLock (_c_lock m)) as [cell evs] eqn:El.
    simplify_eq. split; [| split].
    + eapply same_view_emit; [by eapply unlock_silent | done | done | done | done].
    + clause_done.
    + intros n inL unv det. clause_done.
  - (* WNotify *)
    simplify_eq. split; [| split].
    + destruct (notify_signaler_frame t m)
        as (H1 & H2 & H3 & H4 & H5 & H6 & H7 & evs & H8 & H9 & _).
      destruct (notify_signaler_silent t m) as (evs' & H10 & H11).
      eapply (same_view_emit _ evs'); try done.
      intros a. by rewrite H6.
    + clause_done.
    + intros n inL unv det. clause_done.
  - (* WLockB *)
    destruct (lock (Barrier t) ph (barrier (nodes m t))) as [[cell nxt] evs] eqn:El.
    simplify_eq. split; [| split].
    + eapply same_view_emit; [by eapply lock_silent | done | done | | done].
      intros a. simpl. fn_cases; done.
    + clause_done.
    + intros n inL unv det. clause_done.
  - (* WMutexLock *)
    simplify_eq. split; [| split].
    + eapply (same_view_emit _ [EvMutexLock t (x_ret x)]); try done.
      by repeat constructor.
    + clause_done.
    + intros n inL unv det. clause_done.
  - (* WInc *)
    simplify_eq. split; [| split].
    + destruct (chain_begin_frame t m) as (H1 & H2 & H3 & H4 & H5 & H6).
      eapply (same_view_emit _ []); [constructor | done | done | | done].
      intros a. by rewrite H1.
    + clause_done.
    + intros n inL unv det. clause_done.
  - (* WRelease *)
    simplify_eq. split; [| split].
    + unfold chain_next, unlock_requeue.
      destruct (prev (nodes m t)) as [b |]; simpl.
      * eapply (same_view_emit _ [EvFutexRequeue _ _ _ _ _]); try done.
        { by repeat constructor. }
        intros a. simpl. fn_cases; done.
      * eapply (same_view_emit _ []); try done.
    + clause_done.
    + intros n inL unv det. clause_done.
  - (* WSuppress *)
    simplify_eq. split; [| split].
    + apply same_view_refl.
    + clause_done.
    + intros n inL unv det. clause_done.
  - (* WDone *)
    repeat case_match; simplify_eq; (split; [apply same_view_refl |]);
      simpl; (split; [tauto |]); intros ? ? ? ?; simpl; tauto.
Qed.

Lemma main_inv_wquiet σ t x m' w' :
  main_inv σ ->
  pthread_cond_timedwait t x (mem σ) (waiters σ t) = Some (m', w') ->
  quiet_pc (w_pc (waiters σ t)) ->
  main_inv (System m' (<[t := w']> (waiters σ)) (signalers σ)).
Proof.
  intros Hinv Hstep Hq.
  destruct (wstep_quiet _ _ _ _ _ _ Hstep Hq) as (Hv & Hpre & Hcl).
  pose proof Hinv as (Hwf & Hw & Hs & Hm).
  apply (main_inv_view σ); simpl; try done.
  - intros t1. destruct (decide (t = t1)) as [<- |]; fn_norm; [done | tauto].
  - intros t1. destruct (decide (t = t1)) as [<- |]; fn_norm.
    + apply Hcl. apply Hw.
    + apply Hw.
Qed.

(** The steps of [__private_cond_signal] that are no operation on the
    list or on the state of a node: all but a visit and the split. *)
Lemma sstep_quiet s m l m' l' :
  __private_cond_signal s m l = Some (m', l') ->
  s_pc l ≠ SSplit ->
  (s_pc l = SLoop -> s_p l = None ∨ s_n l = 0) ->
  same_view m m' ∧
  (∀ L vis, _c_tail m = last L ->
            sclause (s_pc l) (s_p l) L vis -> sclause (s_pc l') (s_p l') L vis).
Proof.
  intros Hstep Hns Hloop.
  unfold __private_cond_signal in Hstep.
  destruct (s_pc l) eqn:Epc; try done.
  - (* SEntry *)
    simplify_eq. split.
    + eapply (same_view_emit _ []); [constructor | done | done | done | done].
    + intros L vis _. simpl. done.
  - (* SLock *)
    destruct (lock CLock ph (_c_lock m)) as [[cell nxt] evs] eqn:El.
    simplify_eq. split.
    + eapply same_view_emit; [by eapply lock_silent | done | done | done | done].
    + intros L vis _. simpl. by destruct nxt.
  - (* SFor *)
    simplify_eq. split; [apply same_view_refl |].
    intros L vis Ht. simpl. intros ->. exists L. by rewrite app_nil_r.
  - (* SLoop, leaving the loop *)
    assert (Hm : Some (m, sgoto SSplit l) = Some (m', l')).
    { destruct (Hloop eq_refl) as [E | E]; rewrite E in Hstep; [done |].
      destruct (s_p l); [| done]. by rewrite decide_True in Hstep. }
    simplify_eq. split; [apply same_view_refl |].
    intros L vis _. simpl. done.
  - (* SUnlock *)
    destruct (unlock CLock (_c_lock m)) as [cell evs] eqn:El.
    simplify_eq. split.
    + eapply same_view_emit; [by eapply unlock_silent | done | done | done | done].
    + intros L vis _. simpl. done.
  - (* SWaitRef *)
    case_decide; simplify_eq.
    + split; [apply same_view_refl |]. intros L vis _. simpl. done.
    + split.
      * eapply (same_view_emit _ [EvFutexWait _ _]); try done. by repeat constructor.
      * intros L vis _. simpl. rewrite ?Epc. done.
  - (* SRelease *)
    destruct (s_first l) as [a |].
    + destruct (unlock (Barrier a) (barrier (nodes m a))) as [cell evs] eqn:El.
      simplify_eq. split.
      * eapply same_view_emit; [by eapply unlock_silent | done | done | | done].
        intros b. simpl. fn_cases; done.
      * intros L vis _. simpl. done.
    + simplify_eq. split; [apply same_view_refl |]. intros L vis _. simpl. done.
Qed.

Lemma main_inv_squiet σ s m' l' :
  main_inv σ ->
  __private_cond_signal s (mem σ) (signalers σ s) = Some (m', l') ->
  s_pc (signalers σ s) ≠ SSplit ->
  (s_pc (signalers σ s) = SLoop ->
   s_p (signalers σ s) = None ∨ s_n (signalers σ s) = 0) ->
  main_inv (System m' (waiters σ) (<[s := l']> (signalers σ))).
Proof.
  intros Hinv Hstep Hns Hloop.
  destruct (sstep_quiet _ _ _ _ _ Hstep Hns Hloop) as (Hv & Hcl).
  pose proof Hinv as (Hwf & Hw & Hs & Hm).
  apply (main_inv_view σ); simpl; try done.
  intros s1. destruct (decide (s = s1)) as [<- |]; fn_norm.
  - apply Hcl; [apply Hwf | apply Hs].
  - apply Hs.
Qed.

(** *** The steps that touch the list or the state of a node *)

Global Arguments upd_node _ _ _ /.
Global Arguments set_nodes _ _ /.
Global Arguments set_refs _ _ /.
Global Arguments set_c_lock _ _ /.
Global Arguments set_c_head _ _ /.
Global Arguments set_c_tail _ _ /.
Global Arguments set_m_lock _ _ /.
Global Arguments set_m_waiters _ _ /.
Global Arguments emit _ _ /.

Lemma filter_out_absent (t : addr) (l : list addr) :
  t ∉ l -> filter (fun a => a ≠ t) l = l.
Proof.
  induction l as [| b l IH]; intros Hni; [done |].
  rewrite filter_cons. apply not_elem_of_cons in Hni as [Hne Hni].
  rewrite decide_True by done. f_equal. by apply IH.
Qed.

Lemma filter_out_present (t : addr) (l1 l2 : list addr) :
  NoDup (l1 ++ t :: l2) -> filter (fun a => a ≠ t) (l1 ++ t :: l2) = l1 ++ l2.
Proof.
  intros Hnd. apply NoDup_app in Hnd as (_ & Hd & Hnd).
  apply NoDup_cons in Hnd as [Ht2 _].
  rewrite filter_app, filter_cons. rewrite decide_False by tauto.
  rewrite !filter_out_absent; [done | done |].
  intros Hin. apply (Hd t Hin). left.
Qed.

Lemma chain_links_in nd pv l nx a b :
  chain nd pv l nx -> a ∈ l ->
  (prev (nd a) = Some b -> b ∈ l ∨ pv = Some b) ∧
  (next (nd a) = Some b -> b ∈ l ∨ nx = Some b).
Proof.
  intros Hc Ha. apply list_elem_of_split in Ha as (l1 & l2 & ->).
  destruct (chain_mid' _ _ _ _ _ _ Hc) as [Hp Hn]. split.
  - rewrite Hp. unfold or_else. destruct (last l1) as [c |] eqn:El.
    + intros ?; simplify_eq. left. apply elem_of_app. left. by apply last_elem.
    + by right.
  - rewrite Hn. unfold or_else. destruct (head l2) as [c |] eqn:El.
    + intros ?; simplify_eq. left. apply elem_of_app. right. right.
      by apply head_elem.
    + by right.
Qed.

(** A node of the list is the node of a call that has inserted it. *)
Lemma attached_inserted σ t :
  wtable σ t -> t ∈ attached (trace (mem σ)) -> ¬ pre_insert (w_pc (waiters σ t)).
Proof.
  unfold wtable. intros Hw Hin Hpre.
  destruct (w_pc (waiters σ t)); simpl in *; tauto.
Qed.

Lemma wstep_entry t x m w m' w' :
  pthread_cond_timedwait t x m w = Some (m', w') ->
  w_pc w = WEntry ->
  m' = upd_node t (fun _ => waiter_zero) m ∧ w_oldstate w' = w_oldstate w ∧
  (w_pc w' = WLock1 LCas1 ∨ w_pc w' = WUnwound ∨ ∃ r, w_pc w' = WRet r).
Proof.
  intros Hstep Hpc. unfold pthread_cond_timedwait in Hstep. rewrite Hpc in Hstep.
  repeat case_match; simplify_eq; simpl; eauto 6.
Qed.

Lemma main_inv_entry σ t x m' w' :
  main_inv σ ->
  pthread_cond_timedwait t x (mem σ) (waiters σ t) = Some (m', w') ->
  w_pc (waiters σ t) = WEntry ->
  main_inv (System m' (<[t := w']> (waiters σ)) (signalers σ)).
Proof.
  intros (Hwf & Hw & Hs & Hm) Hstep Hpc.
  destruct (wstep_entry _ _ _ _ _ _ Hstep Hpc) as (-> & Hold & Hpc').
  pose proof (Hw t) as Ht. unfold wtable in Ht. rewrite Hpc in Ht.
  simpl in Ht. destruct Ht as [HtL Htv].
  split; [| split; [| split]]; simpl.
  - destruct Hwf as (H1 & H2 & H3 & H4). split; [done |]. split; [| done].
    eapply chain_ext; [| exact H2]. intros a Ha. simpl.
    rewrite fn_lookup_insert_ne; [done |]. intros ->. done.
  - intros t1. unfold wtable. simpl.
    destruct (decide (t = t1)) as [<- | Hne]; fn_norm.
    + destruct Hpc' as [-> | [-> | [r ->]]]; simpl; tauto.
    + pose proof (Hw t1) as Ht1. unfold wtable in Ht1. revert Ht1.
      apply wclause_mono; try done.
      intros [Hd1 Hd2]. right. split; [done |]. simpl.
      rewrite fn_lookup_insert_ne by done.
      intros b Hb. destruct (Hd2 b Hb) as [Hb1 Hb2]. split; [done |].
      rewrite fn_lookup_insert_ne; [done |]. intros ->.
      apply Hb2. by rewrite Hpc.
  - apply Hs.
  - intros a Ha. simpl in *.
    rewrite fn_lookup_insert_ne by (intros ->; done).
    by apply Hm.
Qed.

Lemma main_inv_cas σ t x m' w' :
  main_inv σ ->
  pthread_cond_timedwait t x (mem σ) (waiters σ t) = Some (m', w') ->
  w_pc (waiters σ t) = WCas ->
  main_inv (System m' (<[t := w']> (waiters σ)) (signalers σ)).
Proof.
  intros (Hwf & Hw & Hs & Hm) Hstep Hpc.
  unfold pthread_cond_timedwait in Hstep. rewrite Hpc in Hstep.
  unfold a_cas in Hstep. simplify_eq.
  pose proof (Hw t) as Ht. unfold wtable in Ht. rewrite Hpc in Ht. simpl in Ht.
  split; [| split; [| split]]; simpl.
  - destruct Hwf as (H1 & H2 & H3 & H4). split; [done |]. split; [| done].
    eapply chain_ext; [| exact H2]. intros a Ha. simpl. fn_cases; done.
  - intros t1. unfold wtable. simpl.
    destruct (decide (t = t1)) as [<- | Hne]; fn_norm.
    + destruct Ht as [[E1 E2] | E1]; rewrite E1.
      * rewrite !decide_True by done. simpl. tauto.
      * rewrite !decide_False by done. simpl. done.
    + pose proof (Hw t1) as Ht1. unfold wtable in Ht1. revert Ht1.
      apply wclause_mono; try done.
      intros [Hd1 Hd2]. right. split; [done |]. simpl.
      rewrite fn_lookup_insert_ne by done.
      intros b Hb. destruct (Hd2 b Hb) as [Hb1 Hb2]. split; [done |].
      destruct (decide (t = b)) as [<- |]; fn_norm; [| done].
      simpl. case_decide; simpl; tauto.
  - apply Hs.
  - intros a Ha. simpl in *.
    destruct (Hm a Ha) as [M1 M2].
    destruct (decide (t = a)) as [<- | Hne]; fn_norm; [| done].
    destruct Ht as [[E1 E2] | E1]; rewrite E1 in *; simpl.
    + split.
      * intros Hu. destruct (M1 Hu) as [_ ->]. done.
      * intros s Hv. destruct (M2 s Hv) as [? | [? ?]]; done.
    + done.
Qed.

(** No signaler is in its walk while a waiter is under the lock. *)
Lemma sclause_outside (σ : system) (t s : addr) :
  lock_inv σ -> wcs (w_pc (waiters σ t)) -> ¬ scs (s_pc (signalers σ s)).
Proof. intros (_ & _ & _ & _ & I5) Ht Hs. by apply (I5 t s). Qed.

Lemma main_inv_insert σ t x m' w' :
  lock_inv σ -> main_inv σ ->
  pthread_cond_timedwait t x (mem σ) (waiters σ t) = Some (m', w') ->
  w_pc (waiters σ t) = WInsert ->
  main_inv (System m' (<[t := w']> (waiters σ)) (signalers σ)).
Proof.
  intros Hl (Hwf & Hw & Hs & Hm) Hstep Hpc.
  pose proof (Hw t) as Ht. unfold wtable in Ht. rewrite Hpc in Ht. simpl in Ht.
  destruct Ht as (HtL & Htv & Hp & Hno & Hst).
  destruct (enqueue_attached _ _ _ Hwf HtL Hp)
    as (m1 & Henq & Hwf1 & E1 & E2 & E3 & E4 & E5 & E6 & E7 & E8 & E9).
  unfold pthread_cond_timedwait in Hstep. rewrite Hpc, Henq in Hstep.
  simpl in Hstep. simplify_eq.
  unfold main_inv, wtable, stable, marks, detached_ok. simpl. rewrite E3.
  split; [| split; [| split]].
  - destruct Hwf1 as (H1 & H2 & H3 & H4). done.
  - intros t1.
    destruct (decide (t = t1)) as [<- | Hne]; fn_norm.
    + left. split; [done | left].
    + pose proof (Hw t1) as Ht1. unfold wtable in Ht1. revert Ht1.
      destruct (E8 t1) as (Es & _ & En); [done |].
      apply wclause_mono; try done.
      * intros Hpre. rewrite E9; [done |].
        apply not_elem_of_cons. split; [done |].
        intros Hin. by apply (attached_inserted σ t1).
      * rewrite elem_of_cons. split; [by right | intros [-> | ?]; done].
      * intros [Hd1 Hd2]. right. split.
        { apply not_elem_of_cons. done. }
        rewrite E9 by (apply not_elem_of_cons; done).
        intros b Hb. destruct (Hd2 b Hb) as [Hb1 Hb2].
        assert (Hbt : t ≠ b). { intros <-. apply Hb2. by rewrite Hpc. }
        fn_norm. split; [| done]. apply not_elem_of_cons. done.
  - intros s. pose proof (Hs s) as Hss. unfold stable in Hss.
    assert (Hout : ¬ scs (s_pc (signalers σ s))).
    { apply (sclause_outside σ t s); [done |]. by rewrite Hpc. }
    destruct (s_pc (signalers σ s)); simpl in *; try tauto.
    all: intros a Ha; apply not_elem_of_cons; split; [| by apply Hss];
      intros ->; by apply (Htv s).
  - intros a Ha. apply elem_of_cons in Ha as [-> | Ha].
    + rewrite E5, E7, Hno. split; [done |]. intros s Hv. by destruct (Htv s).
    + assert (Hat : a ≠ t) by (intros ->; done).
      destruct (E8 a Hat) as (-> & _ & ->). by apply Hm.
Qed.
(** Lines 130-137 on a node that a split has detached: the list is left
    alone. *)
Lemma unlink_detached m t l :
  wf_list m l -> t ∉ l ->
  (∀ b, prev (nodes m t) = Some b ∨ next (nodes m t) = Some b -> b ∉ l) ->
  wf_list (unlink t m) l.
Proof.
  intros (Hnd & Hc & Hh & Ht) Hni Hlinks.
  assert (Hht : _c_head m ≠ Some t).
  { rewrite Hh. intros E. apply Hni. by apply head_elem. }
  assert (Htt : _c_tail m ≠ Some t).
  { rewrite Ht. intros E. apply Hni. by apply last_elem. }
  split; [done |]. split; [| split].
  - eapply chain_ext; [| exact Hc]. intros a Ha.
    rewrite unlink_other; [done | |].
    + intros E. apply (Hlinks a); [by left | done].
    + intros E. apply (Hlinks a); [by right | done].
  - rewrite <- Hh. rewrite unlink_reads. simpl.
    opt_cases; simpl in *; congruence.
  - rewrite <- Ht. rewrite unlink_reads. simpl.
    destruct (decide (_c_head m = Some t)); [done |].
    destruct (prev (nodes m t)); simpl;
      (destruct (decide (_c_tail m = Some t)); [done |]);
      destruct (next (nodes m t)); done.
Qed.

Lemma main_inv_unlink σ t x m' w' :
  lock_inv σ -> main_inv σ ->
  pthread_cond_timedwait t x (mem σ) (waiters σ t) = Some (m', w') ->
  w_pc (waiters σ t) = WUnlink ->
  main_inv (System m' (<[t := w']> (waiters σ)) (signalers σ)).
Proof.
  intros Hl (Hwf & Hw & Hs & Hm) Hstep Hpc.
  pose proof (Hw t) as Ht. unfold wtable in Ht. rewrite Hpc in Ht. simpl in Ht.
  destruct Ht as (Hold & Hst & Hin).
  unfold pthread_cond_timedwait in Hstep. rewrite Hpc in Hstep. simplify_eq.
  destruct (unlink_frame t (mem σ)) as (F1 & F2 & F3 & F4 & F5 & F6 & F7).
  set (L := attached (trace (mem σ))) in *.
  set (L' := filter (fun a => a ≠ t) L).
  assert (HL' : ∀ a, a ∈ L' ↔ a ∈ L ∧ a ≠ t).
  { intros a. unfold L'. rewrite list_elem_of_filter. tauto. }
  assert (Hcases :
    wf_list (unlink t (mem σ)) L' ∧
    (∀ a, pre_insert (w_pc (waiters σ a)) ->
          nodes (unlink t (mem σ)) a = nodes (mem σ) a) ∧
    (∀ a b, a ∉ L -> a ≠ t ->
            prev (nodes (unlink t (mem σ)) a) = Some b ∨
            next (nodes (unlink t (mem σ)) a) = Some b ->
            (prev (nodes (mem σ) a) = Some b ∨ next (nodes (mem σ) a) = Some b) ∨
            ((b ∉ L) ∧ ¬ pre_insert (w_pc (waiters σ b))))).
  { destruct (decide (t ∈ L)) as [HtL | HtL].
    - apply list_elem_of_split in HtL as (l1 & l2 & EL).
      assert (EL' : L' = l1 ++ l2).
      { unfold L'. rewrite EL. apply filter_out_present. rewrite <- EL. apply Hwf. }
      assert (Hsame : ∀ a, a ∉ L -> nodes (unlink t (mem σ)) a = nodes (mem σ) a).
      { intros a Ha.
        destruct Hwf as (_ & Hc & _). rewrite EL in Hc.
        assert (Ht' : t ∈ l1 ++ t :: l2) by (apply elem_of_app; right; left).
        apply unlink_other.
        * intros E. destruct (chain_links_in _ _ _ _ t a Hc Ht') as [H1 _].
          destruct (H1 E) as [? | ?]; [| done]. apply Ha. by rewrite EL.
        * intros E. destruct (chain_links_in _ _ _ _ t a Hc Ht') as [_ H1].
          destruct (H1 E) as [? | ?]; [| done]. apply Ha. by rewrite EL. }
      rewrite EL'. split; [| split].
      + apply unlink_attached. by rewrite <- EL.
      + intros a Ha. apply Hsame. intros HaL.
        by apply (attached_inserted σ a).
      + intros a b Ha Hat Hb. left. by rewrite Hsame in Hb.
    - destruct Hin as [? | Hdet]; [done |].
      assert (EL' : L' = L) by (by apply filter_out_absent).
      rewrite EL'. split; [| split].
      + apply unlink_detached; [done | done |].
        intros b Hb. by destruct (proj2 Hdet b Hb).
      + intros a Ha. apply unlink_other.
        * intros E. destruct (proj2 Hdet a) as [_ H1]; [by left | done].
        * intros E. destruct (proj2 Hdet a) as [_ H1]; [by right | done].
      + intros a b Ha Hat Hb.
        destruct (unlink_links _ _ _ _ Hb) as [? | Hb']; [by left | right].
        by apply (proj2 Hdet). }
  destruct Hcases as (Hwf' & Hpre & Hlinks).
  unfold main_inv, wtable, stable, marks, detached_ok. simpl. rewrite F6.
  fold L. fold L'.
  split; [| split; [| split]].
  - destruct Hwf' as (H1 & H2 & H3 & H4). done.
  - intros t1.
    destruct (decide (t = t1)) as [<- | Hne]; fn_norm.
    + split; [done |]. split; [by rewrite (proj1 (F7 t)) |].
      rewrite HL'. tauto.
    + pose proof (Hw t1) as Ht1. unfold wtable in Ht1. revert Ht1.
      destruct (F7 t1) as (Es & _ & En).
      apply wclause_mono; try done.
      * intros Hp. by rewrite Hpre.
      * fold L. rewrite HL'. split; [by intros ? | tauto].
      * fold L. intros [Hd1 Hd2]. right. split; [rewrite HL'; tauto |].
        intros b Hb.
        assert (Hold_or : (b ∉ L) ∧ ¬ pre_insert (w_pc (waiters σ b))).
        { destruct (Hlinks t1 b Hd1 (not_eq_sym Hne) Hb) as [Hb' | Hb']; [| done].
          by apply Hd2. }
        destruct Hold_or as [Hb1 Hb2]. split; [rewrite HL'; tauto |].
        destruct (decide (t = b)) as [<- |]; fn_norm; [| done]. simpl. tauto.
  - intros s. pose proof (Hs s) as Hss. unfold stable in Hss. fold L in Hss.
    assert (Hout : ¬ scs (s_pc (signalers σ s))).
    { apply (sclause_outside σ t s); [done |]. by rewrite Hpc. }
    destruct (s_pc (signalers σ s)); simpl in *; try tauto.
    all: intros a Ha; rewrite HL'; intros [? _]; by apply (Hss a).
  - intros a Ha. apply HL' in Ha as [Ha Hat].
    destruct (F7 a) as (-> & _ & ->). by apply Hm.
Qed.
Lemma visited_cas s s0 a old tr :
  visited s0 (EvSignalCas s a old :: tr) =
    if decide (s = s0) then a :: visited s0 tr else visited s0 tr.
Proof. reflexivity. Qed.

Lemma main_inv_visit σ s a m' l' :
  lock_inv σ -> main_inv σ ->
  s_pc (signalers σ s) = SLoop -> s_p (signalers σ s) = Some a ->
  visit s a (mem σ) (signalers σ s) = Some (m', l') ->
  main_inv (System m' (waiters σ) (<[s := l']> (signalers σ))).
Proof.
  intros Hl (Hwf & Hw & Hs & Hm) Hpc Hp Hstep.
  destruct (visit_frame _ _ _ _ _ _ Hstep)
    as (V1 & V2 & V3 & V4 & V5 & V6 & V7 & V8 & V9 & V10 & V11 & V12).
  set (L := attached (trace (mem σ))) in *.
  pose proof (Hs s) as Hss. unfold stable in Hss. rewrite Hpc, Hp in Hss.
  simpl in Hss. destruct Hss as (L1 & EL & Hlast). fold L in EL.
  symmetry in Hlast. apply last_Some in Hlast as [L0 ->].
  rewrite <- app_assoc in EL. simpl in EL.
  assert (HaL : a ∈ L).
  { rewrite EL. apply elem_of_app. right. left. }
  assert (Hnd : NoDup L) by apply Hwf.
  (* no signaler has been at the node *)
  assert (Hunv : ∀ s0, a ∉ visited s0 (trace (mem σ))).
  { intros s0 Hv. destruct (decide (s0 = s)) as [-> | Hne].
    - rewrite EL in Hnd. apply NoDup_app in Hnd as (_ & _ & Hnd).
      by apply NoDup_cons in Hnd as [Hnd _].
    - pose proof (Hs s0) as Hs0. unfold stable in Hs0.
      destruct Hl as (_ & _ & _ & I4 & _).
      assert (Hout : ¬ scs (s_pc (signalers σ s0))).
      { intros Hin. apply Hne. apply I4; [done |]. by rewrite Hpc. }
      destruct (s_pc (signalers σ s0)); simpl in *; try tauto.
      all: try (rewrite Hs0 in Hv; by apply elem_of_nil in Hv).
      all: by apply (Hs0 a). }
  destruct (Hm a HaL) as [M1 _]. destruct (M1 Hunv) as [Hns Hno].
  assert (Hvis : ∀ s0 b, b ∈ visited s0 (trace m') ↔
                         (s0 = s ∧ b = a) ∨ b ∈ visited s0 (trace (mem σ))).
  { intros s0 b. rewrite V6, visited_cas.
    destruct (decide (s = s0)) as [-> | Hne].
    - rewrite elem_of_cons. tauto.
    - split; [tauto |]. intros [[? _] | ?]; [congruence | done]. }
  assert (Hatt : attached (trace m') = L).
  { by rewrite V6. }
  assert (Hnew : (state (nodes (mem σ) a) = WAITING ∧
                  state (nodes m' a) = SIGNALED) ∨
                 (state (nodes (mem σ) a) = LEAVING ∧
                  state (nodes m' a) = LEAVING ∧ notify (nodes m' a) = Some s)).
  { destruct (decide (state (nodes (mem σ) a) = WAITING)) as [E | E].
    - left. split; [done |]. by apply V11.
    - right. destruct (V12 E) as (E1 & E2 & _).
      assert (state (nodes (mem σ) a) = LEAVING)
        by (destruct (state (nodes (mem σ) a)); done).
      split; [done |]. split; [congruence | done]. }
  unfold main_inv, wtable, stable, marks, detached_ok. simpl. rewrite Hatt.
  split; [| split; [| split]].
  - destruct Hwf as (H1 & H2 & H3 & H4). split; [done |].
    split; [| split; congruence].
    eapply chain_ext; [| exact H2]. intros b _. destruct (V7 b) as (-> & -> & _). done.
  - intros t1.
    pose proof (Hw t1) as Ht1. unfold wtable in Ht1. fold L in Ht1.
    destruct (decide (t1 = a)) as [-> | Hne].
    + (* the waiter of the node visited *)
      destruct Hnew as [(Eo & En) | (Eo & En & Enn)];
        destruct (w_pc (waiters σ a)); simpl in *; rewrite ?En; rewrite ?Eo in Ht1;
        intuition congruence.
    + revert Ht1. rewrite (V8 t1 Hne).
      apply wclause_mono; try done.
      * intros Hu s0 Hv. apply Hvis in Hv as [[_ ?] | ?]; [done |]. by apply (Hu s0).
      * intros [Hd1 Hd2]. right. done.
  - intros s0. destruct (decide (s = s0)) as [<- | Hne]; fn_norm.
    + rewrite V5, Hpc. simpl. exists L0. rewrite V6, visited_cas.
      rewrite decide_True by done. split; [done |].
      rewrite V10.
      destruct Hwf as (_ & Hc & _). fold L in Hc. rewrite EL in Hc.
      destruct (chain_mid' _ _ _ _ _ _ Hc) as [Hpa _].
      by rewrite or_else_None in Hpa.
    + pose proof (Hs s0) as Hs0. unfold stable in Hs0. fold L in Hs0.
      rewrite V6, visited_cas. by rewrite decide_False.
  - intros b Hb. destruct (Hm b Hb) as [M1b M2b].
    destruct (decide (b = a)) as [-> | Hne].
    + split.
      * intros Hu. exfalso. apply (Hu s). apply Hvis. by left.
      * intros s0 Hv. apply Hvis in Hv as [[-> _] | Hv]; [| by destruct (Hunv s0)].
        destruct Hnew as [[_ ?] | (_ & ? & ?)]; [by left | by right].
    + rewrite (V8 b Hne). split.
      * intros Hu. apply M1b. intros s0 Hv. apply (Hu s0). apply Hvis. by right.
      * intros s0 Hv. apply Hvis in Hv as [[_ ?] | Hv]; [done |]. by apply M2b.
Qed.
Lemma attached_split s p tr l1 l2 :
  attached tr = l1 ++ l2 -> NoDup (l1 ++ l2) -> p = last l1 ->
  attached (EvSplit s p :: tr) = l1.
Proof.
  intros EL Hnd ->. simpl. rewrite EL.
  destruct (last l1) as [a |] eqn:El.
  - by apply keep_through_last.
  - apply last_None in El. by subst.
Qed.

Lemma main_inv_split σ s m' l' :
  lock_inv σ -> main_inv σ ->
  s_pc (signalers σ s) = SSplit ->
  __private_cond_signal s (mem σ) (signalers σ s) = Some (m', l') ->
  main_inv (System m' (waiters σ) (<[s := l']> (signalers σ))).
Proof.
  intros Hl (Hwf & Hw & Hs & Hm) Hpc Hstep.
  unfold __private_cond_signal in Hstep. rewrite Hpc in Hstep. simplify_eq.
  set (L := attached (trace (mem σ))) in *.
  pose proof (Hs s) as Hss. unfold stable in Hss. rewrite Hpc in Hss.
  simpl in Hss. destruct Hss as (L1 & EL & Hlast). fold L in EL.
  set (vis := visited s (trace (mem σ))) in *.
  assert (Hnd : NoDup (L1 ++ vis)). { rewrite <- EL. apply Hwf. }
  assert (Hdisj : ∀ a, a ∈ L1 -> a ∉ vis).
  { by apply NoDup_app in Hnd as (_ & Hnd & _). }
  rewrite EL in Hwf.
  destruct (split_attached _ _ _ Hwf) as (Hwf1 & Hc2 & Hsn & Hsame).
  rewrite <- Hlast in Hwf1, Hc2, Hsn, Hsame.
  assert (Hatt : attached (EvSplit s (s_p (signalers σ s)) :: trace (mem σ)) = L1).
  { by eapply attached_split. }
  unfold main_inv, wtable, stable, marks, detached_ok.
  cbn [mem waiters signalers emit trace nodes _c_head _c_tail app].
  assert (Etr : trace (split (s_p (signalers σ s)) (mem σ)) = trace (mem σ)).
  { unfold split. by repeat case_match. }
  rewrite Etr, Hatt. cbn [visited]. fold vis.
  split; [| split; [| split]].
  - destruct Hwf1 as (H1 & H2 & H3 & H4). done.
  - intros t1.
    pose proof (Hw t1) as Ht1. unfold wtable in Ht1. fold L in Ht1.
    destruct (Hsn t1) as (Es & _ & En).
    destruct (decide (t1 ∈ vis)) as [Hv | Hv].
    + (* a node that the split detaches *)
      assert (HtL : t1 ∈ L). { rewrite EL. apply elem_of_app. by right. }
      assert (Ht1' : t1 ∉ L1). { intros Hin. by apply (Hdisj t1). }
      destruct (Hm t1 HtL) as [_ M2]. specialize (M2 s Hv).
      assert (Hdet : ∀ b,
                prev (nodes (split (s_p (signalers σ s)) (mem σ)) t1) = Some b ∨
                next (nodes (split (s_p (signalers σ s)) (mem σ)) t1) = Some b ->
                (b ∉ L1) ∧ ¬ pre_insert (w_pc (waiters σ b))).
      { intros b Hb.
        destruct (chain_links_in _ _ _ _ t1 b Hc2 Hv) as [H1 H2].
        assert (Hbv : b ∈ vis).
        { destruct Hb as [Hb | Hb]; [destruct (H1 Hb) | destruct (H2 Hb)]; done. }
        split; [intros Hin; by apply (Hdisj b) |].
        apply attached_inserted; [apply Hw |]. fold L. rewrite EL.
        apply elem_of_app. by right. }
      destruct (w_pc (waiters σ t1)); simpl in *; rewrite ?Es;
        intuition congruence.
    + revert Ht1.
      assert (Hiff : t1 ∈ L ↔ t1 ∈ L1).
      { rewrite EL, elem_of_app. tauto. }
      apply wclause_mono; try done.
      * intros Hpre. rewrite Hsame; [done |]. rewrite <- EL.
        intros Hin. by apply (attached_inserted σ t1).
      * intros [Hd1 Hd2]. right. split; [tauto |].
        rewrite Hsame by (by rewrite <- EL).
        intros b Hb. destruct (Hd2 b Hb) as [Hb1 Hb2]. split; [| done].
        intros Hin. apply Hb1. fold L. rewrite EL. apply elem_of_app. by left.
  - intros s0. destruct (decide (s = s0)) as [<- | Hne]; fn_norm.
    + simpl. intros a Ha Hin. by apply (Hdisj a).
    + pose proof (Hs s0) as Hs0. unfold stable in Hs0. fold L in Hs0.
      destruct Hl as (_ & _ & _ & I4 & _).
      assert (Hout : ¬ scs (s_pc (signalers σ s0))).
      { intros Hin. apply Hne. apply I4; [by rewrite Hpc | done]. }
      destruct (s_pc (signalers σ s0)); simpl in *; try tauto.
      all: intros a Ha Hin; apply (Hs0 a Ha); rewrite EL; apply elem_of_app; by left.
  - intros a Ha.
    assert (HaL : a ∈ L). { rewrite EL. apply elem_of_app. by left. }
    destruct (Hsn a) as (-> & _ & ->). by apply Hm.
Qed.
(** *** The invariant holds in every reachable state *)

Definition inv (σ : system) : Prop := lock_inv σ ∧ main_inv σ.

Lemma main_inv_initial σ : initial σ -> main_inv σ.
Proof.
  intros (_ & Hh & Ht & Htr & Hw & Hs).
  unfold main_inv, wf_list, wtable, stable, marks. rewrite Htr, Hh, Ht. simpl.
  split; [| split; [| split]].
  - split; [apply NoDup_nil_2 | done].
  - intros t. rewrite Hw. simpl. split; [apply not_elem_of_nil |].
    intros s. apply not_elem_of_nil.
  - intros s. by rewrite Hs.
  - intros a Ha. by apply elem_of_nil in Ha.
Qed.

Lemma main_inv_step σ σ' : lock_inv σ -> main_inv σ -> step σ σ' -> main_inv σ'.
Proof.
  intros Hl Hinv Hstep.
  inversion Hstep as [t x m wt st m' w' Hw | s m wt st m' l' Hs]; subst.
  - destruct (w_pc (wt t)) eqn:Epc.
    all: try (apply (main_inv_wquiet (System m wt st) t x); try done;
              simpl; by rewrite Epc).
    + by apply (main_inv_entry (System m wt st) t x).
    + by apply (main_inv_insert (System m wt st) t x).
    + by apply (main_inv_cas (System m wt st) t x).
    + by apply (main_inv_unlink (System m wt st) t x).
  - destruct (decide (s_pc (st s) = SSplit)) as [Hp | Hp].
    + by apply (main_inv_split (System m wt st) s).
    + destruct (s_p (st s)) as [a |] eqn:Ea.
      2: { apply (main_inv_squiet (System m wt st) s); try done.
           simpl. intros _. by left. }
      destruct (decide (s_n (st s) = 0)) as [Hn | Hn].
      { apply (main_inv_squiet (System m wt st) s); try done.
        simpl. intros _. by right. }
      destruct (decide (s_pc (st s) = SLoop)) as [Hloop | Hloop].
      * apply (main_inv_visit (System m wt st) s a); try done.
        simpl. unfold __private_cond_signal in Hs. rewrite Hloop, Ea in Hs.
        by rewrite decide_False in Hs.
      * apply (main_inv_squiet (System m wt st) s); try done.
Qed.

Lemma inv_step σ σ' : inv σ -> step σ σ' -> inv σ'.
Proof.
  intros [Hl Hm] Hstep. split.
  - by eapply lock_inv_step.
  - by eapply main_inv_step.
Qed.

Lemma inv_reachable σ : reachable σ -> inv σ.
Proof.
  intros (σ0 & Hinit & Hrtc).
  assert (H0 : inv σ0).
  { split; [by apply lock_inv_initial | by apply main_inv_initial]. }
  clear Hinit. induction Hrtc as [| σ1 σ2 σ3 Hstep _ IH]; [done |].
  apply IH. by eapply inv_step.
Qed.

(** ** Schedules *)

(** One step of one call: of the call of [pthread_cond_timedwait] at [t],
    with what the environment decides in it, or of the call of
    [__private_cond_signal] at [s]. *)
Inductive action :=
  | AWait (t : addr) (x : ext)
  | ASignal (s : addr).

Definition act (a : action) (σ : system) : option system :=
  match a with
  | AWait t x =>
      match pthread_cond_timedwait t x (mem σ) (waiters σ t) with
      | Some (m', w') => Some (System m' (<[t := w']> (waiters σ)) (signalers σ))
      | None => None
      end
  | ASignal s =>
      match __private_cond_signal s (mem σ) (signalers σ s) with
      | Some (m', l') => Some (System m' (waiters σ) (<[s := l']> (signalers σ)))
      | None => None
      end
  end.

Fixpoint exec (sch : list action) (σ : system) : option system :=
  match sch with
  | [] => Some σ
  | a :: sch' =>
      match act a σ with
      | Some σ' => exec sch' σ'
      | None => None
      end
  end.

Lemma act_step a σ σ' : act a σ = Some σ' -> step σ σ'.
Proof.
  destruct σ as [m wt st]. destruct a as [t x | s]; simpl.
  - destruct (pthread_cond_timedwait t x m (wt t)) as [[m' w'] |] eqn:E; [| done].
    intros ?; simplify_eq. by eapply step_wait.
  - destruct (__private_cond_signal s m (st s)) as [[m' l'] |] eqn:E; [| done].
    intros ?; simplify_eq. by eapply step_signal.
Qed.

Lemma exec_rtc sch σ σ' : exec sch σ = Some σ' -> rtc step σ σ'.
Proof.
  revert σ. induction sch as [| a sch IH]; simpl; intros σ H.
  - by simplify_eq.
  - destruct (act a σ) as [σ1 |] eqn:E; [| done].
    eapply rtc_l; [by eapply act_step | by apply IH].
Qed.

(** The system at rest: a normal mutex, an empty list; the call of
    [__private_cond_signal] at 0 is a signal ([n = 1]), the others are
    broadcasts ([n = -1]). *)
Definition rest : system :=
  {| mem := idle_mem 0;
     waiters := fun _ => entry_call 7 None;
     signalers := fun s => signal_call (if decide (s = 0%nat) then 1 else -1) |}.

Lemma rest_initial : initial rest.
Proof. repeat split. Qed.

Lemma exec_reachable sch σ : exec sch rest = Some σ -> reachable σ.
Proof. intros H. exists rest. split; [apply rest_initial | by eapply exec_rtc]. Qed.

Definition timed_out : ext := Ext ETIMEDOUT 0 false.

(** Up to the blocking step: entry, lock, insertion, unlock, release of
    the mutex, masking of cancellation. *)
Definition arrive (t : addr) : list action :=
  [AWait t example_ext; AWait t example_ext; AWait t example_ext;
   AWait t example_ext; AWait t example_ext; AWait t example_ext].

Definition race : list action :=
  arrive 0%nat ++ arrive 1%nat ++
  [AWait 0%nat timed_out; AWait 0%nat example_ext;   (* 0 times out: WCas *)
   ASignal 1%nat; ASignal 1%nat; ASignal 1%nat;      (* broadcast takes the lock *)
   AWait 0%nat example_ext; AWait 0%nat example_ext; AWait 0%nat example_ext;
   ASignal 1%nat; ASignal 1%nat; ASignal 1%nat; ASignal 1%nat].

(** ** The compare-and-exchange on the state of a node is won once *)

(** How often the call at [t] has won its own compare-and-exchange (line
    111), and how often a signaler has won one on the node of [t] (line
    222), by the trace. *)
Fixpoint wwins (t : addr) (tr : list event) : nat :=
  match tr with
  | [] => 0
  | EvWaiterCas t' old :: tr' =>
      if decide (t' = t ∧ old = WAITING) then S (wwins t tr') else wwins t tr'
  | _ :: tr' => wwins t tr'
  end.

Fixpoint swins (t : addr) (tr : list event) : nat :=
  match tr with
  | [] => 0
  | EvSignalCas _ p old :: tr' =>
      if decide (p = t ∧ old = WAITING) then S (swins t tr') else swins t tr'
  | _ :: tr' => swins t tr'
  end.

(** The events that are no compare-and-exchange on a state. *)
Definition no_cas (ev : event) : Prop :=
  match ev with
  | EvWaiterCas _ _ | EvSignalCas _ _ _ => False
  | _ => True
  end.

Lemma no_cas_wins t evs tr :
  Forall no_cas evs ->
  wwins t (evs ++ tr) = wwins t tr ∧ swins t (evs ++ tr) = swins t tr.
Proof.
  induction 1 as [| ev evs Hev _ IH]; [done |].
  simpl. by destruct ev.
Qed.

Lemma silent_no_cas evs : Forall silent evs -> Forall no_cas evs.
Proof. intros H. eapply Forall_impl; [exact H |]. by intros []. Qed.

(** The state of the node of a call, a node that its call has yet to
    initialise counting as WAITING. *)
Definition est (σ : system) (t : addr) : wstate :=
  if decide (w_pc (waiters σ t) = WEntry) then WAITING
  else state (nodes (mem σ) t).

Definition cas_ok (st : wstate) (w s : nat) : Prop :=
  match st with
  | WAITING => w = 0%nat ∧ s = 0%nat
  | LEAVING => w = 1%nat ∧ s = 0%nat
  | SIGNALED => w = 0%nat ∧ s = 1%nat
  end.

Definition cas_inv (σ : system) : Prop :=
  ∀ t, cas_ok (est σ t) (wwins t (trace (mem σ))) (swins t (trace (mem σ))).

Lemma wstep_not_entry t x m w m' w' :
  pthread_cond_timedwait t x m w = Some (m', w') -> w_pc w' ≠ WEntry.
Proof.
  intros Hstep. wstep_cases Hstep; simpl; try done; try congruence;
    by repeat case_match.
Qed.

(** A step that changes neither the effective state of a node nor the
    number of compare-and-exchanges won keeps the count right. *)
Lemma cas_inv_frame σ σ' :
  cas_inv σ ->
  (∀ t, est σ' t = est σ t) ->
  (∃ evs, trace (mem σ') = evs ++ trace (mem σ) ∧ Forall no_cas evs) ->
  cas_inv σ'.
Proof.
  intros Hc He (evs & Htr & Hev) t.
  rewrite He, Htr. destruct (no_cas_wins t evs (trace (mem σ)) Hev) as [-> ->].
  apply Hc.
Qed.

Lemma est_other σ t m' w' st' a :
  w_pc (waiters σ t) ≠ WEntry -> w_pc w' ≠ WEntry ->
  state (nodes m' a) = state (nodes (mem σ) a) ->
  est (System m' (<[t := w']> (waiters σ)) st') a = est σ a.
Proof.
  intros H1 H2 Hs. unfold est. simpl.
  destruct (decide (t = a)) as [<- |]; fn_norm; [| by rewrite Hs].
  rewrite !decide_False by done. done.
Qed.

Lemma cas_inv_wstep σ t x m' w' :
  main_inv σ -> cas_inv σ ->
  pthread_cond_timedwait t x (mem σ) (waiters σ t) = Some (m', w') ->
  cas_inv (System m' (<[t := w']> (waiters σ)) (signalers σ)).
Proof.
  intros (Hwf & Hw & _) Hc Hstep.
  pose proof (wstep_not_entry _ _ _ _ _ _ Hstep) as Hne.
  assert (Hquiet : quiet_pc (w_pc (waiters σ t)) ->
          cas_inv (System m' (<[t := w']> (waiters σ)) (signalers σ))).
  { intros Hq.
    destruct (wstep_quiet _ _ _ _ _ _ Hstep Hq) as ((_ & _ & Hn & evs & Htr & Hev) & _).
    apply (cas_inv_frame σ); [done | | ].
    - intros a. apply est_other; [| done | apply Hn].
      intros E. by rewrite E in Hq.
    - exists evs. split; [done | by apply silent_no_cas]. }
  pose proof (Hw t) as Ht. unfold wtable in Ht.
  destruct (w_pc (waiters σ t)) eqn:Epc; try (by apply Hquiet).
  - (* WEntry *)
    destruct (wstep_entry _ _ _ _ _ _ Hstep Epc) as (-> & _ & _).
    apply (cas_inv_frame σ); [done | | by exists []].
    intros a. unfold est. simpl.
    destruct (decide (t = a)) as [<- |]; fn_norm; [| done].
    rewrite Epc. rewrite decide_False by done. by rewrite decide_True.
  - (* WInsert *)
    simpl in Ht. destruct Ht as (HtL & Htv & Hp & Hno & Hst).
    destruct (enqueue_attached _ _ _ Hwf HtL Hp)
      as (m1 & Henq & Hwf1 & E1 & E2 & E3 & E4 & E5 & E6 & E7 & E8 & E9).
    unfold pthread_cond_timedwait in Hstep. rewrite Epc, Henq in Hstep.
    simpl in Hstep. simplify_eq.
    apply (cas_inv_frame σ); [done | | ].
    + intros a. apply est_other; simpl; [by rewrite Epc | done |].
      destruct (decide (a = t)) as [-> |]; [congruence | by apply E8].
    + exists [EvInsert t]. simpl. rewrite E3. split; [done |]. by repeat constructor.
  - (* WCas *)
    unfold pthread_cond_timedwait in Hstep. rewrite Epc in Hstep.
    unfold a_cas in Hstep. simplify_eq.
    intros a. specialize (Hc a). revert Hc. unfold est. simpl.
    destruct (decide (t = a)) as [<- | Hta]; fn_norm.
    + rewrite Epc.
      repeat case_decide; simplify_eq;
        destruct (state (nodes (mem σ) t)); simpl in *; intuition congruence.
    + rewrite (decide_False (P := t = a ∧ _)) by tauto. done.
  - (* WUnlink *)
    unfold pthread_cond_timedwait in Hstep. rewrite Epc in Hstep. simplify_eq.
    destruct (unlink_frame t (mem σ)) as (_ & _ & _ & _ & _ & F6 & F7).
    apply (cas_inv_frame σ); [done | | ].
    + intros a. apply est_other; simpl; [by rewrite Epc | done | apply F7].
    + exists [EvUnlink t]. simpl. rewrite F6. split; [done |]. by repeat constructor.
Qed.
Lemma est_signal σ m' st' a :
  state (nodes m' a) = state (nodes (mem σ) a) ->
  est (System m' (waiters σ) st') a = est σ a.
Proof. intros Hs. unfold est. simpl. by rewrite Hs. Qed.

Lemma split_frame p m :
  trace (split p m) = trace m ∧ refs (split p m) = refs m ∧
  _c_lock (split p m) = _c_lock m ∧ _m_waiters (split p m) = _m_waiters m ∧
  ∀ a, state (nodes (split p m) a) = state (nodes m a) ∧
       barrier (nodes (split p m) a) = barrier (nodes m a) ∧
       notify (nodes (split p m) a) = notify (nodes m a).
Proof.
  unfold split. destruct p as [b |]; [destruct (next (nodes m b)) |]; simpl;
    repeat split; try done; fn_cases; done.
Qed.

Lemma cas_inv_sstep σ s m' l' :
  main_inv σ -> cas_inv σ ->
  __private_cond_signal s (mem σ) (signalers σ s) = Some (m', l') ->
  cas_inv (System m' (waiters σ) (<[s := l']> (signalers σ))).
Proof.
  intros (Hwf & Hw & Hs & _) Hc Hstep.
  destruct (decide (s_pc (signalers σ s) = SSplit)) as [Hsp | Hsp].
  { unfold __private_cond_signal in Hstep. rewrite Hsp in Hstep. simplify_eq.
    destruct (split_frame (s_p (signalers σ s)) (mem σ)) as (F1 & _ & _ & _ & F2).
    apply (cas_inv_frame σ); [done | |].
    - intros a. apply est_signal. cbn [emit nodes]. apply F2.
    - exists [EvSplit s (s_p (signalers σ s))].
      split; [cbn [mem emit trace]; by rewrite F1 | by repeat constructor]. }
  destruct (decide (s_pc (signalers σ s) = SLoop ∧
                    (s_p (signalers σ s) ≠ None ∧ s_n (signalers σ s) ≠ 0)))
    as [(Hloop & Hp & Hn) | Hnl].
  - destruct (s_p (signalers σ s)) as [a |] eqn:Ea; [| done].
    unfold __private_cond_signal in Hstep. rewrite Hloop, Ea in Hstep.
    rewrite decide_False in Hstep by done.
    destruct (visit_frame _ _ _ _ _ _ Hstep)
      as (_ & _ & _ & _ & _ & V6 & _ & V8 & _ & _ & V11 & V12).
    (* the node visited is in the list, so its call is past its entry *)
    pose proof (Hs s) as Hss. unfold stable in Hss. rewrite Hloop, Ea in Hss.
    simpl in Hss. destruct Hss as (L1 & EL & Hlast).
    assert (HaL : a ∈ attached (trace (mem σ))).
    { rewrite EL. apply elem_of_app. left. by apply last_elem. }
    assert (Hpc : w_pc (waiters σ a) ≠ WEntry).
    { intros E. apply (attached_inserted σ a); [apply Hw | done |]. by rewrite E. }
    intros b. specialize (Hc b). revert Hc. unfold est. simpl. rewrite V6. simpl.
    destruct (decide (a = b)) as [<- | Hab].
    + rewrite !decide_False by done.
      destruct (decide (state (nodes (mem σ) a) = WAITING)) as [E | E].
      * destruct (V11 E) as (-> & _). rewrite E.
        rewrite decide_True by done. simpl. intuition congruence.
      * destruct (V12 E) as (-> & _).
        rewrite decide_False by (by intros [_ ?]). done.
    + rewrite (V8 b) by done.
      rewrite (decide_False (P := a = b ∧ _)) by (by intros [? _]). done.
  - assert (Hl : s_pc (signalers σ s) = SLoop ->
                 s_p (signalers σ s) = None ∨ s_n (signalers σ s) = 0).
    { intros Hloop. destruct (s_p (signalers σ s)); [| by left].
      destruct (decide (s_n (signalers σ s) = 0)); [by right |].
      exfalso. apply Hnl. done. }
    destruct (sstep_quiet _ _ _ _ _ Hstep Hsp Hl) as ((_ & _ & Hn & evs & Htr & Hev) & _).
    apply (cas_inv_frame σ); [done | |].
    + intros a. apply est_signal. apply Hn.
    + exists evs. split; [done | by apply silent_no_cas].
Qed.

Lemma cas_inv_initial σ : initial σ -> cas_inv σ.
Proof.
  intros (_ & _ & _ & Htr & Hw & _) t. unfold est. rewrite Htr, Hw.
  by rewrite decide_True.
Qed.

(** ** The counter of a signaler *)

(** The program points of a call that has won its compare-and-exchange
    and has yet to run lines 150-153. *)
Definition pending (pc : wpc) : Prop :=
  match pc with
  | WLock2 _ | WUnlink | WUnlock2 | WNotify => True
  | _ => False
  end.

Global Instance pending_dec pc : Decision (pending pc).
Proof. destruct pc; simpl; apply _. Defined.

(** The nodes that the signaler [s] found not WAITING and whose calls
    have yet to run lines 150-153. *)
Definition owed (σ : system) (s : addr) : list addr :=
  filter (fun a => pending (w_pc (waiters σ a))) (leaving s (trace (mem σ))).

Definition ref_inv (σ : system) : Prop :=
  ∀ s,
    NoDup (leaving s (trace (mem σ))) ∧
    (∀ a, a ∈ leaving s (trace (mem σ)) ->
          state (nodes (mem σ) a) = LEAVING ∧ notify (nodes (mem σ) a) = Some s) ∧
    (∀ a, w_pc (waiters σ a) ≠ WEntry -> notify (nodes (mem σ) a) = Some s ->
          a ∈ leaving s (trace (mem σ))) ∧
    (s_pc (signalers σ s) ≠ SEntry ->
     refs (mem σ) s = Z.of_nat (length (owed σ s)) ∧ refs (mem σ) s <= INT_MAX) ∧
    (s_pc (signalers σ s) = SRelease ∨ s_pc (signalers σ s) = SRet ->
     refs (mem σ) s = 0).

Lemma leaving_visited s a tr : a ∈ leaving s tr -> a ∈ visited s tr.
Proof.
  induction tr as [| ev tr IH]; [done |].
  destruct ev; simpl; try done.
  destruct (decide (s0 = s ∧ old ≠ WAITING)) as [[-> _] | Hn].
  - rewrite decide_True by done. rewrite !elem_of_cons. tauto.
  - intros Hin. destruct (decide (s0 = s)); [right |]; by apply IH.
Qed.

(** The events that are no visit of a signaler. *)
Definition no_visit (ev : event) : Prop :=
  match ev with
  | EvSignalCas _ _ _ => False
  | _ => True
  end.

Lemma no_visit_leaving s evs tr :
  Forall no_visit evs -> leaving s (evs ++ tr) = leaving s tr.
Proof.
  induction 1 as [| ev evs Hev _ IH]; [done |].
  simpl. by destruct ev.
Qed.

Lemma silent_no_visit evs : Forall silent evs -> Forall no_visit evs.
Proof. intros H. eapply Forall_impl; [exact H |]. by intros []. Qed.

Lemma filter_length_remove {A} (P Q : A -> Prop)
    `{∀ x, Decision (P x)} `{∀ x, Decision (Q x)} (l : list A) (a : A) :
  NoDup l -> a ∈ l -> P a -> ¬ Q a ->
  (∀ b, b ∈ l -> b ≠ a -> P b ↔ Q b) ->
  length (filter P l) = S (length (filter Q l)).
Proof.
  induction l as [| b l IH]; intros Hnd Ha HP HQ Hag.
  { by apply elem_of_nil in Ha. }
  apply NoDup_cons in Hnd as [Hb Hnd].
  rewrite !filter_cons.
  apply elem_of_cons in Ha as [<- | Ha].
  - rewrite decide_True by done. rewrite decide_False by done. simpl. f_equal.
    f_equal. apply filter_ext_in. intros x Hx. apply Hag; [by right |].
    intros ->. done.
  - assert (Hba : b ≠ a) by (intros ->; done).
    assert (P b ↔ Q b) by (apply Hag; [left | done]).
    assert (IH' : length (filter P l) = S (length (filter Q l))).
    { apply IH; try done. intros x Hx. apply Hag. by right. }
    destruct (decide (P b)), (decide (Q b)); simpl; try tauto; by rewrite IH'.
Qed.

Lemma enqueue_frame t m m' :
  enqueue t m = Some m' ->
  refs m' = refs m ∧ trace m' = trace m ∧
  notify (nodes m' t) = notify (nodes m t) ∧
  (∀ a, a ≠ t -> state (nodes m' a) = state (nodes m a) ∧
                 notify (nodes m' a) = notify (nodes m a)).
Proof.
  unfold enqueue. simpl. intros H.
  repeat case_match; simplify_eq; simpl; fn_norm;
    repeat split; try done; intros; fn_cases; fn_norm; done.
Qed.

(** What a step of [pthread_cond_timedwait] leaves of the marks that the
    signalers have put on the nodes. *)
Lemma wstep_frame t x m w m' w' :
  pthread_cond_timedwait t x m w = Some (m', w') ->
  (∃ evs, trace m' = evs ++ trace m ∧ Forall no_visit evs) ∧
  (w_pc w ≠ WNotify -> refs m' = refs m) ∧
  (∀ a, a ≠ t -> state (nodes m' a) = state (nodes m a) ∧
                 notify (nodes m' a) = notify (nodes m a)) ∧
  (w_pc w ≠ WEntry -> notify (nodes m' t) = notify (nodes m t)) ∧
  (w_pc w = WEntry -> notify (nodes m' t) = None) ∧
  (state (nodes m t) = LEAVING -> ¬ pre_insert (w_pc w) ->
   state (nodes m' t) = LEAVING ∧
   (w_pc w ≠ WNotify -> pending (w_pc w') ↔ pending (w_pc w))) ∧
  (w_pc w = WNotify -> m' = notify_signaler t m ∧ w_pc w' = WMutexLock).
Proof.
  intros Hstep.
  assert (Hnil : ∀ tr : list event, ∃ evs, tr = evs ++ tr ∧ Forall no_visit evs).
  { intros tr. exists []. split; [done | constructor]. }
  assert (Hone : ∀ ev (tr : list event), no_visit ev ->
                 ∃ evs, ev :: tr = evs ++ tr ∧ Forall no_visit evs).
  { intros ev tr Hev. exists [ev]. split; [done | by repeat constructor]. }
  destruct (w_pc w) eqn:Epc;
    try (assert (Hq : quiet_pc (w_pc w)) by (by rewrite Epc);
         destruct (wstep_quiet _ _ _ _ _ _ Hstep Hq)
           as ((_ & _ & Hn & evs & Htr & Hev) & _ & _)).
  all: unfold pthread_cond_timedwait in Hstep; rewrite Epc in Hstep.
  - (* WEntry *)
    repeat case_match; simplify_eq; simpl; fn_norm; (split; [apply Hnil |]);
      repeat split; try done; intros; fn_cases; fn_norm; tauto.
  - (* WLock1 *)
    destruct (lock CLock ph (_c_lock m)) as [[cell nxt] evs0] eqn:El.
    simplify_eq. simpl in *.
    split; [exists evs; split; [done | by apply silent_no_visit] |].
    repeat split; try done; try apply Hn; tauto.
  - (* WInsert *)
    destruct (enqueue t m) as [m1 |] eqn:Eq; simpl in Hstep; [| done].
    simplify_eq. destruct (enqueue_frame _ _ _ Eq) as (E1 & E2 & E3 & E4).
    simpl. rewrite E2. split; [by apply Hone |].
    repeat split; try done; try (by apply E4); tauto.
  - (* WUnlock1 *)
    destruct (unlock CLock (_c_lock m)) as [cell evs0] eqn:El.
    simplify_eq. simpl in *.
    split; [exists evs; split; [done | by apply silent_no_visit] |].
    repeat split; try done; try apply Hn; tauto.
  - (* WMutexUnlock *)
    simplify_eq. simpl in *. split; [by apply Hone |].
    repeat split; try done; tauto.
  - (* WSetCancel *)
    simplify_eq. simpl in *. split; [by apply Hnil |].
    repeat split; try done; tauto.
  - (* WWait *)
    case_decide; simplify_eq; simpl in *; (split; [by apply Hone |]);
      rewrite ?Epc; repeat split; try done; tauto.
  - (* WCas *)
    unfold a_cas in Hstep. simplify_eq. simpl. split; [by apply Hone |].
    fn_norm. repeat split; try done; try (intros; fn_cases; fn_norm; done).
    all: match goal with E : state _ = LEAVING |- _ => rewrite E end;
      rewrite !decide_False by done; simpl; tauto.
  - (* WLock2 *)
    destruct (lock CLock ph (_c_lock m)) as [[cell nxt] evs0] eqn:El.
    simplify_eq. simpl in *.
    split; [exists evs; split; [done | by apply silent_no_visit] |].
    repeat split; try done; try apply Hn; destruct nxt; simpl; tauto.
  - (* WUnlink *)
    simplify_eq. destruct (unlink_frame t m) as (_ & _ & _ & _ & F5 & F6 & F7).
    simpl. rewrite F6. split; [by apply Hone |].
    repeat split; intros; rewrite ?(proj1 (F7 _)), ?(proj2 (proj2 (F7 _)));
      try done; tauto.
  - (* WUnlock2 *)
    destruct (unlock CLock (_c_lock m)) as [cell evs0] eqn:El.
    simplify_eq. simpl in *.
    split; [exists evs; split; [done | by apply silent_no_visit] |].
    repeat split; try done; try apply Hn; tauto.
  - (* WNotify *)
    simplify_eq. simpl in *.
    split; [exists evs; split; [done | by apply silent_no_visit] |].
    repeat split; intros;
      rewrite ?(proj1 (proj2 (proj2 (Hn _)))), ?(proj2 (proj2 (proj2 (Hn _))));
      try done; tauto.
  - (* WLockB *)
    destruct (lock (Barrier t) ph (barrier (nodes m t))) as [[cell nxt] evs0] eqn:El.
    simplify_eq. simpl in *.
    split; [exists evs; split; [done | by apply silent_no_visit] |].
    repeat split; intros;
      rewrite ?(proj1 (proj2 (proj2 (Hn _)))), ?(proj2 (proj2 (proj2 (Hn _))));
      try done; destruct nxt; simpl; tauto.
  - (* WMutexLock *)
    simplify_eq. simpl in *. split; [by apply Hone |].
    repeat split; try done; try (case_decide; simpl; tauto).
  - (* WInc *)
    simplify_eq. simpl in *.
    destruct (chain_begin_frame t m) as (F1 & F2 & F3 & _).
    rewrite F1, F2, F3. split; [by apply Hnil |].
    repeat split; try done; tauto.
  - (* WRelease *)
    simplify_eq. simpl in *.
    split; [exists evs; split; [done | by apply silent_no_visit] |].
    repeat split; intros;
      rewrite ?(proj1 (proj2 (proj2 (Hn _)))), ?(proj2 (proj2 (proj2 (Hn _))));
      try done; try tauto.
    unfold chain_next. by destruct (prev (nodes m t)).
  - (* WSuppress *)
    simplify_eq. simpl in *. split; [by apply Hnil |].
    repeat split; try done; tauto.
  - (* WDone *)
    repeat case_match; simplify_eq; simpl in *; (split; [by apply Hnil |]);
      repeat split; try done; tauto.
  - done.
  - done.
Qed.
Lemma int_wrap_small z : INT_MIN <= z <= INT_MAX -> int_wrap z = z.
Proof.
  unfold int_wrap, INT_MIN, INT_MAX. intros Hz.
  rewrite Z.mod_small; lia.
Qed.

(** A node that a signaler has visited belongs to a call that has
    inserted its node. *)
Lemma visited_inserted σ s a :
  main_inv σ -> a ∈ visited s (trace (mem σ)) -> ¬ pre_insert (w_pc (waiters σ a)).
Proof.
  intros (_ & Hw & _) Hv Hpre. specialize (Hw a). unfold wtable in Hw.
  destruct (w_pc (waiters σ a)); simpl in *; try done.
  all: destruct Hw as (_ & Hu);
    first [by apply (Hu s) | by apply (proj1 Hu s)].
Qed.

Lemma ref_inv_wstep σ t x m' w' :
  main_inv σ -> ref_inv σ ->
  pthread_cond_timedwait t x (mem σ) (waiters σ t) = Some (m', w') ->
  ref_inv (System m' (<[t := w']> (waiters σ)) (signalers σ)).
Proof.
  intros Hinv Hr Hstep.
  pose proof (wstep_not_entry _ _ _ _ _ _ Hstep) as Hne.
  destruct (wstep_frame _ _ _ _ _ _ Hstep)
    as ((evs & Htr & Hnv) & Hrefs & Hoth & Hnot & Hnot0 & Hleave & Hnotify).
  assert (Hlv : ∀ s, leaving s (trace m') = leaving s (trace (mem σ))).
  { intros s. rewrite Htr. by apply no_visit_leaving. }
  assert (Hpast : ∀ s, t ∈ leaving s (trace (mem σ)) ->
                       ¬ pre_insert (w_pc (waiters σ t))).
  { intros s Hin. apply (visited_inserted σ s); [done |]. by apply leaving_visited. }
  assert (Hpcs : ∀ a, a ≠ t -> <[t := w']> (waiters σ) a = waiters σ a).
  { intros a Ha. by rewrite fn_lookup_insert_ne. }
  intros s. destruct (Hr s) as (R0 & R2 & R3 & R1 & R6).
  unfold owed in *. simpl. rewrite Hlv.
  (* the marks on the nodes stay *)
  assert (R2' : ∀ a, a ∈ leaving s (trace (mem σ)) ->
                     state (nodes m' a) = LEAVING ∧ notify (nodes m' a) = Some s).
  { intros a Ha. destruct (R2 a Ha) as [Hs Hn].
    destruct (decide (a = t)) as [-> | Hat].
    - destruct (Hleave Hs (Hpast s Ha)) as [-> _]. split; [done |].
      rewrite Hnot; [done |]. intros E. apply (Hpast s Ha). by rewrite E.
    - destruct (Hoth a Hat) as [-> ->]. done. }
  assert (R3' : ∀ a, w_pc (<[t := w']> (waiters σ) a) ≠ WEntry ->
                     notify (nodes m' a) = Some s ->
                     a ∈ leaving s (trace (mem σ))).
  { intros a. destruct (decide (a = t)) as [-> | Hat].
    - intros _ Hn. destruct (decide (w_pc (waiters σ t) = WEntry)) as [E | E].
      + rewrite (Hnot0 E) in Hn. done.
      + rewrite (Hnot E) in Hn. by apply R3.
    - rewrite (Hpcs a Hat). destruct (Hoth a Hat) as [_ ->]. apply R3. }
  split; [done |]. split; [done |]. split; [done |].
  destruct (decide (w_pc (waiters σ t) = WNotify)) as [Epc | Epc].
  - (* lines 150-153 *)
    destruct (Hnotify Epc) as [-> Epc'].
    destruct (notify_signaler_frame t (mem σ)) as (_ & _ & _ & _ & _ & _ & F7 & _).
    rewrite F7.
    destruct (decide (notify (nodes (mem σ) t) = Some s)) as [En | En].
    + assert (Hin : t ∈ leaving s (trace (mem σ))).
      { apply R3; [by rewrite Epc | done]. }
      assert (Hlen : length (filter (λ a, pending (w_pc (waiters σ a)))
                              (leaving s (trace (mem σ)))) =
                     S (length (filter (λ a, pending (w_pc (<[t := w']> (waiters σ) a)))
                                 (leaving s (trace (mem σ)))))).
      { apply (filter_length_remove _ _ _ t); try done.
        - by rewrite Epc.
        - rewrite fn_lookup_insert, Epc'. simpl. tauto.
        - intros b _ Hb. by rewrite Hpcs. }
      assert (Hse : s_pc (signalers σ s) ≠ SEntry).
      { intros E. destruct Hinv as (_ & _ & Hs & _). specialize (Hs s).
        unfold stable in Hs. rewrite E in Hs. simpl in Hs.
        apply leaving_visited in Hin. rewrite Hs in Hin. by apply elem_of_nil in Hin. }
      destruct (R1 Hse) as [Hcnt Hmax]. rewrite Hlen in Hcnt.
      split.
      * intros _. rewrite int_wrap_small by (unfold INT_MIN; lia). lia.
      * intros Hpc. rewrite (R6 Hpc) in Hcnt. lia.
    + assert (Hni : t ∉ leaving s (trace (mem σ))).
      { intros Hin. by destruct (R2 t Hin). }
      rewrite (filter_ext_in (λ a, pending (w_pc (<[t := w']> (waiters σ) a)))
                 (λ a, pending (w_pc (waiters σ a)))).
      2: { intros b Hb. rewrite Hpcs; [done |]. intros ->. done. }
      done.
  - rewrite (Hrefs Epc).
    rewrite (filter_ext_in (λ a, pending (w_pc (<[t := w']> (waiters σ) a)))
               (λ a, pending (w_pc (waiters σ a)))).
    2: { intros b Hb. destruct (decide (b = t)) as [-> | Hbt]; [| by rewrite Hpcs].
         rewrite fn_lookup_insert. destruct (R2 t Hb) as [Hs _].
         by apply (Hleave Hs (Hpast s Hb)). }
    done.
Qed.
(** What a step of [__private_cond_signal] other than the first one and
    a visit leaves of the counters and of the marks. *)
Lemma sstep_frame s m l m' l' :
  __private_cond_signal s m l = Some (m', l') ->
  s_pc l ≠ SEntry ->
  (s_pc l = SLoop -> s_p l = None ∨ s_n l = 0) ->
  refs m' = refs m ∧
  (∃ evs, trace m' = evs ++ trace m ∧ Forall no_visit evs) ∧
  (∀ a, state (nodes m' a) = state (nodes m a) ∧
        notify (nodes m' a) = notify (nodes m a)) ∧
  s_pc l' ≠ SEntry ∧
  (s_pc l' = SRelease ∨ s_pc l' = SRet ->
   (s_pc l = SRelease ∨ s_pc l = SRet) ∨ refs m s = 0).
Proof.
  intros Hstep Hne Hloop.
  destruct (decide (s_pc l = SSplit)) as [Hsp | Hsp].
  { unfold __private_cond_signal in Hstep. rewrite Hsp in Hstep. simplify_eq.
    destruct (split_frame (s_p l) m) as (F1 & F2 & _ & _ & F3).
    cbn [emit refs trace nodes sgoto s_pc]. rewrite F1, F2.
    split; [done |]. split.
    { exists [EvSplit s (s_p l)]. split; [done | by repeat constructor]. }
    split; [intros a; split; apply F3 |]. split; [done |].
    intros [? | ?]; done. }
  destruct (sstep_quiet _ _ _ _ _ Hstep Hsp Hloop) as ((_ & _ & Hn & evs & Htr & Hev) & _).
  assert (Hrest : refs m' = refs m ∧ s_pc l' ≠ SEntry ∧
            (s_pc l' = SRelease ∨ s_pc l' = SRet ->
             (s_pc l = SRelease ∨ s_pc l = SRet) ∨ refs m s = 0)).
  { unfold __private_cond_signal in Hstep.
    destruct (s_pc l) eqn:Epc; try done.
    - destruct (lock CLock ph (_c_lock m)) as [[cell nxt] evs0].
      simplify_eq. simpl. split; [done |]. destruct nxt; simpl; split; try done.
      all: intros [? | ?]; done.
    - simplify_eq. simpl. split; [done |]. split; [done |]. intros [? | ?]; done.
    - assert (Hm : Some (m, sgoto SSplit l) = Some (m', l')).
      { destruct (Hloop eq_refl) as [E | E]; rewrite E in Hstep; [done |].
        destruct (s_p l); [| done]. by rewrite decide_True in Hstep. }
      simplify_eq. simpl. split; [done |]. split; [done |]. intros [? | ?]; done.
    - destruct (unlock CLock (_c_lock m)) as [cell evs0].
      simplify_eq. simpl. split; [done |]. split; [done |]. intros [? | ?]; done.
    - case_decide; simplify_eq; simpl; rewrite ?Epc;
        (split; [done |]); (split; [done |]); intros [? | ?]; try done. by right.
    - destruct (s_first l) as [a |].
      + destruct (unlock (Barrier a) (barrier (nodes m a))) as [cell evs0].
        simplify_eq. simpl. split; [done |]. split; [done |]. intros _. left. by left.
      + simplify_eq. simpl. split; [done |]. split; [done |]. intros _. left. by left. }
  destruct Hrest as (H1 & H2 & H3).
  split; [done |]. split.
  { exists evs. split; [done | by apply silent_no_visit]. }
  split; [| done].
  intros a. destruct (Hn a) as (_ & _ & ? & ?). done.
Qed.

(** The node that the walk is at is in the list, and no signaler has been
    at it. *)
Lemma visit_fresh σ s a :
  lock_inv σ -> main_inv σ ->
  s_pc (signalers σ s) = SLoop -> s_p (signalers σ s) = Some a ->
  a ∈ attached (trace (mem σ)) ∧ ∀ s0, a ∉ visited s0 (trace (mem σ)).
Proof.
  intros Hl (Hwf & Hw & Hs & Hm) Hpc Hp.
  set (L := attached (trace (mem σ))) in *.
  pose proof (Hs s) as Hss. unfold stable in Hss. rewrite Hpc, Hp in Hss.
  simpl in Hss. destruct Hss as (L1 & EL & Hlast). fold L in EL.
  symmetry in Hlast. apply last_Some in Hlast as [L0 ->].
  rewrite <- app_assoc in EL. simpl in EL.
  assert (HaL : a ∈ L).
  { rewrite EL. apply elem_of_app. right. left. }
  split; [done |].
  assert (Hnd : NoDup L) by apply Hwf.
  intros s0 Hv. destruct (decide (s0 = s)) as [-> | Hne].
  - rewrite EL in Hnd. apply NoDup_app in Hnd as (_ & _ & Hnd).
    by apply NoDup_cons in Hnd as [Hnd _].
  - pose proof (Hs s0) as Hs0. unfold stable in Hs0.
    destruct Hl as (_ & _ & _ & I4 & _).
    assert (Hout : ¬ scs (s_pc (signalers σ s0))).
    { intros Hin. apply Hne. apply I4; [done |]. by rewrite Hpc. }
    destruct (s_pc (signalers σ s0)); simpl in *; try tauto.
    all: try (rewrite Hs0 in Hv; by apply elem_of_nil in Hv).
    all: by apply (Hs0 a).
Qed.

Lemma leaving_cas s s0 a old tr :
  leaving s0 (EvSignalCas s a old :: tr) =
    if decide (s = s0 ∧ old ≠ WAITING) then a :: leaving s0 tr else leaving s0 tr.
Proof. reflexivity. Qed.

Lemma ref_inv_sstep σ s m' l' :
  lock_inv σ -> main_inv σ -> ref_inv σ ->
  __private_cond_signal s (mem σ) (signalers σ s) = Some (m', l') ->
  ref_inv (System m' (waiters σ) (<[s := l']> (signalers σ))).
Proof.
  intros Hl Hinv Hr Hstep.
  destruct (decide (s_pc (signalers σ s) = SEntry)) as [Hent | Hent].
  { (* the counter is set to 0 *)
    unfold __private_cond_signal in Hstep. rewrite Hent in Hstep. simplify_eq.
    assert (Hnil : leaving s (trace (mem σ)) = []).
    { destruct Hinv as (_ & _ & Hs & _). specialize (Hs s). unfold stable in Hs.
      rewrite Hent in Hs. simpl in Hs.
      destruct (leaving s (trace (mem σ))) as [| a l] eqn:E; [done |].
      assert (Ha : a ∈ leaving s (trace (mem σ))) by (rewrite E; left).
      apply leaving_visited in Ha. rewrite Hs in Ha. by apply elem_of_nil in Ha. }
    intros s0. destruct (Hr s0) as (R0 & R2 & R3 & R1 & R6).
    unfold owed in *. simpl.
    split; [done |]. split; [done |]. split; [done |].
    destruct (decide (s = s0)) as [<- | Hne]; fn_norm.
    - rewrite Hnil. simpl. split; [by intros _ | intros [? | ?]; done].
    - done. }
  destruct (decide (s_pc (signalers σ s) = SLoop ∧
                    (s_p (signalers σ s) ≠ None ∧ s_n (signalers σ s) ≠ 0)))
    as [(Hloop & Hp & Hn) | Hnl].
  2: { (* neither the counters nor the marks change *)
    assert (Hlp : s_pc (signalers σ s) = SLoop ->
                  s_p (signalers σ s) = None ∨ s_n (signalers σ s) = 0).
    { intros Hloop. destruct (s_p (signalers σ s)); [| by left].
      destruct (decide (s_n (signalers σ s) = 0)); [by right |].
      exfalso. apply Hnl. done. }
    destruct (sstep_frame _ _ _ _ _ Hstep Hent Hlp)
      as (F1 & (evs & Htr & Hev) & F3 & F4 & F5).
    intros s0. destruct (Hr s0) as (R0 & R2 & R3 & R1 & R6).
    unfold owed in *. simpl. rewrite F1, Htr, no_visit_leaving by done.
    split; [done |]. split.
    { intros a Ha. destruct (F3 a) as [-> ->]. by apply R2. }
    split.
    { intros a Hpc. destruct (F3 a) as [_ ->]. by apply R3. }
    destruct (decide (s = s0)) as [<- | Hne]; fn_norm; [| done].
    split; [intros _; by apply R1 |].
    intros Hpc. destruct (F5 Hpc) as [? | ?]; [by apply R6 | done]. }
  (* a visit *)
  destruct (s_p (signalers σ s)) as [a |] eqn:Ea; [| done].
  destruct (visit_fresh σ s a Hl Hinv Hloop Ea) as [HaL Hunv].
  unfold __private_cond_signal in Hstep. rewrite Hloop, Ea in Hstep.
  rewrite decide_False in Hstep by done.
  destruct (visit_frame _ _ _ _ _ _ Hstep)
    as (_ & _ & _ & _ & V5 & V6 & _ & V8 & V9 & _ & V11 & V12).
  assert (Hfresh : ∀ s0, a ∉ leaving s0 (trace (mem σ))).
  { intros s0 Hin. apply (Hunv s0). by apply leaving_visited. }
  assert (Hpast : w_pc (waiters σ a) ≠ WEntry).
  { intros E. destruct Hinv as (_ & Hw & _).
    apply (attached_inserted σ a); [apply Hw | done |]. by rewrite E. }
  intros s0. destruct (Hr s0) as (R0 & R2 & R3 & R1 & R6).
  unfold owed in *. simpl. rewrite V6, leaving_cas.
  destruct (decide (state (nodes (mem σ) a) = WAITING)) as [Ew | Ew].
  - (* the node is signaled *)
    destruct (V11 Ew) as (Hs' & Hn' & Hr' & _).
    rewrite decide_False by tauto.
    assert (Hrefs : refs m' s0 = refs (mem σ) s0).
    { destruct (decide (s0 = s)) as [-> |]; [done | by apply V9]. }
    rewrite Hrefs.
    split; [done |]. split.
    { intros b Hb. rewrite V8; [by apply R2 |]. intros ->. by apply (Hfresh s0). }
    split.
    { intros b Hpc. destruct (decide (b = a)) as [-> | Hba].
      - rewrite Hn'. by apply R3.
      - rewrite V8 by done. by apply R3. }
    destruct (decide (s = s0)) as [<- | Hne]; fn_norm; [| done].
    rewrite V5, Hloop. split; [intros _; by apply R1 | intros [? | ?]; done].
  - (* the node was leaving: it is counted *)
    destruct (V12 Ew) as (Hs' & Hn' & Hr' & Hmax & _).
    assert (Hlv : state (nodes (mem σ) a) = LEAVING).
    { destruct Hinv as (_ & _ & _ & Hm). destruct (Hm a HaL) as [M1 _].
      destruct (M1 Hunv) as [Hns _].
      destruct (state (nodes (mem σ) a)); done. }
    assert (Hpend : pending (w_pc (waiters σ a))).
    { destruct Hinv as (_ & Hw & _). specialize (Hw a). unfold wtable in Hw.
      destruct (w_pc (waiters σ a)); simpl in *; try done; intuition congruence. }
    destruct (decide (s = s0)) as [<- | Hne]; fn_norm.
    + rewrite decide_True by done. rewrite filter_cons, decide_True by done.
      rewrite V5, Hloop. simpl length.
      split; [apply NoDup_cons; split; [apply Hfresh | done] |].
      split.
      { intros b Hb. apply elem_of_cons in Hb as [-> | Hb].
        - split; congruence.
        - rewrite V8; [by apply R2 |]. intros ->. by apply (Hfresh s). }
      split.
      { intros b Hpc Hb. destruct (decide (b = a)) as [-> | Hba]; [left |].
        right. rewrite V8 in Hb by done. by apply R3. }
      split; [| intros [? | ?]; done].
      intros _. destruct R1 as [Hc Hm]; [by rewrite Hloop |].
      rewrite Hr', Hc. split; [lia | lia].
    + rewrite decide_False by tauto. rewrite (V9 s0) by done.
      split; [done |]. split.
      { intros b Hb. rewrite V8; [by apply R2 |]. intros ->. by apply (Hfresh s0). }
      split; [| done].
      intros b Hpc Hb. destruct (decide (b = a)) as [-> | Hba].
      * rewrite Hn' in Hb. congruence.
      * rewrite V8 in Hb by done. by apply R3.
Qed.

Lemma ref_inv_initial σ : initial σ -> ref_inv σ.
Proof.
  intros (_ & _ & _ & Htr & Hw & Hs) s. unfold owed. rewrite Htr. simpl.
  split; [apply NoDup_nil_2 |]. split; [intros a Ha; by apply elem_of_nil in Ha |].
  split; [intros a Ha; by destruct Ha |].
  rewrite Hs. split; [done | intros [? | ?]; done].
Qed.

(** All the invariants together. *)
Definition inv3 (σ : system) : Prop := inv σ ∧ cas_inv σ ∧ ref_inv σ.

Lemma inv3_reachable σ : reachable σ -> inv3 σ.
Proof.
  intros (σ0 & Hinit & Hrtc).
  assert (H0 : inv3 σ0).
  { split; [split | split].
    - by apply lock_inv_initial.
    - by apply main_inv_initial.
    - by apply cas_inv_initial.
    - by apply ref_inv_initial. }
  clear Hinit. induction Hrtc as [| σ1 σ2 σ3 Hstep _ IH]; [done |].
  apply IH. destruct H0 as (Hi & Hc & Hr). split; [by eapply inv_step |].
  destruct Hi as [Hl Hm].
  inversion Hstep as [t x m wt st m' w' Hw | s m wt st m' l' Hs]; subst.
  - split.
    + by apply (cas_inv_wstep (System m wt st) t x).
    + by apply (ref_inv_wstep (System m wt st) t x).
  - split.
    + by apply (cas_inv_sstep (System m wt st) s).
    + by apply (ref_inv_sstep (System m wt st) s).
Qed.

(** ** The budget and the first node of a signaler *)














(** ** A race between a timeout and a broadcast *)

(** The calls at 0 and 1 wait; the call at 0 times out and wins the
    compare-and-exchange on its node; the broadcast at 1 takes the lock
    before it, finds the node of 0 LEAVING and signals the node of 1. *)
Definition race_walk : list action :=
  arrive 0%nat ++ arrive 1%nat ++
  [AWait 0%nat timed_out; AWait 0%nat example_ext;
   ASignal 1%nat; ASignal 1%nat; ASignal 1%nat;
   AWait 0%nat example_ext; AWait 0%nat example_ext; AWait 0%nat example_ext;
   ASignal 1%nat].

(** ... the broadcast visits the node of 1 and splits the list ... *)
Definition race_split : list action :=
  race_walk ++ [ASignal 1%nat; ASignal 1%nat; ASignal 1%nat].

(** ... it releases the lock and waits for its counter; the call at 0
    takes the lock, splices its node out and decrements the counter; the
    broadcast is about to release the barrier of the node of 1. *)
Definition race_release : list action :=
  race_split ++
  [ASignal 1%nat; ASignal 1%nat;
   AWait 0%nat example_ext; AWait 0%nat example_ext; AWait 0%nat example_ext;
   AWait 0%nat example_ext;
   ASignal 1%nat].

Definition after (sch : list action) : system := default rest (exec sch rest).

Definition sys_walk : system := after race_walk.
Definition sys_split : system := after race_split.
Definition sys_release : system := after race_release.

Lemma after_reachable sch : exec sch rest ≠ None -> reachable (after sch).
Proof.
  intros H. apply (exec_reachable sch). unfold after.
  by destruct (exec sch rest).
Qed.




(** ** The claims on the reachable states *)



(** The program points of a call after its compare-and-exchange of line
    111 and before it returns. *)
Definition post_cas (pc : wpc) : Prop :=
  match pc with
  | WLock2 _ | WUnlink | WUnlock2 | WNotify | WLockB _ | WMutexLock | WInc
  | WRelease | WSuppress | WDone => True
  | _ => False
  end.

(** C1: the state of a node leaves WAITING once, by one
    compare-and-exchange.  In every reachable state, of the
    compare-and-exchanges on the state of a node that found it WAITING
    (that of its own call at line 111, those of the signalers at line
    222) at most one has happened, and the state of a node whose call has
    started tells which: none when it is WAITING, that of its own call
    when it is LEAVING, that of a signaler when it is SIGNALED.  Once the
    call has done its own compare-and-exchange exactly one has happened,
    and the call is on the matching path: its own won, [oldstate] is
    WAITING and the node is LEAVING (the timeout), or a signaler's won,
    [oldstate] is not WAITING and the node is SIGNALED (the signal is
    consumed); never both, never neither. *)
Theorem state_leaves_waiting_once (σ : system) (t : addr) :
  reachable σ ->
  (wwins t (trace (mem σ)) + swins t (trace (mem σ)) <= 1)%nat ∧
  (w_pc (waiters σ t) ≠ WEntry ->
   match state (nodes (mem σ) t) with
   | WAITING => wwins t (trace (mem σ)) = 0%nat ∧ swins t (trace (mem σ)) = 0%nat
   | LEAVING => wwins t (trace (mem σ)) = 1%nat ∧ swins t (trace (mem σ)) = 0%nat
   | SIGNALED => wwins t (trace (mem σ)) = 0%nat ∧ swins t (trace (mem σ)) = 1%nat
   end) ∧
  (post_cas (w_pc (waiters σ t)) ->
   (w_oldstate (waiters σ t) = WAITING ∧ state (nodes (mem σ) t) = LEAVING ∧
    wwins t (trace (mem σ)) = 1%nat ∧ swins t (trace (mem σ)) = 0%nat ∧
    timeout_path (waiters σ t)) ∨
   (w_oldstate (waiters σ t) ≠ WAITING ∧ state (nodes (mem σ) t) = SIGNALED ∧
    wwins t (trace (mem σ)) = 0%nat ∧ swins t (trace (mem σ)) = 1%nat ∧
    ¬ timeout_path (waiters σ t))).
Proof.
  intros Hr. destruct (inv3_reachable σ Hr) as ([_ (_ & Hw & _)] & Hc & _).
  specialize (Hw t). specialize (Hc t). unfold wtable in Hw. unfold est in Hc.
  split; [| split].
  - destruct (decide (w_pc (waiters σ t) = WEntry));
      [| destruct (state (nodes (mem σ) t))]; simpl in Hc; lia.
  - intros Hpc. rewrite decide_False in Hc by done. exact Hc.
  - intros Hpost.
    rewrite decide_False in Hc by (intros E; by rewrite E in Hpost).
    unfold timeout_path.
    destruct (w_pc (waiters σ t)); simpl in *; try done.
    all: try (destruct Hw as (Ho & Hs & _); rewrite Hs in Hc; simpl in Hc; tauto).
    all: try (destruct Hw as (Ho & Hs); rewrite Hs in Hc; simpl in Hc; tauto).
    all: destruct Hw as [(Ho & Hs & _) | (Ho & Hs)]; rewrite Hs in Hc; simpl in Hc;
      tauto.
Qed.

Lemma state_leaves_waiting_once_witness :
  (wwins 0%nat (trace (mem sys_split)) + swins 0%nat (trace (mem sys_split)) <= 1)%nat ∧
  (post_cas (w_pc (waiters sys_split 0%nat)) ->
   (w_oldstate (waiters sys_split 0%nat) = WAITING ∧
    state (nodes (mem sys_split) 0%nat) = LEAVING ∧
    wwins 0%nat (trace (mem sys_split)) = 1%nat ∧
    swins 0%nat (trace (mem sys_split)) = 0%nat ∧
    timeout_path (waiters sys_split 0%nat)) ∨
   (w_oldstate (waiters sys_split 0%nat) ≠ WAITING ∧
    state (nodes (mem sys_split) 0%nat) = SIGNALED ∧
    wwins 0%nat (trace (mem sys_split)) = 0%nat ∧
    swins 0%nat (trace (mem sys_split)) = 1%nat ∧
    ¬ timeout_path (waiters sys_split 0%nat))).
Proof.
  pose proof (state_leaves_waiting_once sys_split 0%nat) as H.
  destruct H as (H1 & _ & H3).
  - apply after_reachable. vm_compute. discriminate.
  - split; [exact H1 | exact H3].
Defined.




(** C4: the list of the condition variable is consistent in every
    reachable state.  With [L] the attached nodes (those inserted and
    neither spliced out nor split off), newest first: [L] has no
    repetition, [_c_head] is its first and [_c_tail] its last node, both
    null exactly when [L] is empty; the [next] links lead from the head
    through exactly the nodes of [L] and end with a null pointer after
    [length L] nodes, the [prev] links lead back from the tail.  When a
    call of [__private_cond_signal] is at its split, the nodes it visited
    are the part [V] of [L] from its stopping point [p] (excluded) to the
    tail, and the split detaches exactly them: afterwards the attached
    nodes are the rest [L1] of [L], a well-formed list that ends with
    [p], and [V] is a well-formed segment of its own. *)
Theorem waiter_list_well_formed (σ : system) :
  reachable σ ->
  let m := mem σ in
  let L := attached (trace m) in
  wf_list m L ∧
  walk (length L) (nodes m) (_c_head m) = Some L ∧
  prev_path (nodes m) (reverse L) None ∧
  (_c_head m = None ↔ L = []) ∧
  (_c_tail m = None ↔ L = []) ∧
  ∀ s, s_pc (signalers σ s) = SSplit ->
    ∃ L1 m' l',
      L = L1 ++ visited s (trace m) ∧ s_p (signalers σ s) = last L1 ∧
      __private_cond_signal s m (signalers σ s) = Some (m', l') ∧
      attached (trace m') = L1 ∧
      wf_list m' L1 ∧
      walk (length L1) (nodes m') (_c_head m') = Some L1 ∧
      _c_tail m' = s_p (signalers σ s) ∧
      chain (nodes m') None (visited s (trace m)) None ∧
      (∀ a, a ∉ L -> nodes m' a = nodes m a).
Proof.
  intros Hr m L. destruct (inv3_reachable σ Hr) as ([_ (Hwf & _ & Hs & _)] & _).
  fold m L in Hwf. split; [done |].
  pose proof Hwf as (Hnd & Hc & Hh & Ht).
  split; [rewrite Hh; by eapply walk_chain |].
  split; [by eapply chain_prev_path |].
  split; [rewrite Hh; destruct L; simpl; split; intros; done |].
  split; [rewrite Ht; split; [apply last_None | by intros ->] |].
  intros s Hpc. specialize (Hs s). unfold stable in Hs. rewrite Hpc in Hs.
  simpl in Hs. fold m L in Hs. destruct Hs as (L1 & EL & Hp).
  exists L1. eexists _, _. split; [done |]. split; [done |].
  split; [unfold __private_cond_signal; by rewrite Hpc |].
  rewrite EL in Hwf.
  destruct (split_attached _ _ _ Hwf) as (Hwf1 & Hc2 & _ & Hsame).
  rewrite <- Hp in Hwf1, Hc2, Hsame.
  assert (Hatt : attached (EvSplit s (s_p (signalers σ s)) :: trace m) = L1).
  { eapply attached_split; [exact EL | by rewrite <- EL | done]. }
  assert (Etr : trace (split (s_p (signalers σ s)) m) = trace m).
  { by destruct (split_frame (s_p (signalers σ s)) m) as (? & _). }
  cbn [emit trace nodes _c_head _c_tail app]. rewrite Etr.
  split; [done |].
  destruct Hwf1 as (H1 & H2 & H3 & H4).
  split; [done |].
  split; [rewrite H3; by eapply walk_chain |].
  split; [by rewrite H4 |].
  split; [done |].
  intros a Ha. apply Hsame. by rewrite <- EL.
Qed.

(** The broadcast of the race is at its split. *)
Definition sys_at_split : system :=
  after (race_walk ++ [ASignal 1%nat; ASignal 1%nat]).

Lemma waiter_list_well_formed_witness :
  let m := mem sys_at_split in
  let L := attached (trace m) in
  wf_list m L ∧
  walk (length L) (nodes m) (_c_head m) = Some L ∧
  (_c_head m = None ↔ L = []) ∧
  ∃ L1 m' l',
    L = L1 ++ visited 1%nat (trace m) ∧
    __private_cond_signal 1%nat m (signalers sys_at_split 1%nat) = Some (m', l') ∧
    attached (trace m') = L1 ∧ wf_list m' L1.
Proof.
  pose proof (waiter_list_well_formed sys_at_split) as H.
  cbv zeta in H. destruct H as (H1 & H2 & _ & H3 & _ & Hsp).
  - apply after_reachable. vm_compute. discriminate.
  - cbv zeta. split; [exact H1 |]. split; [exact H2 |]. split; [exact H3 |].
    assert (Epc : s_pc (signalers sys_at_split 1%nat) = SSplit)
      by (vm_compute; reflexivity).
    destruct (Hsp 1%nat Epc) as (L1 & m' & l' & E1 & _ & E2 & E3 & E4 & _).
    exists L1, m', l'. split; [exact E1 |]. split; [exact E2 |].
    split; [exact E3 | exact E4].
Defined.






(** ** Further properties of every reachable state *)

(** X1 (lines 37-49, 77-91, 127-139, 220-245): the lock of the condition
    variable excludes.  In every reachable state at most one call is
    between its [lock(&c->_c_lock)] and its [unlock(&c->_c_lock)], be it a
    call of [pthread_cond_timedwait] in its insertion or its splice or a
    call of [__private_cond_signal] in its walk and split, and while a
    call is there the lock word is not 0. *)
Theorem cond_lock_excludes (σ : system) :
  reachable σ ->
  (∀ t t', wcs (w_pc (waiters σ t)) -> wcs (w_pc (waiters σ t')) -> t = t') ∧
  (∀ s s', scs (s_pc (signalers σ s)) -> scs (s_pc (signalers σ s')) -> s = s') ∧
  (∀ t s, wcs (w_pc (waiters σ t)) -> ¬ scs (s_pc (signalers σ s))) ∧
  ((∃ t, wcs (w_pc (waiters σ t))) ∨ (∃ s, scs (s_pc (signalers σ s))) ->
   _c_lock (mem σ) ≠ 0).
Proof.
  intros Hr. destruct (inv3_reachable σ Hr) as ([(I1 & I2 & I3 & I4 & I5) _] & _).
  split; [done |]. split; [done |]. split.
  - intros t s Ht Hs. by apply (I5 t s).
  - intros [[t Ht] | [s Hs]]; [by apply (I1 t) | by apply (I2 s)].
Qed.

Lemma cond_lock_excludes_witness :
  (∀ t t', wcs (w_pc (waiters sys_walk t)) -> wcs (w_pc (waiters sys_walk t')) -> t = t') ∧
  (∀ s s', scs (s_pc (signalers sys_walk s)) -> scs (s_pc (signalers sys_walk s')) ->
           s = s') ∧
  (∀ t s, wcs (w_pc (waiters sys_walk t)) -> ¬ scs (s_pc (signalers sys_walk s))) ∧
  ((∃ t, wcs (w_pc (waiters sys_walk t))) ∨ (∃ s, scs (s_pc (signalers sys_walk s))) ->
   _c_lock (mem sys_walk) ≠ 0).
Proof.
  apply (cond_lock_excludes sys_walk).
  apply after_reachable. vm_compute. discriminate.
Defined.


(** X2 (lines 84-89): the insertion never dereferences a null pointer.
    In every reachable state a call that holds the lock and is about to
    insert its node finds [c->_c_tail] null exactly when [c->_c_head] is,
    so that [node.next->prev] is written only with [node.next] not null:
    the step is defined, and it leaves the list with the node of the call
    in front. *)
Theorem insertion_is_defined (σ : system) (t : addr) :
  reachable σ ->
  w_pc (waiters σ t) = WInsert ->
  ∃ m', enqueue t (mem σ) = Some m' ∧
        wf_list m' (t :: attached (trace (mem σ))) ∧
        _c_head m' = Some t ∧
        next (nodes m' t) = _c_head (mem σ) ∧
        (_c_tail m' = if decide (_c_tail (mem σ) = None) then Some t
                      else _c_tail (mem σ)).
Proof.
  intros Hr Hpc. destruct (inv3_reachable σ Hr) as ([_ (Hwf & Hw & _)] & _).
  specialize (Hw t). unfold wtable in Hw. rewrite Hpc in Hw. simpl in Hw.
  destruct Hw as (HtL & _ & Hp & _).
  destruct (enqueue_attached _ _ _ Hwf HtL Hp) as (m' & Henq & Hwf' & _).
  exists m'. split; [done |]. split; [done |].
  destruct Hwf' as (_ & Hc & Hh & Ht). split; [done |].
  apply chain_cons in Hc as (_ & Hn & _). rewrite or_else_None in Hn.
  destruct Hwf as (_ & _ & Hh0 & Ht0). split; [by rewrite Hn, Hh0 |].
  rewrite Ht, Ht0.
  destruct (attached (trace (mem σ))) as [| b l] eqn:EL; [done |].
  rewrite last_cons_cons. rewrite decide_False; [done |].
  intros E. by apply last_None in E.
Qed.

(** The call at 0 waits, the call at 1 holds the lock and is about to
    insert its node. *)
Definition sys_insert : system :=
  after (arrive 0%nat ++ [AWait 1%nat example_ext; AWait 1%nat example_ext]).

Lemma insertion_is_defined_witness :
  ∃ m', enqueue 1%nat (mem sys_insert) = Some m' ∧
        wf_list m' (1%nat :: attached (trace (mem sys_insert))) ∧
        _c_head m' = Some 1%nat ∧
        next (nodes m' 1%nat) = _c_head (mem sys_insert) ∧
        (_c_tail m' = if decide (_c_tail (mem sys_insert) = None) then Some 1%nat
                      else _c_tail (mem sys_insert)).
Proof.
  apply (insertion_is_defined sys_insert 1%nat).
  - apply after_reachable. vm_compute. discriminate.
  - vm_compute. reflexivity.
Defined.


(** The program points of a call from the insertion of its node to its
    compare-and-exchange of line 111. *)
Definition waiting_pc (pc : wpc) : Prop :=
  match pc with
  | WUnlock1 | WMutexUnlock | WSetCancel | WWait | WCas => True
  | _ => False
  end.

(** X3 (lines 79-111): no waiter is lost.  In every reachable state a
    call that has inserted its node and has yet to do its
    compare-and-exchange (it is about to release the lock or the mutex,
    or is blocked) has its node in the list, WAITING, not yet visited by
    any signaler and without [notify]; or a signaler has won the
    compare-and-exchange on the node, which is SIGNALED. *)
Theorem waiting_node_is_listed (σ : system) (t : addr) :
  reachable σ ->
  waiting_pc (w_pc (waiters σ t)) ->
  (state (nodes (mem σ) t) = WAITING ∧ t ∈ attached (trace (mem σ)) ∧
   (∀ s, t ∉ visited s (trace (mem σ))) ∧ notify (nodes (mem σ) t) = None ∧
   swins t (trace (mem σ)) = 0%nat) ∨
  (state (nodes (mem σ) t) = SIGNALED ∧ swins t (trace (mem σ)) = 1%nat).
Proof.
  intros Hr Hpc.
  destruct (inv3_reachable σ Hr) as ([_ (_ & Hw & _ & Hm)] & Hc & _).
  specialize (Hw t). specialize (Hc t). unfold wtable in Hw. unfold est in Hc.
  rewrite decide_False in Hc by (intros E; by rewrite E in Hpc).
  assert (Hcl : (state (nodes (mem σ) t) = WAITING ∧ t ∈ attached (trace (mem σ))) ∨
                state (nodes (mem σ) t) = SIGNALED).
  { destruct (w_pc (waiters σ t)); simpl in *; done. }
  destruct Hcl as [[Hs HL] | Hs]; rewrite Hs in Hc; simpl in Hc.
  - left. destruct (Hm t HL) as [M1 M2].
    assert (Hu : ∀ s, t ∉ visited s (trace (mem σ))).
    { intros s Hv. destruct (M2 s Hv) as [? | [? _]]; congruence. }
    split; [done |]. split; [done |]. split; [done |].
    split; [by apply M1 | tauto].
  - right. tauto.
Qed.

Lemma waiting_node_is_listed_witness :
  (state (nodes (mem sys_walk) 1%nat) = WAITING ∧
   1%nat ∈ attached (trace (mem sys_walk)) ∧
   (∀ s, 1%nat ∉ visited s (trace (mem sys_walk))) ∧
   notify (nodes (mem sys_walk) 1%nat) = None ∧
   swins 1%nat (trace (mem sys_walk)) = 0%nat) ∨
  (state (nodes (mem sys_walk) 1%nat) = SIGNALED ∧
   swins 1%nat (trace (mem sys_walk)) = 1%nat).
Proof.
  apply (waiting_node_is_listed sys_walk 1%nat).
  - apply after_reachable. vm_compute. discriminate.
  - vm_compute. exact I.
Defined.

(** The program points of a call that timed out and has spliced its
    node out. *)
Definition spliced_pc (pc : wpc) (old : wstate) : Prop :=
  match pc with
  | WUnlock2 | WNotify => True
  | WMutexLock | WDone => old = WAITING
  | _ => False
  end.

(** X4 (lines 127-139): a call that timed out takes its node out of the
    list itself.  In every reachable state a call that won its
    compare-and-exchange and is past lines 130-137 has its node LEAVING
    and not in the list, and no compare-and-exchange of a signaler has
    won on the node. *)
Theorem timed_out_node_is_unlinked (σ : system) (t : addr) :
  reachable σ ->
  spliced_pc (w_pc (waiters σ t)) (w_oldstate (waiters σ t)) ->
  state (nodes (mem σ) t) = LEAVING ∧ (t ∉ attached (trace (mem σ))) ∧
  swins t (trace (mem σ)) = 0%nat.
Proof.
  intros Hr Hpc.
  destruct (inv3_reachable σ Hr) as ([_ (_ & Hw & _)] & Hc & _).
  specialize (Hw t). specialize (Hc t). unfold wtable in Hw. unfold est in Hc.
  rewrite decide_False in Hc by (intros E; by rewrite E in Hpc).
  assert (Hcl : state (nodes (mem σ) t) = LEAVING ∧ t ∉ attached (trace (mem σ))).
  { destruct (w_pc (waiters σ t)); simpl in *; try done; intuition congruence. }
  destruct Hcl as [Hs HL]. rewrite Hs in Hc. simpl in Hc. tauto.
Qed.

Lemma timed_out_node_is_unlinked_witness :
  state (nodes (mem sys_release) 0%nat) = LEAVING ∧
  (0%nat ∉ attached (trace (mem sys_release))) ∧
  swins 0%nat (trace (mem sys_release)) = 0%nat.
Proof.
  apply (timed_out_node_is_unlinked sys_release 0%nat).
  - apply after_reachable. vm_compute. discriminate.
  - vm_compute. reflexivity.
Defined.
